(** * MeshBlockData: the block-local variable container of Parthenon

    A shallow embedding of [src/interface/meshblock_data.cpp]: the variable
    registry ([AddField], [CopyFrom], the selection queries), the pack
    caches ([PackListedVariables], [PackListedVariablesAndFluxes]) and the
    boundary-exchange tasks ([StartReceiving], [ReceiveBoundaryBuffers]).

    Variables are objects held through [std::shared_ptr]; they live in a
    store indexed by addresses, and a container holds addresses, so that
    two containers can share one variable.  Every method is a computation
    in a state-and-failure monad over the container, the store and the
    trace of calls made to the boundary layer. *)

From Stdlib Require Import String Ascii ZArith List Bool Sorted OrdersEx.
From stdpp Require Import base gmap strings list fin_maps sorting pretty.

Local Open Scope string_scope.
Local Open Scope list_scope.
Local Open Scope Z_scope.

(** ** Metadata *)

(** Modelled from the spec: [interface/metadata.hpp] is not part of the
    sources.  A variable carries "metadata flags (e.g.,
    participates-in-ghost-exchange, has-fluxes, sparse,
    single-copy-per-block)" and a placement, which [Where] returns and
    [AddField] branches on.  The flags that the container names are listed;
    [NoTopology] is a placement that is none of the four, and [OtherFlag]
    stands for every flag the container never names. *)
Inductive MetadataFlag : Set :=
  | Node | Edge | Face | Cell | NoTopology
  | OneCopy | FillGhost | WithFluxes
  | OtherFlag (n : nat).

#[global] Instance MetadataFlag_eq_dec : EqDecision MetadataFlag.
Proof. solve_decision. Defined.

Record Metadata : Set := mkMetadata {
  Where : MetadataFlag;
  bits_ : list MetadataFlag
}.

Definition IsSet (m : Metadata) (f : MetadataFlag) : bool :=
  bool_decide (f ∈ bits_ m).

Definition AllFlagsSet (m : Metadata) (fs : list MetadataFlag) : bool :=
  forallb (IsSet m) fs.

Definition AnyFlagsSet (m : Metadata) (fs : list MetadataFlag) : bool :=
  existsb (IsSet m) fs.

(** ** Variables and the store *)

(** Modelled from the spec: [interface/variable.hpp] is not part of the
    sources.  "sparse_id is absent (or a sentinel) for dense variables";
    the sentinel is the least [int]. *)
Definition InvalidSparseID : Z := - 2 ^ 31.

(** Modelled from the spec: the identity of a variable is
    [(base_name, sparse_id)]; its label is the base name, followed for a
    sparse variable by an underscore and the sparse id in decimal. *)
Definition MakeVarLabel (base_name : string) (sparse_id : Z) : string :=
  if bool_decide (sparse_id = InvalidSparseID) then base_name
  else base_name +:+ "_" +:+ pretty sparse_id.

Abbreviation loc := nat.

Section Model.

(** [T] is the element type of the template ([double] in the only
    instantiation); [Coords] is the coordinates object of a block and
    [BoundaryCommSubset] the phase tag of the boundary layer.  The
    container stores and forwards them and never inspects them. *)
Context {T Coords BoundaryCommSubset : Type}.

(** Modelled from the spec: [CellVariable<T>] and [FaceVariable<T>] offer
    this file the same members ([label], [metadata], [IsSet], [IsSparse],
    [GetSparseID], [IsAllocated], [AllocateCopy]); one record stands for
    both, and the container keeps them apart in [varVector_]/[varMap_] and
    [faceVector_]/[faceMap_] as the source does.  "A variable is either
    allocated (backing storage exists) or unallocated (placeholder only)". *)
Record CellVariable : Type := mkCellVariable {
  base_name : string;
  metadata : Metadata;
  sparse_id_ : Z;
  is_allocated_ : bool;
  data : list T;
  mpiStatus : bool
}.

Definition label (v : CellVariable) : string :=
  MakeVarLabel (base_name v) (sparse_id_ v).
Definition IsSparse (v : CellVariable) : bool :=
  negb (bool_decide (sparse_id_ v = InvalidSparseID)).
Definition GetSparseID (v : CellVariable) : Z := sparse_id_ v.
Definition IsAllocated (v : CellVariable) : bool := is_allocated_ v.
Definition VarIsSet (v : CellVariable) (f : MetadataFlag) : bool :=
  IsSet (metadata v) f.

Definition set_mpiStatus (b : bool) (v : CellVariable) : CellVariable :=
  mkCellVariable (base_name v) (metadata v) (sparse_id_ v)
                 (is_allocated_ v) (data v) b.
Definition set_data (d : list T) (v : CellVariable) : CellVariable :=
  mkCellVariable (base_name v) (metadata v) (sparse_id_ v)
                 (is_allocated_ v) d (mpiStatus v).

(** Modelled from the spec: [CellVariable::Allocate] brings the backing
    storage into existence; the variable is allocated from then on. *)
Definition Allocate (v : CellVariable) : CellVariable :=
  mkCellVariable (base_name v) (metadata v) (sparse_id_ v)
                 true (data v) (mpiStatus v).

(** Modelled from the spec: the constructor of a cell variable makes the
    placeholder only, "allocation is deferred to policy"; a face variable
    has no sparse id and owns its storage from the start. *)
Definition new_CellVariable (name : string) (m : Metadata) (sid : Z)
  : CellVariable :=
  mkCellVariable name m sid false [] false.
Definition new_FaceVariable (name : string) (m : Metadata) : CellVariable :=
  mkCellVariable name m InvalidSparseID true [] false.

#[global] Instance CellVariable_inhabited : Inhabited CellVariable :=
  populate (new_CellVariable "" (mkMetadata NoTopology []) InvalidSparseID).

(** ** The resolved schema *)

(** Modelled from the spec: [interface/state_descriptor.hpp] is not part of
    the sources.  The schema exposes "all declared fields" and
    "sparse-pool membership queries"; [GetSparsePool] of a name that is no
    sparse base name is the empty pool (comment in [CopyFrom]). *)
Record StateDescriptor : Type := mkStateDescriptor {
  AllFields : list ((string * Z) * Metadata);
  sparse_pools : list (string * list (Z * Metadata))
}.

Fixpoint assoc_find {V : Type} (k : string) (l : list (string * V))
  : option V :=
  match l with
  | [] => None
  | (k', x) :: l' => if String.eqb k k' then Some x else assoc_find k l'
  end.

Definition SparseBaseNamePresent (sd : StateDescriptor) (name : string)
  : bool :=
  match assoc_find name (sparse_pools sd) with Some _ => true | None => false end.

Definition GetSparsePool (sd : StateDescriptor) (name : string)
  : list (Z * Metadata) :=
  match assoc_find name (sparse_pools sd) with Some p => p | None => [] end.

(** ** Selection lists *)

(** Modelled from the spec: [VarLabelList] is declared in
    [interface/meshblock_data.hpp], which is not part of the sources.  It
    is "an ordered, deduplicated list of variable identities produced by a
    selection query, paired with an allocation fingerprint ... (e.g., one
    bit per listed variable) of which of the selected variables are
    currently allocated".  The identity of a variable is
    "[(base_name, sparse_id)]", which its label spells out. *)
Record VarLabelList : Type := mkVarLabelList {
  vars : list loc;
  labels : list string;
  alloc_status : list bool
}.

Definition VarLabelList_empty : VarLabelList := mkVarLabelList [] [] [].

(** The sparse-id filter of a selection: "optionally only extracting sparse
    fields with an index from the given list of sparse indices" (comments
    above [GetVariablesByName] and [GetVariablesByFlag]).  A variable
    passes when it is not sparse, when no sparse id was given, or when its
    sparse id was given. *)
Definition passes_sparse_filter (v : CellVariable) (sparse_ids_set : gset Z)
  : bool :=
  negb (IsSparse v) || bool_decide (sparse_ids_set = ∅)
  || bool_decide (GetSparseID v ∈ sparse_ids_set).

(** Modelled from the spec: [VarLabelList::Add] appends the variable, its
    label and its allocation bit when the variable passes the filter and
    its identity is not listed yet, which keeps the list "ordered" and
    "deduplicated". *)
Definition VarLabelList_Add (h : gmap loc CellVariable) (a : loc)
    (sparse_ids_set : gset Z) (l : VarLabelList) : VarLabelList :=
  let v := h !!! a in
  if passes_sparse_filter v sparse_ids_set
     && negb (bool_decide (label v ∈ labels l))
  then mkVarLabelList (vars l ++ [a]) (labels l ++ [label v])
                      (alloc_status l ++ [IsAllocated v])
  else l.

(** ** Packs *)

(** Modelled from the spec: [interface/variable_pack.hpp] is not part of
    the sources.  A pack is "a batched, kernel-consumable view aggregating
    the storage of all variables in a VarLabelList (optionally paired with
    matching flux storage) into one addressable structure, plus an index
    map from variable identity to its offset within the pack".  The views
    are the addresses of the packed variables.  [pack_alloc_status_] is the
    pointer that [PackListedVariables] sets to the [alloc_status] member
    of the cache node holding the pack; a node is named by the serial
    number it received when the map allocated it. *)
Record VariablePack : Type := mkVariablePack {
  pack_v : list loc;
  pack_coarse : bool;
  pack_coords : option Coords;
  pack_alloc_status_ : option nat
}.

Record VariableFluxPack : Type := mkVariableFluxPack {
  fpack_v : list loc;
  fpack_flux : list loc;
  fpack_coords : option Coords;
  fpack_alloc_status_ : option nat;
  fpack_flux_alloc_status_ : option nat
}.

Definition PackIndexMap : Type := list (string * nat).

Definition index_of_labels (ls : list string) : PackIndexMap :=
  zip ls (seq 0 (length ls)).

Definition MakePack (var_list : VarLabelList) (coarse : bool)
  : VariablePack * PackIndexMap :=
  (mkVariablePack (vars var_list) coarse None None,
   index_of_labels (labels var_list)).

Definition MakeFluxPack (var_list flux_list : VarLabelList)
  : VariableFluxPack * PackIndexMap :=
  (mkVariableFluxPack (vars var_list) (vars flux_list) None None None,
   index_of_labels (labels var_list)).

(** The values of the cache maps. *)
Record PackIndxPair : Type := mkPackIndxPair {
  pip_pack : VariablePack;
  pip_map : PackIndexMap;
  pip_alloc_status : list bool
}.

Record FluxPackIndxPair : Type := mkFluxPackIndxPair {
  fpip_pack : VariableFluxPack;
  fpip_map : PackIndexMap;
  fpip_alloc_status : list bool;
  fpip_flux_alloc_status : list bool
}.

(** ** The container *)

(** Of the mesh block the container uses the device coordinates and, for
    every neighbor, the owning rank and the variable vector of the
    neighbor's base container ([FindMeshBlock(gid)->meshblock_data.Get()]). *)
Record MeshBlock : Type := mkMeshBlock {
  coords_device : Coords;
  neighbor : list (Z * list loc)
}.

Record MeshBlockData : Type := mkMeshBlockData {
  pmy_block : MeshBlock;
  resolved_packages_ : option StateDescriptor;
  varVector_ : list loc;
  faceVector_ : list loc;
  varMap_ : gmap string loc;
  faceMap_ : gmap string loc;
  varPackMap_ : gmap (list string) PackIndxPair;
  coarseVarPackMap_ : gmap (list string) PackIndxPair;
  varFluxPackMap_ : gmap (list string * list string) FluxPackIndxPair
}.

(** Build configuration and process-wide globals read by the container. *)
Record Globals : Type := mkGlobals {
  ENABLE_SPARSE : bool;
  sparse_config_enabled : bool;
  my_rank : Z
}.

(** ** Iteration over a [std::map] keyed by strings *)

(** [std::map<std::string, _>] iterates in increasing key order, the
    lexicographic order of the strings. *)
Definition string_le (s1 s2 : string) : Prop :=
  String_as_OT.compare s1 s2 <> Gt.

#[global] Instance string_le_dec s1 s2 : Decision (string_le s1 s2).
Proof. unfold string_le. solve_decision. Defined.

Definition key_le {V : Type} (x y : string * V) : Prop :=
  string_le (fst x) (fst y).

#[global] Instance key_le_dec {V : Type} (x y : string * V)
  : Decision (key_le x y).
Proof. unfold key_le. apply _. Defined.

Definition std_map_iter {V : Type} (m : gmap string V) : list (string * V) :=
  merge_sort key_le (map_to_list m).

(** ** Effects *)

(** Calls into the boundary layer ([bvals/cc/bvals_cc.hpp], reached through
    [v->vbvar]) and writes to [std::cerr] are recorded in order. *)
Inductive Event : Type :=
  | Cerr (msg : string)
  | ResetBoundary (v : loc)
  | VbSetLocalNeighborAllocated (v : loc) (n : nat) (allocated : bool)
  | VbStartReceiving (v : loc) (phase : BoundaryCommSubset)
  | VbReceiveBoundaryBuffers (v : loc) (is_allocated : bool).

Inductive TaskStatus : Set := fail | complete | incomplete.

(** How a call ends: it returns, throws, leaves the process through
    [std::exit], or is ended by [std::abort] when an [assert] fails;
    [Abort] carries the asserted expression. *)
Inductive Result (A : Type) : Type :=
  | Ok (a : A)
  | Throw (what : string)
  | Exit (code : Z)
  | Abort (expr : string).
#[global] Arguments Ok {A} a.
#[global] Arguments Throw {A} what.
#[global] Arguments Exit {A} code.
#[global] Arguments Abort {A} expr.

(** [this] is the container the method runs on, [heap] the store of
    variable objects and [nodes] the number of cache-map nodes allocated so
    far, which names the next one. *)
Record State : Type := mkState {
  this : MeshBlockData;
  heap : gmap loc CellVariable;
  nodes : nat;
  trace : list Event
}.

Definition M (A : Type) : Type := State -> Result A * State.

#[global] Instance M_ret : MRet M := fun A a s => (Ok a, s).
#[global] Instance M_bind : MBind M := fun A B f m s =>
  match m s with
  | (Ok a, s') => f a s'
  | (Throw w, s') => (Throw w, s')
  | (Exit c, s') => (Exit c, s')
  | (Abort e, s') => (Abort e, s')
  end.

(** Code that only reads the state ends in a [Result] of its own. *)
#[global] Instance Result_ret : MRet Result := fun A a => Ok a.
#[global] Instance Result_bind : MBind Result := fun A B f r =>
  match r with
  | Ok a => f a
  | Throw w => Throw w
  | Exit c => Exit c
  | Abort e => Abort e
  end.

Definition lift {A : Type} (r : Result A) : M A := fun s => (r, s).

(** [std::map::at] throws [std::out_of_range] on a missing key. *)
Definition at_ (m : gmap string loc) (key : string) : Result loc :=
  match m !! key with
  | Some a => Ok a
  | None => Throw "map::at"
  end.

Definition throw {A : Type} (what : string) : M A := fun s => (Throw what, s).
Definition exit {A : Type} (code : Z) : M A := fun s => (Exit code, s).
Definition abort {A : Type} (expr : string) : M A := fun s => (Abort expr, s).
Definition get : M State := fun s => (Ok s, s).
Definition emit (e : Event) : M unit := fun s =>
  (Ok tt, mkState (this s) (heap s) (nodes s) (trace s ++ [e])).
Definition update_this (f : MeshBlockData -> MeshBlockData) : M unit :=
  fun s => (Ok tt, mkState (f (this s)) (heap s) (nodes s) (trace s)).
Definition update_var (a : loc) (f : CellVariable -> CellVariable) : M unit :=
  fun s => (Ok tt, mkState (this s) (<[a := f (heap s !!! a)]> (heap s))
                           (nodes s) (trace s)).
Definition make_shared (v : CellVariable) : M loc := fun s =>
  let a := fresh (dom (heap s)) in
  (Ok a, mkState (this s) (<[a := v]> (heap s)) (nodes s) (trace s)).
Definition new_node : M nat := fun s =>
  (Ok (nodes s), mkState (this s) (heap s) (S (nodes s)) (trace s)).
Definition PARTHENON_REQUIRE_THROWS (cond : bool) (msg : string) : M unit :=
  if cond then mret tt else throw msg.

(** [assert(cond)]: nothing when the condition holds, [std::abort]
    otherwise.  The model keeps the assertions of the source; a build
    with [NDEBUG] drops them and behaves like the model wherever they
    hold. *)
Definition assert_ (cond : bool) (expr : string) : M unit :=
  if cond then mret tt else abort expr.

Fixpoint for_each {A : Type} (l : list A) (body : A -> M unit) : M unit :=
  match l with
  | [] => mret tt
  | x :: l' => body x ;; for_each l' body
  end.

(** Field updates of the container. *)
Definition with_block (b : MeshBlock) (p : option StateDescriptor)
    (c : MeshBlockData) : MeshBlockData :=
  mkMeshBlockData b p (varVector_ c) (faceVector_ c) (varMap_ c) (faceMap_ c)
    (varPackMap_ c) (coarseVarPackMap_ c) (varFluxPackMap_ c).
Definition with_vars (vv : list loc) (vm : gmap string loc)
    (c : MeshBlockData) : MeshBlockData :=
  mkMeshBlockData (pmy_block c) (resolved_packages_ c) vv (faceVector_ c) vm
    (faceMap_ c) (varPackMap_ c) (coarseVarPackMap_ c) (varFluxPackMap_ c).
Definition with_faces (fv : list loc) (fm : gmap string loc)
    (c : MeshBlockData) : MeshBlockData :=
  mkMeshBlockData (pmy_block c) (resolved_packages_ c) (varVector_ c) fv
    (varMap_ c) fm (varPackMap_ c) (coarseVarPackMap_ c) (varFluxPackMap_ c).
Definition with_packmap (coarse : bool) (pm : gmap (list string) PackIndxPair)
    (c : MeshBlockData) : MeshBlockData :=
  if coarse
  then mkMeshBlockData (pmy_block c) (resolved_packages_ c) (varVector_ c)
         (faceVector_ c) (varMap_ c) (faceMap_ c) (varPackMap_ c) pm
         (varFluxPackMap_ c)
  else mkMeshBlockData (pmy_block c) (resolved_packages_ c) (varVector_ c)
         (faceVector_ c) (varMap_ c) (faceMap_ c) pm (coarseVarPackMap_ c)
         (varFluxPackMap_ c).
Definition with_fluxmap
    (pm : gmap (list string * list string) FluxPackIndxPair)
    (c : MeshBlockData) : MeshBlockData :=
  mkMeshBlockData (pmy_block c) (resolved_packages_ c) (varVector_ c)
    (faceVector_ c) (varMap_ c) (faceMap_ c) (varPackMap_ c)
    (coarseVarPackMap_ c) pm.

(** [coarse ? coarseVarPackMap_ : varPackMap_] *)
Definition packmap_of (coarse : bool) (c : MeshBlockData)
  : gmap (list string) PackIndxPair :=
  if coarse then coarseVarPackMap_ c else varPackMap_ c.

(** ** The registry *)

(** Modelled from the spec: the two overloads of [Add] are defined in the
    header; each appends the pointer to the vector of its kind and binds
    the variable's label to it in the map of its kind. *)
Definition Add (var : loc) : M unit :=
  s ← get;
  update_this (with_vars (varVector_ (this s) ++ [var])
                 (<[label (heap s !!! var) := var]> (varMap_ (this s)))).
Definition AddFace (var : loc) : M unit :=
  s ← get;
  update_this (with_faces (faceVector_ (this s) ++ [var])
                 (<[label (heap s !!! var) := var]> (faceMap_ (this s)))).

Definition AddField (G : Globals) (base_name : string) (metadata : Metadata)
    (sparse_id : Z) : M unit :=
  if decide (Where metadata = Node) then
    throw "Node variables are not implemented yet"
  else if decide (Where metadata = Edge) then
    emit (Cerr "Accessing unliving edge array in stage") ;; exit 1
  else if decide (Where metadata = Face) then
    (if negb (IsSet metadata OneCopy)
     then emit (Cerr "Currently one one-copy face fields are supported") ;;
          exit 1
     else mret tt) ;;
    (if IsSet metadata FillGhost
     then emit (Cerr "Ghost zones not yet supported for face fields") ;;
          exit 1
     else mret tt) ;;
    pfv ← make_shared (new_FaceVariable base_name metadata);
    AddFace pfv
  else
    pvar ← make_shared (new_CellVariable base_name metadata sparse_id);
    Add pvar ;;
    s ← get;
    if negb (sparse_config_enabled G) || negb (IsSparse (heap s !!! pvar))
    then update_var pvar Allocate
    else mret tt.

Definition Initialize (G : Globals) (resolved_packages : StateDescriptor)
    (pmb : MeshBlock) : M unit :=
  update_this (fun _ =>
    mkMeshBlockData pmb (Some resolved_packages) [] [] ∅ ∅ ∅ ∅ ∅) ;;
  for_each (AllFields resolved_packages)
    (fun q => AddField G (fst (fst q)) (snd q) (snd (fst q))).

(** Modelled from the spec: [AllocateCopy] deep-duplicates a variable into
    a new object with storage of its own. *)
Definition AllocateCopy (var : loc) : M loc :=
  s ← get; make_shared (heap s !!! var).

(** The kind of the pointer selects the overload of [Add]. *)
Inductive VarKind : Set := CellKind | FaceKind.
Definition Add_kind (k : VarKind) (var : loc) : M unit :=
  match k with CellKind => Add var | FaceKind => AddFace var end.


Definition add_var (shallow_copy : bool) (flags : list MetadataFlag)
    (sparse_ids : list Z) (k : VarKind) (var : loc) : M unit :=
  let sparse_ids_set : gset Z := list_to_set sparse_ids in
  s ← get;
  let v := heap s !!! var in
  if negb (bool_decide (flags = [])) && negb (AnyFlagsSet (metadata v) flags)
  then mret tt
  else if negb (bool_decide (sparse_ids = [])) && IsSparse v
          && negb (bool_decide (GetSparseID v ∈ sparse_ids_set))
  then mret tt
  else if shallow_copy || VarIsSet v OneCopy
  then Add_kind k var
  else c ← AllocateCopy var; Add_kind k c.

Definition CopyFrom_name (src : MeshBlockData) (shallow_copy : bool)
    (flags : list MetadataFlag) (sparse_ids : list Z) (name : string)
  : M unit :=
  let add := add_var shallow_copy flags sparse_ids in
  found1 ← match varMap_ src !! name with
           | Some v => add CellKind v ;; mret true
           | None => mret false
           end;
  found2 ← match faceMap_ src !! name with
           | Some fv =>
               PARTHENON_REQUIRE_THROWS (negb found1)
                 ("MeshBlockData::CopyFrom: Variable '" +:+ name +:+
                  "' found more than once") ;;
               add FaceKind fv ;; mret true
           | None => mret found1
           end;
  s ← get;
  found3 ← match resolved_packages_ (this s) with
           | Some pkgs =>
               if negb found2 then
                 let sparse_pool := GetSparsePool pkgs name in
                 for_each sparse_pool (fun iter =>
                   s' ← get;
                   v ← lift (at_ (varMap_ (this s'))
                                 (MakeVarLabel name (fst iter)));
                   add CellKind v) ;;
                 mret (negb (bool_decide (sparse_pool = [])))
               else mret found2
           | None => mret found2
           end;
  PARTHENON_REQUIRE_THROWS found3
    ("MeshBlockData::CopyFrom: Variable '" +:+ name +:+ "' not found").

Definition CopyFrom (src : MeshBlockData) (shallow_copy : bool)
    (names : list string) (flags : list MetadataFlag) (sparse_ids : list Z)
  : M unit :=
  update_this (with_block (pmy_block src) (resolved_packages_ src)) ;;
  let add := add_var shallow_copy flags sparse_ids in
  if bool_decide (names = []) then
    for_each (varVector_ src) (add CellKind) ;;
    for_each (faceVector_ src) (add FaceKind)
  else
    for_each names (CopyFrom_name src shallow_copy flags sparse_ids).

Definition Remove (label : string) : M unit :=
  throw "MeshBlockData<T>::Remove not yet implemented".

(** ** Selection queries *)

(** The selection queries read the container and the store and change
    neither; they are functions of both, and [GetVariablesByName] can end
    in the exception of [std::map::at]. *)

Fixpoint fold_each {A B : Type} (l : list A) (acc : B)
    (body : B -> A -> Result B) : Result B :=
  match l with
  | [] => mret acc
  | x :: l' => acc' ← body acc x; fold_each l' acc' body
  end.

Definition GetVariablesByName (c : MeshBlockData)
    (h : gmap loc CellVariable) (names : list string) (sparse_ids : list Z)
  : Result VarLabelList :=
  let sparse_ids_set : gset Z := list_to_set sparse_ids in
  fold_each names VarLabelList_empty (fun var_list name =>
    match varMap_ c !! name with
    | Some v => mret (VarLabelList_Add h v sparse_ids_set var_list)
    | None =>
        match resolved_packages_ c with
        | Some pkgs =>
            if SparseBaseNamePresent pkgs name then
              fold_each (GetSparsePool pkgs name) var_list
                (fun var_list iter =>
                   v ← at_ (varMap_ c) (MakeVarLabel name (fst iter));
                   mret (VarLabelList_Add h v sparse_ids_set var_list))
            else mret var_list
        | None => mret var_list
        end
    end).

(** The test guarding [var_list.Add] in [GetVariablesByFlag]. *)
Definition flags_match (flags : list MetadataFlag) (match_all : bool)
    (v : CellVariable) : bool :=
  bool_decide (flags = [])
  || (match_all && AllFlagsSet (metadata v) flags)
  || (negb match_all && AnyFlagsSet (metadata v) flags).

Definition GetVariablesByFlag (c : MeshBlockData)
    (h : gmap loc CellVariable) (flags : list MetadataFlag)
    (match_all : bool) (sparse_ids : list Z) : VarLabelList :=
  let sparse_ids_set : gset Z := list_to_set sparse_ids in
  foldl (fun var_list pair =>
           let v := h !!! snd pair in
           if flags_match flags match_all v
           then VarLabelList_Add h (snd pair) sparse_ids_set var_list
           else var_list)
        VarLabelList_empty (std_map_iter (varMap_ c)).

(** ** The pack caches *)

(** [std::map::insert]: a node is added only when the key is absent. *)
Definition std_map_insert `{Countable K} {V : Type} (k : K) (x : V)
    (m : gmap K V) : gmap K V :=
  match m !! k with Some _ => m | None => <[k := x]> m end.

Definition set_coords (co : Coords) (p : VariablePack) : VariablePack :=
  mkVariablePack (pack_v p) (pack_coarse p) (Some co) (pack_alloc_status_ p).
Definition grab_pointer (n : nat) (e : PackIndxPair) : PackIndxPair :=
  mkPackIndxPair
    (mkVariablePack (pack_v (pip_pack e)) (pack_coarse (pip_pack e))
                    (pack_coords (pip_pack e)) (Some n))
    (pip_map e) (pip_alloc_status e).

Definition fset_coords (co : Coords) (p : VariableFluxPack)
  : VariableFluxPack :=
  mkVariableFluxPack (fpack_v p) (fpack_flux p) (Some co)
                     (fpack_alloc_status_ p) (fpack_flux_alloc_status_ p).
Definition fgrab_pointers (n : nat) (e : FluxPackIndxPair)
  : FluxPackIndxPair :=
  mkFluxPackIndxPair
    (mkVariableFluxPack (fpack_v (fpip_pack e)) (fpack_flux (fpip_pack e))
                        (fpack_coords (fpip_pack e)) (Some n) (Some n))
    (fpip_map e) (fpip_alloc_status e) (fpip_flux_alloc_status e).

#[global] Instance PackIndxPair_inhabited : Inhabited PackIndxPair :=
  populate (mkPackIndxPair (mkVariablePack [] false None None) [] []).
#[global] Instance FluxPackIndxPair_inhabited : Inhabited FluxPackIndxPair :=
  populate (mkFluxPackIndxPair (mkVariableFluxPack [] [] None None None)
                               [] [] []).

(** The result is the returned pack, together with what the call writes
    through [map] and [key_out]. *)
Definition PackListedVariables (var_list : VarLabelList) (coarse : bool)
  : M (VariablePack * PackIndexMap * list string) :=
  let key := labels var_list in
  s ← get;
  let packmap := packmap_of coarse (this s) in
  make_new_pack ←
    match packmap !! key with
    | None => mret true
    | Some itr =>
        if bool_decide (alloc_status var_list <> pip_alloc_status itr)
        then update_this (with_packmap coarse (delete key packmap)) ;;
             mret true
        else mret false
    end;
  (if make_new_pack : bool then
     s ← get;
     let packmap := packmap_of coarse (this s) in
     let new_item :=
       mkPackIndxPair
         (set_coords (coords_device (pmy_block (this s)))
                     (fst (MakePack var_list coarse)))
         (snd (MakePack var_list coarse))
         (alloc_status var_list) in
     n ← new_node;
     update_this (with_packmap coarse
       (alter (grab_pointer n) key (std_map_insert key new_item packmap)))
   else mret tt) ;;
  s ← get;
  let itr := packmap_of coarse (this s) !!! key in
  mret (pip_pack itr, pip_map itr, key).

Definition PackListedVariablesAndFluxes (var_list flux_list : VarLabelList)
  : M (VariableFluxPack * PackIndexMap * (list string * list string)) :=
  let keys := (labels var_list, labels flux_list) in
  s ← get;
  make_new_pack ←
    match varFluxPackMap_ (this s) !! keys with
    | None => mret true
    | Some itr =>
        if bool_decide (alloc_status var_list <> fpip_alloc_status itr)
           || bool_decide (alloc_status flux_list
                           <> fpip_flux_alloc_status itr)
        then update_this
               (with_fluxmap (delete keys (varFluxPackMap_ (this s)))) ;;
             mret true
        else mret false
    end;
  (if make_new_pack : bool then
     s ← get;
     let new_item :=
       mkFluxPackIndxPair
         (fset_coords (coords_device (pmy_block (this s)))
                      (fst (MakeFluxPack var_list flux_list)))
         (snd (MakeFluxPack var_list flux_list))
         (alloc_status var_list) (alloc_status flux_list) in
     n ← new_node;
     update_this (with_fluxmap
       (alter (fgrab_pointers n) keys
          (std_map_insert keys new_item (varFluxPackMap_ (this s)))))
   else mret tt) ;;
  s ← get;
  let itr := varFluxPackMap_ (this s) !!! keys in
  mret (fpip_pack itr, fpip_map itr, keys).

(** Variables by name and by metadata flags. *)
Definition PackVariablesImpl_names (names : list string)
    (sparse_ids : list Z) (coarse : bool)
  : M (VariablePack * PackIndexMap * list string) :=
  s ← get;
  var_list ← lift (GetVariablesByName (this s) (heap s) names sparse_ids);
  PackListedVariables var_list coarse.

Definition PackVariablesImpl_flags (flags : list MetadataFlag)
    (sparse_ids : list Z) (coarse : bool)
  : M (VariablePack * PackIndexMap * list string) :=
  s ← get;
  PackListedVariables
    (GetVariablesByFlag (this s) (heap s) flags true sparse_ids) coarse.

(** ** Boundary exchange *)

(** Under [ENABLE_SPARSE], tell the boundary variable of every ghost-filled
    variable, for every neighbor on this rank, whether the neighbor has the
    variable allocated.  The two [assert]s check that the neighbor lists
    the same variables: the same number, and the same label at every
    position.  Past the first one every index of the loop is within both
    vectors. *)
Definition SetLocalNeighborAllocated (G : Globals) : M unit :=
  if ENABLE_SPARSE G then
    s ← get;
    let bval_neighbor := neighbor (pmy_block (this s)) in
    for_each (zip (seq 0 (length bval_neighbor)) bval_neighbor) (fun nb =>
      let n := fst nb in
      if bool_decide (fst (snd nb) <> my_rank G) then mret tt
      else
        let neighbor_varVector_ := snd (snd nb) in
        assert_ (bool_decide (length (varVector_ (this s))
                              = length neighbor_varVector_))
          "varVector_.size() == neighbor_data->varVector_.size()" ;;
        for_each (seq 0 (length (varVector_ (this s)))) (fun i =>
          let vi := varVector_ (this s) !!! i in
          let ni := neighbor_varVector_ !!! i in
          assert_ (bool_decide (label (heap s !!! vi) = label (heap s !!! ni)))
            "varVector_[i]->label() == neighbor_data->varVector_[i]->label()" ;;
          if negb (VarIsSet (heap s !!! vi) FillGhost) then mret tt
          else emit (VbSetLocalNeighborAllocated vi n
                       (IsAllocated (heap s !!! ni)))))
  else mret tt.

Definition StartReceiving_body (phase : BoundaryCommSubset) (v : loc)
  : M unit :=
  s ← get;
  if VarIsSet (heap s !!! v) FillGhost then
    emit (ResetBoundary v) ;;
    emit (VbStartReceiving v phase) ;;
    update_var v (set_mpiStatus false)
  else mret tt.

Definition StartReceiving (G : Globals) (phase : BoundaryCommSubset)
  : M TaskStatus :=
  SetLocalNeighborAllocated G ;;
  s ← get;
  for_each (varVector_ (this s)) (StartReceiving_body phase) ;;
  mret complete.

(** [poll v allocated] is the answer of the non-blocking
    [v->vbvar->ReceiveBoundaryBuffers(allocated)] during this call: whether
    the data of [v] has arrived. *)
Definition ReceiveBoundaryBuffers_body (poll : loc -> bool -> bool)
    (ret : bool) (v : loc) : M bool :=
  s ← get;
  if negb (mpiStatus (heap s !!! v)) then
    if VarIsSet (heap s !!! v) FillGhost then
      emit (ResetBoundary v) ;;
      emit (VbReceiveBoundaryBuffers v (IsAllocated (heap s !!! v))) ;;
      update_var v (set_mpiStatus (poll v (IsAllocated (heap s !!! v)))) ;;
      s ← get;
      mret (ret && mpiStatus (heap s !!! v))
    else mret ret
  else mret ret.

Fixpoint for_each_acc {A B : Type} (l : list A) (acc : B)
    (body : B -> A -> M B) : M B :=
  match l with
  | [] => mret acc
  | x :: l' => acc' ← body acc x; for_each_acc l' acc' body
  end.

Definition ReceiveBoundaryBuffers (poll : loc -> bool -> bool)
  : M TaskStatus :=
  s ← get;
  ret ← for_each_acc (varVector_ (this s)) true
          (ReceiveBoundaryBuffers_body poll);
  if ret : bool then mret complete else mret incomplete.


(** ** Vocabulary of the statements *)

(** A variable takes part in the ghost exchange. *)
Definition ghost (h : gmap loc CellVariable) (v : loc) : bool :=
  VarIsSet (h !!! v) FillGhost.

(** A ghost-filled variable whose channel is not yet marked complete. *)
Definition pending (h : gmap loc CellVariable) (v : loc) : bool :=
  negb (mpiStatus (h !!! v)) && ghost h v.

(** The answer of the transport for [v], asked with the allocation flag
    that [v] has in [h]. *)
Definition polled (poll : loc -> bool -> bool) (h : gmap loc CellVariable)
    (v : loc) : bool :=
  poll v (IsAllocated (h !!! v)).

Definition is_sync_event (e : Event) : Prop :=
  match e with VbSetLocalNeighborAllocated _ _ _ => True | _ => False end.

Definition add_trace (evs : list Event) (s : State) : State :=
  mkState (this s) (heap s) (nodes s) (trace s ++ evs).

(** The store after [x] was polled. *)
Definition after_poll (poll : loc -> bool -> bool)
    (h : gmap loc CellVariable) (x : loc) : gmap loc CellVariable :=
  <[x := set_mpiStatus (polled poll h x) (h !!! x)]> h.

(** What one call of [ReceiveBoundaryBuffers] over the variables [l] leaves
    at address [a]. *)
Definition received (poll : loc -> bool -> bool) (l : list loc)
    (h : gmap loc CellVariable) (a : loc) : CellVariable :=
  if bool_decide (a ∈ l) && pending h a
  then set_mpiStatus (polled poll h a) (h !!! a) else h !!! a.

(** Strictly increasing order of [std::string]. *)
Definition string_lt (s1 s2 : string) : Prop :=
  String_as_OT.compare s1 s2 = Lt.

(** The selection list holding the variables [l], read in the store [h]. *)
Definition VarLabelList_of (h : gmap loc CellVariable) (l : list loc)
  : VarLabelList :=
  mkVarLabelList l ((fun a => label (h !!! a)) <$> l)
                 ((fun a => IsAllocated (h !!! a)) <$> l).

(** The wording of the flag test: the flag list is empty, or [match_all]
    holds and all listed flags are set, or [match_all] does not hold and
    at least one listed flag is set. *)
Definition flags_selected (flags : list MetadataFlag) (match_all : bool)
    (m : Metadata) : Prop :=
  flags = []
  \/ (match_all = true /\ forall f, f ∈ flags -> IsSet m f = true)
  \/ (match_all = false /\ exists f, f ∈ flags /\ IsSet m f = true).

(** The registry binds every label to a variable carrying that label, as
    [Add] leaves it. *)
Definition varMap_wf (c : MeshBlockData) (h : gmap loc CellVariable) : Prop :=
  forall k a, varMap_ c !! k = Some a -> label (h !!! a) = k.

(** The entries of the registry that [GetVariablesByFlag] keeps. *)
Definition keeps (h : gmap loc CellVariable) (flags : list MetadataFlag)
    (match_all : bool) (sparse_ids_set : gset Z) (pair : string * loc)
  : bool :=
  flags_match flags match_all (h !!! snd pair)
  && passes_sparse_filter (h !!! snd pair) sparse_ids_set.

(** The node that a build from state [s] inserts into the pack cache. *)
Definition fresh_item (var_list : VarLabelList) (coarse : bool) (s : State)
  : PackIndxPair :=
  grab_pointer (nodes s)
    (mkPackIndxPair
       (set_coords (coords_device (pmy_block (this s)))
                   (fst (MakePack var_list coarse)))
       (snd (MakePack var_list coarse))
       (alloc_status var_list)).

(** The state after a build from [s]. *)
Definition built (var_list : VarLabelList) (coarse : bool) (s : State)
  : State :=
  mkState
    (with_packmap coarse
       (<[labels var_list := fresh_item var_list coarse s]>
          (packmap_of coarse (this s)))
       (this s))
    (heap s) (S (nodes s)) (trace s).

(** Every pack held by the two caches points to a node allocated earlier,
    and no two cache entries share a node. *)
Definition cache_wf (s : State) : Prop :=
  (forall coarse k e,
      packmap_of coarse (this s) !! k = Some e ->
      exists n, pack_alloc_status_ (pip_pack e) = Some n /\ (n < nodes s)%nat)
  /\ (forall c1 k1 e1 c2 k2 e2,
      packmap_of c1 (this s) !! k1 = Some e1 ->
      packmap_of c2 (this s) !! k2 = Some e2 ->
      pack_alloc_status_ (pip_pack e1) = pack_alloc_status_ (pip_pack e2) ->
      c1 = c2 /\ k1 = k2).

(** The same container and node counter, seen with another store and
    trace: what the rest of the program may have done to the variables
    between two pack retrievals. *)
Definition with_heap (h : gmap loc CellVariable) (tr : list Event)
    (s : State) : State :=
  mkState (this s) h (nodes s) tr.

(** The node and the state of a build of the combined cache. *)
Definition fresh_flux_item (var_list flux_list : VarLabelList) (s : State)
  : FluxPackIndxPair :=
  fgrab_pointers (nodes s)
    (mkFluxPackIndxPair
       (fset_coords (coords_device (pmy_block (this s)))
                    (fst (MakeFluxPack var_list flux_list)))
       (snd (MakeFluxPack var_list flux_list))
       (alloc_status var_list) (alloc_status flux_list)).

Definition flux_built (var_list flux_list : VarLabelList) (s : State)
  : State :=
  mkState
    (with_fluxmap
       (<[(labels var_list, labels flux_list)
          := fresh_flux_item var_list flux_list s]>
          (varFluxPackMap_ (this s)))
       (this s))
    (heap s) (S (nodes s)) (trace s).

(** Two stores hold the same variables up to their allocation state,
    storage and completion flags: sparse allocation and deallocation
    change nothing else. *)
Definition same_identity (h h' : gmap loc CellVariable) : Prop :=
  forall a, base_name (h' !!! a) = base_name (h !!! a)
            /\ metadata (h' !!! a) = metadata (h !!! a)
            /\ sparse_id_ (h' !!! a) = sparse_id_ (h !!! a).

(** [add_var] goes on to add the variable: the flag filter and the
    sparse-id filter of [CopyFrom] both let it through. *)
Definition copy_selects (flags : list MetadataFlag) (sparse_ids : list Z)
    (v : CellVariable) : bool :=
  (bool_decide (flags = []) || AnyFlagsSet (metadata v) flags)
  && (bool_decide (sparse_ids = []) || negb (IsSparse v)
      || bool_decide (GetSparseID v ∈ (list_to_set sparse_ids : gset Z))).

(** The vector that [Add] of the given kind appends to. *)
Definition kindVector (k : VarKind) (c : MeshBlockData) : list loc :=
  match k with CellKind => varVector_ c | FaceKind => faceVector_ c end.

(** How the pointer [a'] added to the destination relates to the selected
    source pointer [a]: the same object when the copy is shallow or the
    variable is one-copy, otherwise a new object holding a duplicate. *)
Definition copied (shallow_copy : bool) (h h' : gmap loc CellVariable)
    (a a' : loc) : Prop :=
  if shallow_copy || VarIsSet (h !!! a) OneCopy then a' = a
  else (a' ∉ dom h) /\ h' !! a' = Some (h !!! a).

(** A write to the storage of the object at [a]. *)
Definition store_write (a : loc) (d : list T) (h : gmap loc CellVariable)
  : gmap loc CellVariable :=
  <[a := set_data d (h !!! a)]> h.

(** The two calls made for a polled variable. *)
Definition poll_event (h : gmap loc CellVariable) (v : loc) (e : Event)
  : Prop :=
  e = ResetBoundary v
  \/ e = VbReceiveBoundaryBuffers v (IsAllocated (h !!! v)).

(** ** Sub-containers *)

(** A default-constructed container.  It has no block yet; [CopyFrom] sets
    the block first thing, so the model starts it on the block [b] of the
    source. *)
Definition default_MeshBlockData (b : MeshBlock) : MeshBlockData :=
  mkMeshBlockData b None [] [] ∅ ∅ ∅ ∅ ∅.

(** Run a method on a new container: the store, the node counter and the
    trace are those of the caller, whose own container is left alone; the
    new container is the result. *)
Definition on_new_container (b : MeshBlock) (m : M unit) : M MeshBlockData :=
  fun s =>
    match m (mkState (default_MeshBlockData b) (heap s) (nodes s) (trace s))
    with
    | (Ok _, s1) =>
        (Ok (this s1), mkState (this s) (heap s1) (nodes s1) (trace s1))
    | (Throw w, s1) =>
        (Throw w, mkState (this s) (heap s1) (nodes s1) (trace s1))
    | (Exit c, s1) =>
        (Exit c, mkState (this s) (heap s1) (nodes s1) (trace s1))
    | (Abort e, s1) =>
        (Abort e, mkState (this s) (heap s1) (nodes s1) (trace s1))
    end.

(** The two constructors "for getting sub-containers". *)
Definition MeshBlockData_by_names (src : MeshBlockData)
    (names : list string) (sparse_ids : list Z) : M MeshBlockData :=
  on_new_container (pmy_block src) (CopyFrom src true names [] sparse_ids).

Definition MeshBlockData_by_flags (src : MeshBlockData)
    (flags : list MetadataFlag) (sparse_ids : list Z) : M MeshBlockData :=
  on_new_container (pmy_block src) (CopyFrom src true [] flags sparse_ids).

Definition SparseSlice (sparse_ids : list Z) : M MeshBlockData :=
  s ← get;
  on_new_container (pmy_block (this s))
    (CopyFrom (this s) true [] [] sparse_ids).

(** ** Variables and fluxes by name and by flags *)

Definition PackVariablesAndFluxesImpl_names (var_names flx_names : list string)
    (sparse_ids : list Z)
  : M (VariableFluxPack * PackIndexMap * (list string * list string)) :=
  s ← get;
  var_list ← lift (GetVariablesByName (this s) (heap s) var_names sparse_ids);
  flux_list ← lift (GetVariablesByName (this s) (heap s) flx_names sparse_ids);
  PackListedVariablesAndFluxes var_list flux_list.

Definition PackVariablesAndFluxesImpl_flags (flags : list MetadataFlag)
    (sparse_ids : list Z)
  : M (VariableFluxPack * PackIndexMap * (list string * list string)) :=
  s ← get;
  PackListedVariablesAndFluxes
    (GetVariablesByFlag (this s) (heap s) flags true sparse_ids)
    (GetVariablesByFlag (this s) (heap s) flags true sparse_ids).

(** ** Flux correction *)

(** The calls that the two flux-correction tasks make into the boundary
    layer.  The tasks change neither the container nor the variables; they
    are functions of both that return the calls made, in order, and the
    task status. *)
Inductive FluxCall : Set :=
  | VbSendFluxCorrection (v : loc) (is_allocated : bool)
  | VbReceiveFluxCorrection (v : loc) (is_allocated : bool).

Definition SendFluxCorrection (c : MeshBlockData) (h : gmap loc CellVariable)
  : list FluxCall * TaskStatus :=
  (foldl (fun calls v =>
            if VarIsSet (h !!! v) WithFluxes && VarIsSet (h !!! v) FillGhost
            then calls ++ [VbSendFluxCorrection v (IsAllocated (h !!! v))]
            else calls)
         [] (varVector_ c),
   complete).

(** [success] and [total] are [int] counters; they count variables of one
    block and stay far below the range of [int]. *)
Definition ReceiveFluxCorrection_body (poll : loc -> bool -> bool)
    (h : gmap loc CellVariable) (acc : list FluxCall * Z * Z) (v : loc)
  : list FluxCall * Z * Z :=
  let '(calls, success, total) := acc in
  if VarIsSet (h !!! v) WithFluxes && VarIsSet (h !!! v) FillGhost then
    (calls ++ [VbReceiveFluxCorrection v (IsAllocated (h !!! v))],
     (if poll v (IsAllocated (h !!! v)) then success + 1 else success),
     total + 1)
  else acc.

Definition ReceiveFluxCorrection (poll : loc -> bool -> bool)
    (c : MeshBlockData) (h : gmap loc CellVariable)
  : list FluxCall * TaskStatus :=
  let '(calls, success, total) :=
    foldl (ReceiveFluxCorrection_body poll h) ([], 0, 0) (varVector_ c) in
  (calls, if bool_decide (success = total) then complete else incomplete).

(** ** Further vocabulary *)

(** Every pointer that the container [c] holds is live in the store [h]. *)
Definition live (h : gmap loc CellVariable) (c : MeshBlockData) : Prop :=
  (forall a, a ∈ varVector_ c ++ faceVector_ c -> a ∈ dom h)
  /\ (forall k a, varMap_ c !! k = Some a -> a ∈ dom h)
  /\ (forall k a, faceMap_ c !! k = Some a -> a ∈ dom h).

(** The registry of the state holds live pointers only, and both maps bind
    a label to a variable carrying that label. *)
Definition registry_wf (s : State) : Prop :=
  live (heap s) (this s)
  /\ varMap_wf (this s) (heap s)
  /\ (forall k a, faceMap_ (this s) !! k = Some a ->
                  label (heap s !!! a) = k).

(** A triple for the methods: from a state satisfying [P] the computation
    either returns [a] in a state satisfying [Q a], or ends in an error in
    a state satisfying [E]. *)
Definition hoare {A : Type} (P : State -> Prop) (m : M A)
    (Q : A -> State -> Prop) (E : State -> Prop) : Prop :=
  forall s, P s ->
    match m s with
    | (Ok a, s') => Q a s'
    | (_, s') => E s'
    end.

(** The cell variable that [AddField] leaves in the store for a field of
    the schema: allocated unless sparse support is enabled and the field
    is sparse. *)
Definition field_variable (G : Globals) (q : (string * Z) * Metadata)
  : CellVariable :=
  let v0 := new_CellVariable (fst (fst q)) (snd q) (snd (fst q)) in
  if negb (sparse_config_enabled G) || negb (IsSparse v0)
  then Allocate v0 else v0.

(** A placement that [AddField] treats as cell-centered. *)
Definition cell_placed (m : Metadata) : Prop :=
  Where m <> Node /\ Where m <> Edge /\ Where m <> Face.

(** A variable that takes part in flux correction. *)
Definition flux_ghost (h : gmap loc CellVariable) (v : loc) : bool :=
  VarIsSet (h !!! v) WithFluxes && VarIsSet (h !!! v) FillGhost.

(** Componentwise concatenation of two selection lists. *)
Definition VarLabelList_app (l1 l2 : VarLabelList) : VarLabelList :=
  mkVarLabelList (vars l1 ++ vars l2) (labels l1 ++ labels l2)
                 (alloc_status l1 ++ alloc_status l2).

(** The first occurrence of every identity in [l]: a variable is kept
    when no earlier variable of [l] carries its label. *)
Fixpoint first_labels (h : gmap loc CellVariable) (l : list loc)
  : list loc :=
  match l with
  | [] => []
  | a :: l' =>
      a :: List.filter
             (fun b => negb (bool_decide (label (h !!! b) = label (h !!! a))))
             (first_labels h l')
  end.

(** [Add] called for the variables of [l] in turn. *)
Definition VarLabelList_add_all (h : gmap loc CellVariable)
    (sparse_ids_set : gset Z) (acc : VarLabelList) (l : list loc)
  : VarLabelList :=
  foldl (fun acc a => VarLabelList_Add h a sparse_ids_set acc) acc l.

(** What the two assertions of the neighbor sync check of a neighbor that
    lists the variables [nvars]: as many variables as the container, with
    the same label at every position. *)
Definition neighbor_agrees (h : gmap loc CellVariable) (vs nvars : list loc)
  : Prop :=
  Forall2 (fun vi ni => label (h !!! vi) = label (h !!! ni)) vs nvars.

(** With sparse support, every neighbor of the block that lives on this
    rank agrees: the condition under which no assertion of the neighbor
    sync fails. *)
Definition neighbors_agree (G : Globals) (s : State) : Prop :=
  ENABLE_SPARSE G = true ->
  Forall (fun nb : Z * list loc =>
            fst nb = my_rank G ->
            neighbor_agrees (heap s) (varVector_ (this s)) (snd nb))
         (neighbor (pmy_block (this s))).

(** The calls of the neighbor sync for neighbor number [n], which lists
    the variables [nvars]: one for every ghost-filled variable, with the
    allocation state of the variable at the same position of [nvars]. *)
Definition sync_calls (h : gmap loc CellVariable) (vs : list loc) (n : nat)
    (nvars : list loc) : list Event :=
  flat_map (fun p : loc * loc =>
              if ghost h (fst p)
              then [VbSetLocalNeighborAllocated (fst p) n
                      (IsAllocated (h !!! snd p))]
              else [])
           (zip vs nvars).

(** All calls of the neighbor sync: nothing without sparse support,
    otherwise the calls for every neighbor on this rank, in the order of
    the neighbor list. *)
Definition all_sync_calls (G : Globals) (s : State) : list Event :=
  if ENABLE_SPARSE G then
    flat_map (fun nb : nat * (Z * list loc) =>
                if bool_decide (fst (snd nb) = my_rank G)
                then sync_calls (heap s) (varVector_ (this s)) (fst nb)
                                (snd (snd nb))
                else [])
             (zip (seq 0 (length (neighbor (pmy_block (this s)))))
                  (neighbor (pmy_block (this s))))
  else [].

End Model.

(** ** A concrete block *)

(** A block on rank 0 with sparse support switched on, holding a dense
    ghost-filled variable [A], a sparse ghost-filled variable [B] with
    sparse id 0, and a one-copy variable [C]. *)
Definition ex_globals : Globals := mkGlobals true true 0.

Definition ex_block : @MeshBlock unit := mkMeshBlock tt [].

Definition ex_pkgs : StateDescriptor :=
  mkStateDescriptor
    [ ("A", InvalidSparseID, mkMetadata Cell [FillGhost]);
      ("B", 0, mkMetadata Cell [FillGhost]);
      ("C", InvalidSparseID, mkMetadata Cell [OneCopy]) ]
    [ ("B", [(0, mkMetadata Cell [FillGhost])]) ].

Definition ex_empty : @State Z unit unit :=
  mkState (mkMeshBlockData ex_block None [] [] ∅ ∅ ∅ ∅ ∅) ∅ 0%nat [].

Definition ex_state : @State Z unit unit :=
  snd (Initialize ex_globals ex_pkgs ex_block ex_empty).

(** The ghost-filled variables of the block, as selected by flag. *)
Definition ex_list : VarLabelList :=
  GetVariablesByFlag (this ex_state) (heap ex_state) [FillGhost] true [].

(** The block after the sparse variable [B_0] (at address 1) was allocated. *)
Definition ex_allocate_B (s : @State Z unit unit) : @State Z unit unit :=
  snd (update_var 1%nat Allocate s).

(** An empty container on the same store, the destination of a copy. *)
Definition ex_dst : @State Z unit unit :=
  mkState (mkMeshBlockData ex_block None [] [] ∅ ∅ ∅ ∅ ∅) (heap ex_state)
          0%nat [].

(** The block of a second container on the same store: neighbor 0 lives
    on this rank and is the container of [ex_state], neighbor 1 lives on
    rank 1. *)
Definition ex_block_nb : @MeshBlock unit :=
  mkMeshBlock tt [(0, [0%nat; 1%nat; 2%nat]); (1, [])].

(** The second container, initialized after the neighbor allocated its
    [B_0]: its own variables are at the addresses 3, 4 and 5. *)
Definition ex_state_nb : @State Z unit unit :=
  snd (Initialize ex_globals ex_pkgs ex_block_nb (ex_allocate_B ex_state)).

(** The same with a neighbor on this rank that lists [A] only, and with
    one that lists [A], [C] and [B_0] in this order. *)
Definition ex_state_short : @State Z unit unit :=
  snd (Initialize ex_globals ex_pkgs (mkMeshBlock tt [(0, [0%nat])])
         (ex_allocate_B ex_state)).
Definition ex_state_swapped : @State Z unit unit :=
  snd (Initialize ex_globals ex_pkgs
         (mkMeshBlock tt [(0, [0%nat; 2%nat; 1%nat])])
         (ex_allocate_B ex_state)).

(** A schema with one sparse one-copy field, a source container
    initialized on it, which holds [B_0] at address 0, and a destination
    container initialized on it on the same store, which holds a [B_0] of
    its own at address 1. *)
Definition ex_onecopy_pkgs : StateDescriptor :=
  mkStateDescriptor
    [ ("B", 0, mkMetadata Cell [OneCopy]) ]
    [ ("B", [(0, mkMetadata Cell [OneCopy])]) ].
Definition ex_onecopy_src : @State Z unit unit :=
  snd (Initialize ex_globals ex_onecopy_pkgs ex_block ex_empty).
Definition ex_onecopy_dst : @State Z unit unit :=
  snd (Initialize ex_globals ex_onecopy_pkgs ex_block ex_onecopy_src).
(** An empty destination on the store of the source. *)
Definition ex_onecopy_empty : @State Z unit unit :=
  mkState (mkMeshBlockData ex_block None [] [] ∅ ∅ ∅ ∅ ∅)
          (heap ex_onecopy_src) 0%nat [].

(** A schema whose second field is node-placed. *)
Definition ex_node_pkgs : StateDescriptor :=
  mkStateDescriptor
    [ ("A", InvalidSparseID, mkMetadata Cell [FillGhost]);
      ("N", InvalidSparseID, mkMetadata Node []);
      ("C", InvalidSparseID, mkMetadata Cell [OneCopy]) ]
    [].

(** ** Properties *)

Section Properties.

Context {T Coords BoundaryCommSubset : Type}.

Implicit Types (s : @State T Coords BoundaryCommSubset).
Implicit Types (c src : @MeshBlockData Coords).
Implicit Types (h : gmap loc (@CellVariable T)).
Implicit Types (v : loc) (G : Globals) (m : Metadata).
Implicit Types (ev : @Event BoundaryCommSubset).

Ltac msimpl :=
  unfold mbind, mret, M_bind, M_ret, Result_bind, Result_ret,
    get, emit, update_this, update_var, make_shared, new_node, throw, exit,
    abort, lift, PARTHENON_REQUIRE_THROWS in *;
  cbn [fst snd this heap nodes trace] in *.

(** *** Remove *)

(** C10: for every label and every state, [Remove] ends in the runtime
    error "not yet implemented" and leaves the state as it was; a
    variable bound in the registry before the call is bound after it. *)
Theorem Remove_not_implemented (label : string) s :
  Remove label s
    = (Throw "MeshBlockData<T>::Remove not yet implemented", s)
  /\ varMap_ (this (snd (Remove label s))) = varMap_ (this s)
  /\ varVector_ (this (snd (Remove label s))) = varVector_ (this s)
  /\ faceMap_ (this (snd (Remove label s))) = faceMap_ (this s)
  /\ faceVector_ (this (snd (Remove label s))) = faceVector_ (this s).
Proof. unfold Remove. msimpl. repeat split. Qed.

(** *** AddField *)

Lemma AddField_face_eq G name m sid s :
  Where m = Face ->
  AddField G name m sid s =
    if negb (IsSet m OneCopy) then
      (Exit 1,
       mkState (this s) (heap s) (nodes s)
         (trace s ++ [Cerr "Currently one one-copy face fields are supported"]))
    else if IsSet m FillGhost then
      (Exit 1,
       mkState (this s) (heap s) (nodes s)
         (trace s ++ [Cerr "Ghost zones not yet supported for face fields"]))
    else
      let a := fresh (dom (heap s)) in
      (Ok tt,
       mkState (with_faces (faceVector_ (this s) ++ [a])
                  (<[name := a]> (faceMap_ (this s))) (this s))
               (<[a := new_FaceVariable name m]> (heap s))
               (nodes s) (trace s)).
Proof.
  intros Hw. unfold AddField. rewrite Hw.
  repeat (case_decide; [discriminate|]). case_decide; [|congruence].
  unfold AddFace. msimpl.
  destruct (IsSet m OneCopy); cbn; [|reflexivity].
  destruct (IsSet m FillGhost); cbn; [reflexivity|].
  rewrite lookup_total_insert_eq. reflexivity.
Qed.

Lemma AddField_cell_eq G name m sid s :
  Where m <> Node -> Where m <> Edge -> Where m <> Face ->
  let a := fresh (dom (heap s)) in
  let v0 := new_CellVariable name m sid in
  AddField G name m sid s =
    (Ok tt,
     mkState (with_vars (varVector_ (this s) ++ [a])
                (<[label v0 := a]> (varMap_ (this s))) (this s))
             (if negb (sparse_config_enabled G) || negb (IsSparse v0)
              then <[a := Allocate v0]> (<[a := v0]> (heap s))
              else <[a := v0]> (heap s))
             (nodes s) (trace s)).
Proof.
  intros Hn He Hf a v0. unfold AddField.
  repeat (case_decide; [congruence|]).
  unfold Add. msimpl. rewrite !lookup_total_insert_eq. fold v0. fold a.
  destruct (negb (sparse_config_enabled G) || negb (IsSparse v0)); cbn;
    [rewrite lookup_total_insert_eq|]; reflexivity.
Qed.

(** C7: adding a face-centered variable ends in a reported fatal error
    ([std::cerr] message, then [std::exit(1)], registry and store
    untouched) whenever the one-copy flag is missing or the ghost-fill flag
    is set; the face variable is added exactly when it has the one-copy
    flag and lacks the ghost-fill flag. *)
Theorem AddField_face_requirements G name m sid s :
  Where m = Face ->
  let r := AddField G name m sid s in
  (IsSet m OneCopy = false \/ IsSet m FillGhost = true ->
     fst r = Exit 1
     /\ (exists msg, trace (snd r) = trace s ++ [Cerr msg])
     /\ this (snd r) = this s /\ heap (snd r) = heap s)
  /\ (IsSet m OneCopy = true /\ IsSet m FillGhost = false ->
     fst r = Ok tt
     /\ faceVector_ (this (snd r))
        = faceVector_ (this s) ++ [fresh (dom (heap s))]
     /\ faceMap_ (this (snd r)) !! name = Some (fresh (dom (heap s)))
     /\ heap (snd r) !! fresh (dom (heap s))
        = Some (new_FaceVariable name m)
     /\ trace (snd r) = trace s)
  /\ (fst r = Ok tt -> IsSet m OneCopy = true /\ IsSet m FillGhost = false).
Proof.
  intros Hw r. subst r. rewrite (AddField_face_eq G name m sid s Hw).
  destruct (IsSet m OneCopy) eqn:Ho, (IsSet m FillGhost) eqn:Hg; cbn;
    (split; [|split]); try (intros [? | ?]; try discriminate);
    try (intros [? ?]; try discriminate); try (intros ?; try discriminate);
    repeat split; eauto; try apply lookup_insert_eq.
Qed.

(** C6: a cell-centered variable added by [AddField] has its storage
    allocated by the end of the call unless global sparse support is
    enabled and the variable is sparse; in that case it is left
    unallocated.  No other object of the store is touched. *)
Theorem AddField_cell_allocation G name m sid s :
  Where m <> Node -> Where m <> Edge -> Where m <> Face ->
  let r := AddField G name m sid s in
  let a := fresh (dom (heap s)) in
  fst r = Ok tt
  /\ varVector_ (this (snd r)) = varVector_ (this s) ++ [a]
  /\ varMap_ (this (snd r)) !! MakeVarLabel name sid = Some a
  /\ (a ∉ dom (heap s))
  /\ IsSparse (heap (snd r) !!! a) = negb (bool_decide (sid = InvalidSparseID))
  /\ IsAllocated (heap (snd r) !!! a)
     = negb (sparse_config_enabled G && IsSparse (heap (snd r) !!! a))
  /\ (forall b, b <> a -> heap (snd r) !! b = heap s !! b).
Proof.
  intros Hn He Hf r a. subst r.
  rewrite (AddField_cell_eq G name m sid s Hn He Hf). fold a.
  cbn [fst snd this heap].
  split; [reflexivity|]. split; [reflexivity|].
  split; [apply lookup_insert_eq|].
  split; [apply is_fresh|].
  set (v0 := new_CellVariable name m sid).
  assert (Hsp : IsSparse v0 = negb (bool_decide (sid = InvalidSparseID)))
    by reflexivity.
  assert (HA : IsSparse (Allocate v0) = IsSparse v0) by reflexivity.
  destruct (sparse_config_enabled G), (IsSparse v0) eqn:Hv;
    cbn [negb orb andb]; rewrite ?lookup_total_insert_eq, ?HA, ?Hv;
    (split; [congruence|]); (split; [reflexivity|]);
    intros b Hb; rewrite ?lookup_insert_ne by congruence; reflexivity.
Qed.

(** *** Selection by flags *)

Lemma string_le_lt_eq (s1 s2 : string) :
  string_le s1 s2 <-> string_lt s1 s2 \/ s1 = s2.
Proof.
  unfold string_le, string_lt.
  destruct (String_as_OT.compare_spec s1 s2) as [E | L | L].
  - split; [intros _; by right | intros _; discriminate].
  - split; [intros _; by left | intros _; discriminate].
  - split; [intros H; by destruct H|].
    intros [H | ->]; [discriminate|].
    exfalso. by apply (irreflexivity String_as_OT.lt s2).
Qed.

#[local] Instance string_le_total : Total string_le.
Proof.
  intros x y. unfold string_le.
  destruct (String_as_OT.compare_spec x y) as [E | L | L];
    [left; discriminate | left; discriminate | right].
  unfold String_as_OT.lt in L. congruence.
Qed.

#[local] Instance string_le_trans : Transitive string_le.
Proof.
  intros x y z. rewrite !string_le_lt_eq.
  intros [Hxy | ->] [Hyz | ->]; auto. left.
  eapply (transitivity (R := String_as_OT.lt)); eassumption.
Qed.

#[local] Instance key_le_total {V} : Total (@key_le V).
Proof. intros x y. apply string_le_total. Qed.

#[local] Instance key_le_trans {V} : Transitive (@key_le V).
Proof. intros x y z. apply string_le_trans. Qed.

Lemma elem_of_std_map_iter {V} (m : gmap string V) k x :
  (k, x) ∈ std_map_iter m <-> m !! k = Some x.
Proof.
  unfold std_map_iter. rewrite merge_sort_Permutation.
  apply elem_of_map_to_list.
Qed.

Lemma std_map_iter_sorted {V} (m : gmap string V) :
  StronglySorted (fun x y => string_lt (fst x) (fst y)) (std_map_iter m).
Proof.
  assert (Hs : StronglySorted key_le (std_map_iter m))
    by (apply StronglySorted_merge_sort; apply _).
  assert (Hn : NoDup (std_map_iter m).*1).
  { unfold std_map_iter. rewrite merge_sort_Permutation.
    apply NoDup_fst_map_to_list. }
  induction Hs as [|x l Hs IH Hx]; [constructor|].
  cbn in Hn. apply NoDup_cons in Hn as [Hnx Hn].
  constructor; [by apply IH|].
  apply Forall_forall. intros y Hy.
  rewrite Forall_forall in Hx. specialize (Hx y Hy).
  apply string_le_lt_eq in Hx as [Hx | Hx]; [done|].
  exfalso. apply Hnx. rewrite Hx. by apply list_elem_of_fmap_2.
Qed.

Lemma StronglySorted_filter {A} (R : relation A) (f : A -> bool) l :
  StronglySorted R l -> StronglySorted R (List.filter f l).
Proof.
  induction 1 as [|x l Hs IH Hx]; cbn; [constructor|].
  destruct (f x); [|done]. constructor; [done|].
  apply Forall_forall. intros y [Hy _]%list_elem_of_In%filter_In.
  rewrite Forall_forall in Hx. by apply Hx, list_elem_of_In.
Qed.

Lemma flags_match_spec flags match_all (x : @CellVariable T) :
  flags_match flags match_all x = true
  <-> flags_selected flags match_all (metadata x).
Proof.
  unfold flags_match, flags_selected, AllFlagsSet, AnyFlagsSet.
  rewrite !orb_true_iff, !andb_true_iff, bool_decide_eq_true,
    forallb_forall, existsb_exists, negb_true_iff.
  setoid_rewrite <- list_elem_of_In. tauto.
Qed.

Lemma VarLabelList_of_app h l1 l2 :
  VarLabelList_of h (l1 ++ l2)
  = mkVarLabelList (vars (VarLabelList_of h l1) ++ l2)
      (labels (VarLabelList_of h l1) ++ ((fun a => label (h !!! a)) <$> l2))
      (alloc_status (VarLabelList_of h l1)
       ++ ((fun a => IsAllocated (h !!! a)) <$> l2)).
Proof. unfold VarLabelList_of. cbn. by rewrite !fmap_app. Qed.

Lemma filter_filter_andb {A} (f g : A -> bool) (l : list A) :
  List.filter f (List.filter g l) = List.filter (fun x => g x && f x) l.
Proof.
  induction l as [|x l IH]; [done|]. cbn [List.filter].
  destruct (g x); cbn [List.filter andb]; [|exact IH].
  destruct (f x); by rewrite IH.
Qed.

Lemma filter_all_true {A} (f : A -> bool) (l : list A) :
  (forall x, x ∈ l -> f x = true) -> List.filter f l = l.
Proof.
  induction l as [|x l IH]; intros H; [done|]. cbn [List.filter].
  rewrite (H x) by (apply elem_of_cons; by left).
  f_equal. apply IH. intros y Hy. apply H, elem_of_cons. by right.
Qed.

Lemma elem_of_filter_list {A} (f : A -> bool) (l : list A) x :
  x ∈ List.filter f l <-> x ∈ l /\ f x = true.
Proof. by rewrite !list_elem_of_In, filter_In. Qed.

Lemma fmap_filter_snd {A B} (f : B -> bool) (l : list (A * B)) :
  List.filter f (snd <$> l) = snd <$> List.filter (fun p => f (snd p)) l.
Proof.
  induction l as [|p l IH]; [done|]. cbn [fmap list_fmap List.filter].
  destruct (f p.2); cbn [fmap list_fmap]; by rewrite IH.
Qed.

Lemma VarLabelList_app_empty_r (l : VarLabelList) :
  VarLabelList_app l VarLabelList_empty = l.
Proof. destruct l. unfold VarLabelList_app. cbn. by rewrite !app_nil_r. Qed.

Lemma VarLabelList_app_empty_l (l : VarLabelList) :
  VarLabelList_app VarLabelList_empty l = l.
Proof. by destruct l. Qed.

Lemma VarLabelList_app_assoc (l1 l2 l3 : VarLabelList) :
  VarLabelList_app (VarLabelList_app l1 l2) l3
  = VarLabelList_app l1 (VarLabelList_app l2 l3).
Proof. unfold VarLabelList_app. cbn. by rewrite !app_assoc. Qed.

(** *** The deduplicating [Add] *)

Lemma elem_of_first_labels h (l : list loc) a :
  a ∈ first_labels h l -> a ∈ l.
Proof.
  revert a. induction l as [|x l IH]; intros a; cbn [first_labels]; [done|].
  rewrite !elem_of_cons, elem_of_filter_list. intros [->|[Ha _]]; auto.
Qed.

Lemma first_labels_labels h (l : list loc) a :
  a ∈ l -> exists b, b ∈ first_labels h l /\ label (h !!! b) = label (h !!! a).
Proof.
  revert a. induction l as [|x l IH]; intros a; cbn [first_labels].
  { intros Ha. by apply elem_of_nil in Ha. }
  intros [->|Ha]%elem_of_cons.
  - exists x. split; [apply elem_of_cons; by left | done].
  - destruct (IH a Ha) as (b & Hb & Hl).
    destruct (decide (label (h !!! b) = label (h !!! x))) as [E|E].
    + exists x. split; [apply elem_of_cons; by left | congruence].
    + exists b. split; [|done]. apply elem_of_cons. right.
      apply elem_of_filter_list. split; [done|].
      by rewrite bool_decide_eq_false_2.
Qed.

(** Nothing is dropped from a list whose labels are pairwise distinct. *)
Lemma first_labels_NoDup h (l : list loc) :
  NoDup ((fun a => label (h !!! a)) <$> l) -> first_labels h l = l.
Proof.
  induction l as [|x l IH]; cbn [first_labels fmap list_fmap]; [done|].
  intros [Hx Hnd]%NoDup_cons. rewrite (IH Hnd). f_equal.
  apply filter_all_true. intros b Hb.
  rewrite negb_true_iff, bool_decide_eq_false. intros E. apply Hx.
  rewrite <- E. by apply (list_elem_of_fmap_2 (fun a => label (h !!! a))).
Qed.

(** The labels of the kept variables are pairwise distinct. *)
Lemma NoDup_first_labels h (l : list loc) :
  NoDup ((fun a => label (h !!! a)) <$> first_labels h l).
Proof.
  induction l as [|x l IH]; cbn [first_labels fmap list_fmap];
    [apply NoDup_nil_2|].
  apply NoDup_cons. split.
  - intros (b & Hl & Hb)%list_elem_of_fmap.
    apply elem_of_filter_list in Hb as [_ Hb].
    rewrite negb_true_iff, bool_decide_eq_false in Hb. by apply Hb.
  - revert IH. generalize (first_labels h l). intros l0.
    induction l0 as [|y l0 IH0]; cbn [List.filter fmap list_fmap]; [done|].
    intros [Hy Hnd]%NoDup_cons.
    destruct (negb _); [|by apply IH0]. cbn [fmap list_fmap].
    apply NoDup_cons. split; [|by apply IH0].
    intros (b & Hl & Hb)%list_elem_of_fmap.
    apply elem_of_filter_list in Hb as [Hb _].
    apply Hy. rewrite Hl.
    by apply (list_elem_of_fmap_2 (fun a => label (h !!! a))).
Qed.

Lemma first_labels_idemp h (l : list loc) :
  first_labels h (first_labels h l) = first_labels h l.
Proof. apply first_labels_NoDup, NoDup_first_labels. Qed.

Lemma first_labels_filter h (f : loc -> bool) (l : list loc) :
  (forall a b, label (h !!! a) = label (h !!! b) -> f a = f b) ->
  first_labels h (List.filter f l) = List.filter f (first_labels h l).
Proof.
  intros Hf. induction l as [|x l IH]; [done|].
  cbn [List.filter first_labels]. destruct (f x) eqn:Hx.
  - cbn [first_labels List.filter]. rewrite ?Hx, IH. f_equal.
    rewrite !filter_filter_andb. apply filter_ext. intros b. apply andb_comm.
  - rewrite IH, filter_filter_andb. apply filter_ext_in.
    intros b Hb. destruct (bool_decide _) eqn:E; cbn [negb andb]; [|done].
    apply bool_decide_eq_true in E. by rewrite (Hf b x E), Hx.
Qed.

Lemma first_labels_ext h h' (l : list loc) :
  (forall a, a ∈ l -> label (h' !!! a) = label (h !!! a)) ->
  first_labels h' l = first_labels h l.
Proof.
  induction l as [|x l IH]; intros H; cbn [first_labels]; [done|].
  rewrite IH by (intros a Ha; apply H, elem_of_cons; by right).
  f_equal. apply filter_ext_in. intros b Hb%list_elem_of_In.
  apply elem_of_first_labels in Hb.
  rewrite (H b), (H x); [done| |].
  - apply elem_of_cons. by left.
  - apply elem_of_cons. by right.
Qed.

(** The list after [Add] was called for every variable of [l]: the list
    so far, followed by the variables of [l] that pass the filter and
    whose label is new, each at its first occurrence. *)
Lemma VarLabelList_add_all_eq h (ids : gset Z) (l : list loc) :
  forall acc : VarLabelList,
    VarLabelList_add_all h ids acc l
    = VarLabelList_app acc
        (VarLabelList_of h
           (List.filter
              (fun b => negb (bool_decide (label (h !!! b) ∈ labels acc)))
              (first_labels h
                 (List.filter (fun a => passes_sparse_filter (h !!! a) ids)
                              l)))).
Proof.
  unfold VarLabelList_add_all.
  induction l as [|a l IH]; intros acc; cbn [foldl List.filter].
  - cbn. symmetry. apply VarLabelList_app_empty_r.
  - unfold VarLabelList_Add at 2.
    destruct (passes_sparse_filter (h !!! a) ids); cbn [andb]; [|apply IH].
    cbn [first_labels List.filter].
    destruct (bool_decide (label (h !!! a) ∈ labels acc)) eqn:Hin;
      cbn [negb].
    + apply bool_decide_eq_true in Hin. rewrite IH. do 2 f_equal.
      rewrite filter_filter_andb. apply filter_ext. intros b.
      destruct (bool_decide (label (h !!! b) = label (h !!! a))) eqn:E;
        cbn [negb andb]; [|done].
      apply bool_decide_eq_true in E. rewrite E.
      by rewrite bool_decide_eq_true_2.
    + apply bool_decide_eq_false in Hin. rewrite IH. cbn [labels].
      unfold VarLabelList_app, VarLabelList_of.
      cbn [vars labels alloc_status fmap list_fmap].
      rewrite <- !app_assoc. cbn [app].
      rewrite filter_filter_andb.
      rewrite (filter_ext
                 (fun b => negb (bool_decide
                                   (label (h !!! b)
                                    ∈ labels acc ++ [label (h !!! a)])))
                 (fun x =>
                    negb (bool_decide (label (h !!! x) = label (h !!! a)))
                    && negb (bool_decide (label (h !!! x) ∈ labels acc)))).
      { reflexivity. }
      intros b. rewrite <- negb_orb. f_equal.
      apply eq_true_iff_eq. rewrite orb_true_iff, !bool_decide_eq_true.
      rewrite elem_of_app, list_elem_of_singleton. tauto.
Qed.

Lemma VarLabelList_add_all_empty h (ids : gset Z) (l : list loc) :
  VarLabelList_add_all h ids VarLabelList_empty l
  = VarLabelList_of h
      (first_labels h
         (List.filter (fun a => passes_sparse_filter (h !!! a) ids) l)).
Proof.
  rewrite VarLabelList_add_all_eq, VarLabelList_app_empty_l. f_equal.
  apply filter_all_true. intros b _. cbn [labels VarLabelList_empty].
  rewrite bool_decide_eq_false_2; [done|apply not_elem_of_nil].
Qed.

Lemma VarLabelList_add_all_app h (ids : gset Z) acc (l1 l2 : list loc) :
  VarLabelList_add_all h ids acc (l1 ++ l2)
  = VarLabelList_add_all h ids (VarLabelList_add_all h ids acc l1) l2.
Proof. unfold VarLabelList_add_all. apply foldl_app. Qed.

(** *** Selection by flags, continued *)

Lemma GetVariablesByFlag_add_all c h flags match_all sparse_ids :
  GetVariablesByFlag c h flags match_all sparse_ids
  = VarLabelList_add_all h (list_to_set sparse_ids) VarLabelList_empty
      (snd <$> List.filter
                 (fun p => flags_match flags match_all (h !!! snd p))
                 (std_map_iter (varMap_ c))).
Proof.
  unfold GetVariablesByFlag, VarLabelList_add_all.
  generalize (std_map_iter (varMap_ c)) (@VarLabelList_empty).
  intros l. induction l as [|p l IH]; intros acc; cbn [foldl List.filter];
    [done|].
  destruct (flags_match flags match_all (h !!! p.2)); apply IH.
Qed.

(** Without any assumption on the registry. *)
Lemma GetVariablesByFlag_first_labels c h flags match_all sparse_ids :
  GetVariablesByFlag c h flags match_all sparse_ids
  = VarLabelList_of h
      (first_labels h
         (snd <$> List.filter
                    (keeps h flags match_all (list_to_set sparse_ids))
                    (std_map_iter (varMap_ c)))).
Proof.
  rewrite GetVariablesByFlag_add_all, VarLabelList_add_all_empty.
  rewrite fmap_filter_snd, filter_filter_andb. reflexivity.
Qed.

Lemma NoDup_filter_fmap {A B} `{EqDecision B} (g : A -> B) (f : A -> bool)
    (l : list A) :
  NoDup (g <$> l) -> NoDup (g <$> List.filter f l).
Proof.
  induction l as [|x l IH]; cbn [fmap list_fmap List.filter]; [done|].
  intros [Hx Hnd]%NoDup_cons. destruct (f x); [|by apply IH].
  cbn [fmap list_fmap]. apply NoDup_cons. split; [|by apply IH].
  intros (y & E & Hy)%list_elem_of_fmap. apply Hx. rewrite E.
  apply list_elem_of_fmap_2. by apply elem_of_filter_list in Hy as [Hy _].
Qed.

Lemma NoDup_fst_std_map_iter {V} (m : gmap string V) :
  NoDup (fst <$> std_map_iter m).
Proof.
  unfold std_map_iter. rewrite merge_sort_Permutation.
  apply NoDup_fst_map_to_list.
Qed.

Lemma GetVariablesByFlag_eq c h flags match_all sparse_ids :
  varMap_wf c h ->
  GetVariablesByFlag c h flags match_all sparse_ids
  = VarLabelList_of h
      (snd <$> List.filter (keeps h flags match_all (list_to_set sparse_ids))
                           (std_map_iter (varMap_ c))).
Proof.
  intros Hwf. rewrite GetVariablesByFlag_first_labels. f_equal.
  apply first_labels_NoDup. rewrite <- list_fmap_compose.
  rewrite (Forall_fmap_ext_1 _ fst).
  - apply NoDup_filter_fmap, NoDup_fst_std_map_iter.
  - apply Forall_forall. intros [k a] Hp. cbn. apply Hwf.
    apply elem_of_filter_list in Hp as [Hp _].
    by apply elem_of_std_map_iter.
Qed.

Lemma passes_sparse_filter_nil (x : @CellVariable T) :
  passes_sparse_filter x (list_to_set []) = true.
Proof.
  unfold passes_sparse_filter. cbn [list_to_set foldr].
  rewrite (bool_decide_eq_true_2 (∅ = ∅)) by reflexivity.
  by rewrite orb_true_r.
Qed.

Lemma VarLabelList_of_ext h h' (l : list loc) :
  (forall a, a ∈ l -> h' !!! a = h !!! a) ->
  VarLabelList_of h' l = VarLabelList_of h l.
Proof.
  intros H. unfold VarLabelList_of.
  f_equal; apply Forall_fmap_ext_1, Forall_forall; intros a Ha;
    by rewrite (H a Ha).
Qed.

Lemma elem_of_kept c h flags match_all ids a :
  a ∈ snd <$> List.filter (keeps h flags match_all ids)
                          (std_map_iter (varMap_ c))
  <-> exists k, varMap_ c !! k = Some a
        /\ flags_selected flags match_all (metadata (h !!! a))
        /\ passes_sparse_filter (h !!! a) ids = true.
Proof.
  rewrite list_elem_of_fmap. split.
  - intros ([k a'] & -> & Hin). apply list_elem_of_In, filter_In in Hin.
    destruct Hin as [Hin Hk]. apply list_elem_of_In, elem_of_std_map_iter in Hin.
    unfold keeps in Hk. apply andb_true_iff in Hk as [Hf Hp].
    exists k. by rewrite <- flags_match_spec.
  - intros (k & Hk & Hf & Hp). exists (k, a). split; [done|].
    apply list_elem_of_In, filter_In. split.
    + by apply list_elem_of_In, elem_of_std_map_iter.
    + unfold keeps. cbn. by rewrite (proj2 (flags_match_spec _ _ _) Hf), Hp.
Qed.

(** C4, as amended: [GetVariablesByFlag] walks the registry in increasing
    label order and lists a variable exactly when the flag test holds for
    it (the flag list is empty, or [match_all] and all listed flags are
    set, or not [match_all] and some listed flag is set) and the variable
    passes the sparse-id filter; with no sparse id given the flag test
    alone decides.  The labels and allocation bits are those of the listed
    variables, the labels are strictly increasing, and a call on a
    registry with the same bindings and the same variables returns the
    same list. *)
Theorem GetVariablesByFlag_selects c h flags match_all sparse_ids :
  varMap_wf c h ->
  let r := GetVariablesByFlag c h flags match_all sparse_ids in
  (forall a, a ∈ vars r <->
     exists k, varMap_ c !! k = Some a
       /\ flags_selected flags match_all (metadata (h !!! a))
       /\ passes_sparse_filter (h !!! a) (list_to_set sparse_ids) = true)
  /\ (sparse_ids = [] ->
      forall a, a ∈ vars r <->
        exists k, varMap_ c !! k = Some a
          /\ flags_selected flags match_all (metadata (h !!! a)))
  /\ labels r = (fun a => label (h !!! a)) <$> vars r
  /\ alloc_status r = (fun a => IsAllocated (h !!! a)) <$> vars r
  /\ StronglySorted string_lt (labels r)
  /\ (forall c' h',
        varMap_ c' = varMap_ c ->
        (forall k a, varMap_ c !! k = Some a -> h' !!! a = h !!! a) ->
        GetVariablesByFlag c' h' flags match_all sparse_ids = r).
Proof.
  intros Hwf r. subst r. rewrite (GetVariablesByFlag_eq c h _ _ _ Hwf).
  cbn [VarLabelList_of vars labels alloc_status].
  split; [intros a; apply elem_of_kept|]. split.
  { intros -> a. rewrite elem_of_kept. split.
    - intros (k & ? & ? & _). by exists k.
    - intros (k & ? & ?). exists k. split; [done|]. split; [done|].
      apply passes_sparse_filter_nil. }
  split; [done|]. split; [done|]. split.
  { rewrite <- list_fmap_compose.
    set (l := List.filter _ _).
    assert (Hl : forall p, p ∈ l -> p ∈ std_map_iter (varMap_ c)).
    { intros p Hp. apply list_elem_of_In, filter_In in Hp as [Hp _].
      by apply list_elem_of_In. }
    rewrite (Forall_fmap_ext_1 _ fst).
    - apply (StronglySorted_fmap _ (fun x y => string_lt (fst x) (fst y)));
        [done|]. apply StronglySorted_filter, std_map_iter_sorted.
    - apply Forall_forall. intros [k a] Hp. cbn.
      apply Hwf. by apply elem_of_std_map_iter, Hl. }
  intros c' h' Hc Hh.
  assert (Hwf' : varMap_wf c' h').
  { intros k a Hk. rewrite Hc in Hk. rewrite (Hh k a Hk). by apply Hwf. }
  rewrite (GetVariablesByFlag_eq c' h' _ _ _ Hwf'), Hc.
  assert (Hin : forall p, In p (std_map_iter (varMap_ c)) ->
                          h' !!! p.2 = h !!! p.2).
  { intros [k a] Hp. apply (Hh k).
    by apply elem_of_std_map_iter, list_elem_of_In. }
  rewrite (filter_ext_in (keeps h' flags match_all (list_to_set sparse_ids))
             (keeps h flags match_all (list_to_set sparse_ids))).
  - apply VarLabelList_of_ext. intros a ([k a'] & -> & Hp)%list_elem_of_fmap.
    apply Hin. apply list_elem_of_In in Hp. by apply filter_In in Hp as [Hp _].
  - intros p Hp. unfold keeps. by rewrite (Hin p Hp).
Qed.

(** *** The pack cache *)

Lemma packmap_of_with (b1 b2 : bool)
    (pm : gmap (list string) PackIndxPair) c :
  packmap_of b1 (with_packmap b2 pm c)
  = if bool_decide (b1 = b2) then pm else packmap_of b1 c.
Proof. by destruct b1, b2. Qed.

Lemma with_packmap_twice (coarse : bool) (pm1 pm2 : gmap (list string) PackIndxPair) c :
  with_packmap coarse pm2 (with_packmap coarse pm1 c)
  = with_packmap coarse pm2 c.
Proof. by destruct coarse. Qed.

Lemma pmy_block_with_packmap (coarse : bool) (pm : gmap (list string) PackIndxPair) c :
  pmy_block (with_packmap coarse pm c) = pmy_block c.
Proof. by destruct coarse. Qed.

Lemma PackListedVariables_hit var_list (coarse : bool) s e :
  packmap_of coarse (this s) !! labels var_list = Some e ->
  pip_alloc_status e = alloc_status var_list ->
  PackListedVariables var_list coarse s
  = (Ok (pip_pack e, pip_map e, labels var_list), s).
Proof.
  intros He Hfp. unfold PackListedVariables. msimpl. rewrite He.
  rewrite bool_decide_eq_false_2 by (intros H; by apply H).
  cbn. by rewrite (lookup_total_correct _ _ _ He).
Qed.

Lemma PackListedVariables_build var_list (coarse : bool) s :
  (packmap_of coarse (this s) !! labels var_list = None
   \/ exists e, packmap_of coarse (this s) !! labels var_list = Some e
                /\ pip_alloc_status e <> alloc_status var_list) ->
  PackListedVariables var_list coarse s
  = (Ok (pip_pack (fresh_item var_list coarse s),
         pip_map (fresh_item var_list coarse s), labels var_list),
     built var_list coarse s).
Proof.
  intros H. unfold PackListedVariables, built, fresh_item. msimpl.
  destruct H as [Hn | (e & He & Hfp)].
  - rewrite Hn. cbn. unfold std_map_insert. rewrite Hn.
    rewrite alter_insert_eq, packmap_of_with, bool_decide_eq_true_2 by done.
    by rewrite lookup_total_insert_eq.
  - rewrite He. rewrite bool_decide_eq_true_2 by (intros H; by apply Hfp).
    cbn. rewrite !pmy_block_with_packmap, !with_packmap_twice.
    rewrite !packmap_of_with, !bool_decide_eq_true_2 by done.
    unfold std_map_insert. rewrite lookup_delete_eq.
    rewrite alter_insert_eq, insert_delete_eq.
    rewrite lookup_total_insert_eq. reflexivity.
Qed.

Lemma PackListedVariables_cases var_list (coarse : bool) s :
  (exists e, packmap_of coarse (this s) !! labels var_list = Some e
             /\ pip_alloc_status e = alloc_status var_list)
  \/ (packmap_of coarse (this s) !! labels var_list = None
      \/ exists e, packmap_of coarse (this s) !! labels var_list = Some e
                   /\ pip_alloc_status e <> alloc_status var_list).
Proof.
  destruct (packmap_of coarse (this s) !! labels var_list) as [e|] eqn:He;
    [|by right; left].
  destruct (decide (pip_alloc_status e = alloc_status var_list)).
  - left. by exists e.
  - right. right. by exists e.
Qed.

Lemma lookup_built var_list (coarse : bool) s (b : bool) k e :
  packmap_of b (this (built var_list coarse s)) !! k = Some e ->
  (b = coarse /\ k = labels var_list /\ e = fresh_item var_list coarse s)
  \/ (packmap_of b (this s) !! k = Some e
      /\ (b <> coarse \/ k <> labels var_list)).
Proof.
  unfold built. cbn [this]. rewrite packmap_of_with.
  case_bool_decide as Hb; [subst b|by right; auto].
  rewrite lookup_insert. case_decide as Hk.
  - intros [= <-]. left. auto.
  - right. auto.
Qed.

Lemma pointer_fresh_item var_list (coarse : bool) s :
  pack_alloc_status_ (pip_pack (fresh_item var_list coarse s))
  = Some (nodes s).
Proof. reflexivity. Qed.

Lemma cache_wf_built var_list (coarse : bool) s :
  cache_wf s -> cache_wf (built var_list coarse s).
Proof.
  intros [Hlt Hinj].
  assert (Hold : forall (b : bool) k e,
            packmap_of b (this s) !! k = Some e ->
            pack_alloc_status_ (pip_pack e) <> Some (nodes s)).
  { intros b k e He. destruct (Hlt _ _ _ He) as (n & Hn & Hl).
    rewrite Hn. intros [= ->]. lia. }
  split.
  - intros b k e [(-> & -> & ->) | [He _]]%lookup_built.
    + exists (nodes s). split; [reflexivity | cbn; lia].
    + destruct (Hlt _ _ _ He) as (n & Hn & Hl).
      exists n. split; [done | cbn; lia].
  - intros b1 k1 e1 b2 k2 e2
      [(-> & -> & ->) | [He1 _]]%lookup_built
      [(-> & -> & ->) | [He2 _]]%lookup_built Hp.
    + done.
    + exfalso. apply (Hold _ _ _ He2). by rewrite <- Hp.
    + exfalso. apply (Hold _ _ _ He1). by rewrite Hp.
    + by eapply Hinj.
Qed.

Lemma stale_gone var_list (coarse : bool) s e :
  cache_wf s ->
  packmap_of coarse (this s) !! labels var_list = Some e ->
  forall (b : bool) k e',
    packmap_of b (this (built var_list coarse s)) !! k = Some e' ->
    pip_pack e' <> pip_pack e.
Proof.
  intros [Hlt Hinj] He b k e' [(-> & -> & ->) | [He' Hne]]%lookup_built Hp.
  - destruct (Hlt _ _ _ He) as (n & Hn & Hl).
    rewrite <- Hp, pointer_fresh_item in Hn. injection Hn as <-. lia.
  - destruct (Hinj b k e' coarse (labels var_list) e He' He) as [-> ->];
      [by rewrite Hp|]. by destruct Hne.
Qed.

Lemma cache_wf_empty s :
  varPackMap_ (this s) = ∅ -> coarseVarPackMap_ (this s) = ∅ -> cache_wf s.
Proof.
  intros H1 H2.
  assert (H : forall (b : bool) k, packmap_of b (this s) !! k = None).
  { intros [] k; cbn; rewrite ?H1, ?H2; apply lookup_empty. }
  split.
  - intros b k e. by rewrite H.
  - intros b1 k1 e1 b2 k2 e2. by rewrite H.
Qed.

Lemma PackListedVariables_two_calls var_list (coarse : bool) s :
  cache_wf s ->
  let key := labels var_list in
  let r := PackListedVariables var_list coarse s in
  let s1 := snd r in
  (forall e, packmap_of coarse (this s) !! key = Some e ->
             pip_alloc_status e = alloc_status var_list ->
             r = (Ok (pip_pack e, pip_map e, key), s))
  /\ (packmap_of coarse (this s) !! key = None
      \/ (exists e, packmap_of coarse (this s) !! key = Some e
                    /\ pip_alloc_status e <> alloc_status var_list) ->
      r = (Ok (pip_pack (fresh_item var_list coarse s),
               pip_map (fresh_item var_list coarse s), key),
           built var_list coarse s)
      /\ pack_alloc_status_ (pip_pack (fresh_item var_list coarse s))
         = Some (nodes s)
      /\ forall e (b : bool) k e',
           packmap_of coarse (this s) !! key = Some e ->
           packmap_of b (this s1) !! k = Some e' ->
           pip_pack e' <> pip_pack e)
  /\ (exists e1,
        fst r = Ok (pip_pack e1, pip_map e1, key)
        /\ packmap_of coarse (this s1) !! key = Some e1
        /\ pip_alloc_status e1 = alloc_status var_list)
  /\ cache_wf s1
  /\ (forall var_list2 h tr,
        labels var_list2 = key ->
        alloc_status var_list2 = alloc_status var_list ->
        PackListedVariables var_list2 coarse (with_heap h tr s1)
        = (fst r, with_heap h tr s1))
  /\ (forall var_list2 h tr,
        labels var_list2 = key ->
        alloc_status var_list2 <> alloc_status var_list ->
        let r2 := PackListedVariables var_list2 coarse (with_heap h tr s1) in
        exists p1 im1 e2,
          fst r = Ok (p1, im1, key)
          /\ fst r2 = Ok (pip_pack e2, pip_map e2, key)
          /\ packmap_of coarse (this (snd r2)) !! key = Some e2
          /\ pip_alloc_status e2 = alloc_status var_list2
          /\ pack_alloc_status_ (pip_pack e2) = Some (nodes s1)
          /\ pip_pack e2 <> p1
          /\ forall (b : bool) k e',
               packmap_of b (this (snd r2)) !! k = Some e' ->
               pip_pack e' <> p1).
Proof.
  intros Hwf key r s1.
  assert (Hhit : forall e, packmap_of coarse (this s) !! key = Some e ->
             pip_alloc_status e = alloc_status var_list ->
             r = (Ok (pip_pack e, pip_map e, key), s)).
  { intros e He Hfp. by apply PackListedVariables_hit. }
  assert (Hbuild : packmap_of coarse (this s) !! key = None
      \/ (exists e, packmap_of coarse (this s) !! key = Some e
                    /\ pip_alloc_status e <> alloc_status var_list) ->
      r = (Ok (pip_pack (fresh_item var_list coarse s),
               pip_map (fresh_item var_list coarse s), key),
           built var_list coarse s)).
  { intros H. by apply PackListedVariables_build. }
  assert (Hentry : exists e1,
        fst r = Ok (pip_pack e1, pip_map e1, key)
        /\ packmap_of coarse (this s1) !! key = Some e1
        /\ pip_alloc_status e1 = alloc_status var_list).
  { destruct (PackListedVariables_cases var_list coarse s)
      as [(e & He & Hfp) | H].
    - exists e. subst s1. by rewrite (Hhit e He Hfp).
    - exists (fresh_item var_list coarse s). subst s1. rewrite (Hbuild H).
      cbn [fst snd built this]. split; [done|]. split; [|done].
      rewrite packmap_of_with, bool_decide_eq_true_2 by done.
      apply lookup_insert_eq. }
  assert (Hwf1 : cache_wf s1).
  { destruct (PackListedVariables_cases var_list coarse s)
      as [(e & He & Hfp) | H]; subst s1.
    - by rewrite (Hhit e He Hfp).
    - rewrite (Hbuild H). by apply cache_wf_built. }
  split; [exact Hhit|]. split.
  { intros H. split; [by apply Hbuild|]. split; [reflexivity|].
    intros e b k e' He. subst s1. rewrite (Hbuild H). cbn [snd].
    by apply stale_gone. }
  split; [exact Hentry|]. split; [exact Hwf1|].
  destruct Hentry as (e1 & Er & He1 & Hfp1). split.
  - intros var_list2 h tr Hk Hfp. rewrite Er.
    rewrite (PackListedVariables_hit var_list2 coarse (with_heap h tr s1) e1).
    + by rewrite Hk.
    + by rewrite Hk.
    + by rewrite Hfp.
  - intros var_list2 h tr Hk Hfp r2.
    set (s1' := with_heap h tr s1) in *.
    assert (He1' : packmap_of coarse (this s1') !! labels var_list2 = Some e1)
      by (by rewrite Hk).
    assert (E2 : r2 = (Ok (pip_pack (fresh_item var_list2 coarse s1'),
                           pip_map (fresh_item var_list2 coarse s1'),
                           labels var_list2),
                       built var_list2 coarse s1')).
    { subst r2. apply PackListedVariables_build.
      right. exists e1. split; [done|]. by rewrite Hfp1. }
    assert (Hgone : forall (b : bool) k e',
               packmap_of b (this (snd r2)) !! k = Some e' ->
               pip_pack e' <> pip_pack e1).
    { rewrite E2. cbn [snd].
      by apply (stale_gone var_list2 coarse s1' e1). }
    assert (He2 : packmap_of coarse (this (snd r2)) !! key
                  = Some (fresh_item var_list2 coarse s1')).
    { rewrite E2. cbn [snd built this].
      rewrite packmap_of_with, bool_decide_eq_true_2 by done.
      rewrite Hk. apply lookup_insert_eq. }
    exists (pip_pack e1), (pip_map e1), (fresh_item var_list2 coarse s1').
    split; [done|]. split; [by rewrite E2, Hk|]. split; [done|].
    split; [done|]. split; [done|]. split; [by eapply Hgone|done].
Qed.

Lemma varMap_PackListedVariables var_list (coarse : bool) s :
  varMap_ (this (snd (PackListedVariables var_list coarse s)))
  = varMap_ (this s).
Proof.
  destruct (PackListedVariables_cases var_list coarse s)
    as [(e & He & Hfp) | H].
  - by rewrite (PackListedVariables_hit _ _ _ _ He Hfp).
  - rewrite (PackListedVariables_build _ _ _ H). cbn. by destruct coarse.
Qed.

Lemma keeps_same_identity h h' flags match_all ids p :
  same_identity h h' ->
  keeps h' flags match_all ids p = keeps h flags match_all ids p.
Proof.
  intros Hid. destruct (Hid p.2) as (_ & Hm & Hs).
  unfold keeps, flags_match, passes_sparse_filter, IsSparse, GetSparseID.
  by rewrite Hm, Hs.
Qed.

Lemma GetVariablesByFlag_same_identity c c' h h' flags match_all ids :
  varMap_ c' = varMap_ c -> same_identity h h' ->
  vars (GetVariablesByFlag c' h' flags match_all ids)
  = vars (GetVariablesByFlag c h flags match_all ids)
  /\ labels (GetVariablesByFlag c' h' flags match_all ids)
     = labels (GetVariablesByFlag c h flags match_all ids).
Proof.
  intros Hc Hid. rewrite !GetVariablesByFlag_first_labels, Hc.
  cbn [VarLabelList_of vars labels].
  assert (Hl : forall a, label (h' !!! a) = label (h !!! a)).
  { intros a. destruct (Hid a) as (Hb & _ & Hs). unfold label.
    by rewrite Hb, Hs. }
  rewrite (filter_ext (keeps h' flags match_all (list_to_set ids))
                      (keeps h flags match_all (list_to_set ids)))
    by (intros p; by apply keeps_same_identity).
  rewrite (first_labels_ext h h') by (intros a _; apply Hl).
  split; [done|]. apply Forall_fmap_ext_1, Forall_forall. intros a _.
  apply Hl.
Qed.

Lemma alloc_status_GetVariablesByFlag c h flags match_all ids :
  alloc_status (GetVariablesByFlag c h flags match_all ids)
  = (fun a => IsAllocated (h !!! a))
      <$> vars (GetVariablesByFlag c h flags match_all ids).
Proof. by rewrite GetVariablesByFlag_first_labels. Qed.

(** C1: a retrieval returns the cached pack, and changes nothing, when the
    cache of the requested resolution holds an entry under the key whose
    stored fingerprint equals the live one.  When there is no entry, or
    the stored fingerprint differs, the stale entry is dropped, a fresh
    pack is built and stored under the key in that cache, and the fresh
    pack is returned; no entry of either cache holds the stale pack any
    more.  Hence a second retrieval with the same key and an unchanged
    fingerprint returns the identical pack and leaves the state alone,
    whatever happened to the store in between; and a second retrieval
    whose fingerprint changed returns a pack in a newly allocated node,
    different from the first, which the cache no longer holds.  For a
    retrieval by flags the two cases are told apart by the variables
    themselves: the second retrieval returns the identical pack when every
    listed variable has the allocation state it had, and a new pack as
    soon as one listed variable changed its allocation state. *)
Theorem PackListedVariables_cache var_list (coarse : bool) s :
  cache_wf s ->
  let key := labels var_list in
  let r := PackListedVariables var_list coarse s in
  let s1 := snd r in
  (forall e, packmap_of coarse (this s) !! key = Some e ->
             pip_alloc_status e = alloc_status var_list ->
             r = (Ok (pip_pack e, pip_map e, key), s))
  /\ (packmap_of coarse (this s) !! key = None
      \/ (exists e, packmap_of coarse (this s) !! key = Some e
                    /\ pip_alloc_status e <> alloc_status var_list) ->
      r = (Ok (pip_pack (fresh_item var_list coarse s),
               pip_map (fresh_item var_list coarse s), key),
           built var_list coarse s)
      /\ pack_alloc_status_ (pip_pack (fresh_item var_list coarse s))
         = Some (nodes s)
      /\ forall e (b : bool) k e',
           packmap_of coarse (this s) !! key = Some e ->
           packmap_of b (this s1) !! k = Some e' ->
           pip_pack e' <> pip_pack e)
  /\ (exists e1,
        fst r = Ok (pip_pack e1, pip_map e1, key)
        /\ packmap_of coarse (this s1) !! key = Some e1
        /\ pip_alloc_status e1 = alloc_status var_list)
  /\ cache_wf s1
  /\ (forall var_list2 h tr,
        labels var_list2 = key ->
        alloc_status var_list2 = alloc_status var_list ->
        PackListedVariables var_list2 coarse (with_heap h tr s1)
        = (fst r, with_heap h tr s1))
  /\ (forall var_list2 h tr,
        labels var_list2 = key ->
        alloc_status var_list2 <> alloc_status var_list ->
        let r2 := PackListedVariables var_list2 coarse (with_heap h tr s1) in
        exists p1 im1 e2,
          fst r = Ok (p1, im1, key)
          /\ fst r2 = Ok (pip_pack e2, pip_map e2, key)
          /\ packmap_of coarse (this (snd r2)) !! key = Some e2
          /\ pip_alloc_status e2 = alloc_status var_list2
          /\ pack_alloc_status_ (pip_pack e2) = Some (nodes s1)
          /\ pip_pack e2 <> p1
          /\ forall (b : bool) k e',
               packmap_of b (this (snd r2)) !! k = Some e' ->
               pip_pack e' <> p1)
  /\ (forall flags sparse_ids h' tr,
        var_list = GetVariablesByFlag (this s) (heap s) flags true sparse_ids ->
        same_identity (heap s) h' ->
        let r2 := PackVariablesImpl_flags flags sparse_ids coarse
                    (with_heap h' tr s1) in
        ((forall a, a ∈ vars var_list ->
                    IsAllocated (h' !!! a) = IsAllocated (heap s !!! a)) ->
         r2 = (fst r, with_heap h' tr s1))
        /\ ((exists a, a ∈ vars var_list
                       /\ IsAllocated (h' !!! a)
                          <> IsAllocated (heap s !!! a)) ->
            exists p1 im1 p2 im2,
              fst r = Ok (p1, im1, key) /\ fst r2 = Ok (p2, im2, key)
              /\ p2 <> p1
              /\ forall (b : bool) k e',
                   packmap_of b (this (snd r2)) !! k = Some e' ->
                   pip_pack e' <> p1)).
Proof.
  intros Hwf key r s1.
  destruct (PackListedVariables_two_calls var_list coarse s Hwf)
    as (H1 & H2 & H3 & H4 & H5 & H6).
  do 6 (split; [assumption|]).
  intros flags sparse_ids h' tr Hvl Hid r2.
  set (vl2 := GetVariablesByFlag (this s1) h' flags true sparse_ids).
  assert (Er2 : r2 = PackListedVariables vl2 coarse (with_heap h' tr s1))
    by reflexivity.
  destruct (GetVariablesByFlag_same_identity (this s) (this s1) (heap s) h'
              flags true sparse_ids) as [Hv Hl]; [|done|].
  { apply varMap_PackListedVariables. }
  fold vl2 in Hv, Hl. rewrite <- Hvl in Hv, Hl.
  assert (Ha : alloc_status vl2
               = (fun a => IsAllocated (h' !!! a)) <$> vars var_list).
  { unfold vl2. rewrite alloc_status_GetVariablesByFlag. fold vl2.
    by rewrite Hv. }
  assert (Ha1 : alloc_status var_list
                = (fun a => IsAllocated (heap s !!! a)) <$> vars var_list).
  { rewrite Hvl at 1. rewrite alloc_status_GetVariablesByFlag.
    by rewrite <- Hvl. }
  split.
  - intros Hsame. rewrite Er2. apply H5; [done|].
    rewrite Ha, Ha1. apply Forall_fmap_ext_1, Forall_forall. exact Hsame.
  - intros (a & Hin & Hne).
    destruct (H6 vl2 h' tr Hl) as (p1 & im1 & e2 & E1 & E2 & _ & _ & _ & Hp & Hg).
    { rewrite Ha, Ha1. intros Heq. apply Hne.
      apply Forall_fmap_ext in Heq. rewrite Forall_forall in Heq.
      by apply Heq. }
    exists p1, im1, (pip_pack e2), (pip_map e2).
    rewrite Er2. repeat split; done.
Qed.

(** *** The combined variables-and-fluxes cache *)

Lemma PackListedVariablesAndFluxes_hit var_list flux_list s e :
  varFluxPackMap_ (this s) !! (labels var_list, labels flux_list) = Some e ->
  fpip_alloc_status e = alloc_status var_list ->
  fpip_flux_alloc_status e = alloc_status flux_list ->
  PackListedVariablesAndFluxes var_list flux_list s
  = (Ok (fpip_pack e, fpip_map e, (labels var_list, labels flux_list)), s).
Proof.
  intros He Hv Hf. unfold PackListedVariablesAndFluxes. msimpl. rewrite He.
  rewrite !bool_decide_eq_false_2 by (intros H; by apply H).
  cbn. by rewrite (lookup_total_correct _ _ _ He).
Qed.

Lemma PackListedVariablesAndFluxes_build var_list flux_list s :
  (varFluxPackMap_ (this s) !! (labels var_list, labels flux_list) = None
   \/ exists e,
        varFluxPackMap_ (this s) !! (labels var_list, labels flux_list)
        = Some e
        /\ (fpip_alloc_status e <> alloc_status var_list
            \/ fpip_flux_alloc_status e <> alloc_status flux_list)) ->
  PackListedVariablesAndFluxes var_list flux_list s
  = (Ok (fpip_pack (fresh_flux_item var_list flux_list s),
         fpip_map (fresh_flux_item var_list flux_list s),
         (labels var_list, labels flux_list)),
     flux_built var_list flux_list s).
Proof.
  intros H.
  unfold PackListedVariablesAndFluxes, flux_built, fresh_flux_item. msimpl.
  destruct H as [Hn | (e & He & Hfp)].
  - rewrite Hn. cbn. unfold std_map_insert. rewrite Hn.
    rewrite alter_insert_eq, lookup_total_insert_eq. reflexivity.
  - rewrite He.
    assert (Hb : bool_decide (alloc_status var_list <> fpip_alloc_status e)
                 || bool_decide (alloc_status flux_list
                                 <> fpip_flux_alloc_status e) = true).
    { apply orb_true_iff. rewrite !bool_decide_eq_true.
      destruct Hfp as [Hfp | Hfp]; [left | right]; intros H; by apply Hfp. }
    rewrite Hb. cbn. unfold std_map_insert. rewrite lookup_delete_eq.
    rewrite alter_insert_eq, insert_delete_eq, lookup_total_insert_eq.
    reflexivity.
Qed.

(** C3: the combined cache is keyed by the pair of label lists.  When an
    entry exists under the pair, the call rebuilds (drops the entry,
    allocates a node, stores and returns a fresh pack) exactly when the
    stored variable fingerprint differs from the live one or the stored
    flux fingerprint differs from the live one; when both match it returns
    the cached pack and changes nothing.  With no entry it builds.  Entries
    under other pairs are never touched. *)
Theorem PackListedVariablesAndFluxes_cache var_list flux_list s :
  let keys := (labels var_list, labels flux_list) in
  let r := PackListedVariablesAndFluxes var_list flux_list s in
  let rebuilt :=
    r = (Ok (fpip_pack (fresh_flux_item var_list flux_list s),
             fpip_map (fresh_flux_item var_list flux_list s), keys),
         flux_built var_list flux_list s) in
  (forall e,
     varFluxPackMap_ (this s) !! keys = Some e ->
     (rebuilt <-> fpip_alloc_status e <> alloc_status var_list
                  \/ fpip_flux_alloc_status e <> alloc_status flux_list)
     /\ (r = (Ok (fpip_pack e, fpip_map e, keys), s)
         <-> fpip_alloc_status e = alloc_status var_list
             /\ fpip_flux_alloc_status e = alloc_status flux_list))
  /\ (varFluxPackMap_ (this s) !! keys = None -> rebuilt)
  /\ (rebuilt ->
      varFluxPackMap_ (this (snd r)) !! keys
      = Some (fresh_flux_item var_list flux_list s)
      /\ fpip_alloc_status (fresh_flux_item var_list flux_list s)
         = alloc_status var_list
      /\ fpip_flux_alloc_status (fresh_flux_item var_list flux_list s)
         = alloc_status flux_list
      /\ nodes (snd r) = S (nodes s))
  /\ (forall k, k <> keys ->
        varFluxPackMap_ (this (snd r)) !! k = varFluxPackMap_ (this s) !! k).
Proof.
  intros keys r rebuilt.
  assert (Hcases :
    (exists e, varFluxPackMap_ (this s) !! keys = Some e
               /\ fpip_alloc_status e = alloc_status var_list
               /\ fpip_flux_alloc_status e = alloc_status flux_list
               /\ r = (Ok (fpip_pack e, fpip_map e, keys), s))
    \/ ((varFluxPackMap_ (this s) !! keys = None
         \/ exists e, varFluxPackMap_ (this s) !! keys = Some e
              /\ (fpip_alloc_status e <> alloc_status var_list
                  \/ fpip_flux_alloc_status e <> alloc_status flux_list))
        /\ rebuilt)).
  { destruct (varFluxPackMap_ (this s) !! keys) as [e|] eqn:He.
    - destruct (decide (fpip_alloc_status e = alloc_status var_list)) as [Hv|Hv];
      [destruct (decide (fpip_flux_alloc_status e = alloc_status flux_list))
         as [Hf|Hf]|].
      + left. exists e. repeat split; try done.
        by apply PackListedVariablesAndFluxes_hit.
      + right. split; [right; exists e; auto|].
        apply PackListedVariablesAndFluxes_build. right. exists e. auto.
      + right. split; [right; exists e; auto|].
        apply PackListedVariablesAndFluxes_build. right. exists e. auto.
    - right. split; [by left|].
      apply PackListedVariablesAndFluxes_build. by left. }
  assert (Hnodes : rebuilt -> nodes (snd r) = S (nodes s)).
  { intros H. unfold rebuilt in H. by rewrite H. }
  split.
  { intros e He. destruct Hcases as [(e' & He' & Hv & Hf & Er) | [Hm Hb]].
    - rewrite He in He'. injection He' as <-. split.
      + split; [|intros [? | ?]; done].
        intros Hb%Hnodes. rewrite Er in Hb. cbn in Hb. lia.
      + by split.
    - destruct Hm as [Hn | (e' & He' & Hm)]; [congruence|].
      rewrite He in He'. injection He' as <-. split; [by split|].
      split; [|by intros [? ?]; destruct Hm].
      intros Er. apply Hnodes in Hb. rewrite Er in Hb. cbn in Hb. lia. }
  split.
  { intros Hn. destruct Hcases as [(e' & He' & _) | [_ Hb]]; [congruence|done]. }
  split.
  { intros Hb. split; [|by repeat split; try apply Hnodes].
    rewrite Hb. cbn. apply lookup_insert_eq. }
  intros k Hk. destruct Hcases as [(e' & _ & _ & _ & Er) | [_ Hb]].
  - by rewrite Er.
  - rewrite Hb. cbn. by rewrite lookup_insert_ne.
Qed.

(** *** Selection by name *)

Lemma fold_each_app {A B} (l1 l2 : list A) (acc : B)
    (body : B -> A -> Result B) :
  fold_each (l1 ++ l2) acc body
  = acc' ← fold_each l1 acc body; fold_each l2 acc' body.
Proof.
  revert acc. induction l1 as [|x l1 IH]; intros acc; cbn; [done|].
  unfold mbind, Result_bind. destruct (body acc x); [apply IH|done..].
Qed.

(** A name that is neither bound in the registry nor a sparse base name is
    skipped without any report: the selection is the one obtained without
    that name. *)
Lemma GetVariablesByName_skips_unresolved c h names1 name names2 sparse_ids :
  varMap_ c !! name = None ->
  (forall pkgs, resolved_packages_ c = Some pkgs ->
                SparseBaseNamePresent pkgs name = false) ->
  GetVariablesByName c h (names1 ++ name :: names2) sparse_ids
  = GetVariablesByName c h (names1 ++ names2) sparse_ids.
Proof.
  intros Hn Hp. unfold GetVariablesByName. rewrite !fold_each_app.
  unfold mbind, Result_bind. destruct (fold_each names1 _ _); [|done..].
  cbn [fold_each]. rewrite Hn.
  destruct (resolved_packages_ c) as [pkgs|]; [|done].
  by rewrite (Hp pkgs eq_refl).
Qed.

(** *** CopyFrom *)

Lemma Add_kind_eq (k : VarKind) (var : loc) s :
  exists c',
    Add_kind k var s = (Ok tt, mkState c' (heap s) (nodes s) (trace s))
    /\ kindVector k c' = kindVector k (this s) ++ [var]
    /\ (forall k', k' <> k -> kindVector k' c' = kindVector k' (this s)).
Proof.
  destruct k; cbn [Add_kind]; unfold Add, AddFace; msimpl;
    eexists; (split; [reflexivity|]); (split; [reflexivity|]);
    intros []; intros; done.
Qed.

Lemma add_var_eq (shallow_copy : bool) flags sparse_ids (k : VarKind)
    (var : loc) s :
  add_var shallow_copy flags sparse_ids k var s
  = if negb (copy_selects flags sparse_ids (heap s !!! var)) then (Ok tt, s)
    else if shallow_copy || VarIsSet (heap s !!! var) OneCopy
    then Add_kind k var s
    else (c ← AllocateCopy var; Add_kind k c) s.
Proof.
  unfold add_var, copy_selects. msimpl.
  generalize (bool_decide (flags = []))
    (AnyFlagsSet (metadata (heap s !!! var)) flags)
    (bool_decide (sparse_ids = [])) (IsSparse (heap s !!! var))
    (bool_decide (GetSparseID (heap s !!! var)
                  ∈ (list_to_set sparse_ids : gset Z))).
  intros [] [] [] [] []; cbn; try reflexivity;
    destruct (shallow_copy || _); reflexivity.
Qed.

Lemma lookup_total_subseteq h h' (a : loc) :
  h ⊆ h' -> a ∈ dom h -> h' !!! a = h !!! a.
Proof.
  intros Hsub [x Hx]%elem_of_dom.
  rewrite (lookup_total_correct _ _ _ Hx).
  apply lookup_total_correct. by eapply lookup_weaken.
Qed.

Lemma add_var_step (shallow_copy : bool) flags sparse_ids (k : VarKind)
    (var : loc) s :
  var ∈ dom (heap s) ->
  exists s' new,
    add_var shallow_copy flags sparse_ids k var s = (Ok tt, s')
    /\ heap s ⊆ heap s'
    /\ kindVector k (this s') = kindVector k (this s) ++ new
    /\ (forall k', k' <> k -> kindVector k' (this s') = kindVector k' (this s))
    /\ Forall2 (copied shallow_copy (heap s) (heap s'))
         (List.filter (fun a => copy_selects flags sparse_ids (heap s !!! a))
                      [var])
         new.
Proof.
  intros Hvalid. rewrite add_var_eq. cbn [List.filter].
  destruct (copy_selects _ _ _) eqn:Hsel; cbn [negb].
  - destruct (shallow_copy || VarIsSet (heap s !!! var) OneCopy) eqn:Hsh.
    + destruct (Add_kind_eq k var s) as (c' & E & Hv & Ho).
      eexists _, [var]. rewrite E. cbn [this heap].
      do 4 (split; [done|]). constructor; [|constructor].
      unfold copied. by rewrite Hsh.
    + unfold AllocateCopy. msimpl.
      set (a := fresh (dom (heap s))).
      set (h1 := <[a := heap s !!! var]> (heap s)).
      destruct (Add_kind_eq k a (mkState (this s) h1 (nodes s) (trace s)))
        as (c' & E & Hv & Ho).
      assert (Hfresh : heap s !! a = None).
      { apply not_elem_of_dom. apply is_fresh. }
      eexists _, [a]. rewrite E. cbn [this heap] in *.
      split; [done|]. split; [by apply insert_subseteq|].
      do 2 (split; [done|]). constructor; [|constructor].
      unfold copied. rewrite Hsh. split; [apply is_fresh|].
      cbn [heap]. unfold h1. by rewrite lookup_insert_eq.
  - exists s, []. split; [done|]. split; [done|].
    split; [by rewrite app_nil_r|]. split; [done|]. constructor.
Qed.

Lemma copied_weaken (shallow_copy : bool) h0 h1 h2 (a a' : loc) :
  h0 ⊆ h1 -> h1 ⊆ h2 -> a ∈ dom h0 ->
  copied shallow_copy h1 h2 a a' -> copied shallow_copy h0 h2 a a'.
Proof.
  intros H01 H12 Ha. unfold copied.
  rewrite (lookup_total_subseteq h0 h1 a H01 Ha).
  destruct (shallow_copy || _); [done|]. intros [Hn Hd]. split; [|done].
  intros Hin. apply Hn. apply elem_of_dom. apply elem_of_dom in Hin as [x Hx].
  exists x. by eapply lookup_weaken.
Qed.

Lemma copied_extend (shallow_copy : bool) h0 h1 h2 (a a' : loc) :
  h1 ⊆ h2 ->
  copied shallow_copy h0 h1 a a' -> copied shallow_copy h0 h2 a a'.
Proof.
  intros H12. unfold copied.
  destruct (shallow_copy || _) eqn:Hsh; [done|]. intros [Hn Hd].
  split; [done|]. by eapply lookup_weaken.
Qed.

Lemma Forall2_copied_weaken (shallow_copy : bool) h0 h1 h2
    (l new : list loc) :
  h0 ⊆ h1 -> h1 ⊆ h2 -> Forall (fun a => a ∈ dom h0) l ->
  Forall2 (copied shallow_copy h1 h2) l new ->
  Forall2 (copied shallow_copy h0 h2) l new.
Proof.
  intros H01 H12 Hall Hc. revert Hall.
  induction Hc as [|a a' l0 new0 Hca Hc IHc]; intros Hall; [constructor|].
  apply Forall_cons in Hall as [Ha Hall].
  constructor; [by eapply copied_weaken | by apply IHc].
Qed.

Lemma copy_loop (shallow_copy : bool) flags sparse_ids (k : VarKind) l :
  forall s,
    (forall a, a ∈ l -> a ∈ dom (heap s)) ->
    exists s' new,
      for_each l (add_var shallow_copy flags sparse_ids k) s = (Ok tt, s')
      /\ heap s ⊆ heap s'
      /\ kindVector k (this s') = kindVector k (this s) ++ new
      /\ (forall k', k' <> k ->
            kindVector k' (this s') = kindVector k' (this s))
      /\ Forall2 (copied shallow_copy (heap s) (heap s'))
           (List.filter
              (fun a => copy_selects flags sparse_ids (heap s !!! a)) l)
           new.
Proof.
  induction l as [|x l IH]; intros s Hvalid; cbn [for_each].
  - exists s, []. split; [done|]. split; [done|].
    split; [by rewrite app_nil_r|]. split; [done|]. constructor.
  - destruct (add_var_step shallow_copy flags sparse_ids k x s)
      as (s1 & new1 & E1 & Hsub1 & Hv1 & Ho1 & Hc1).
    { apply Hvalid, elem_of_cons. by left. }
    assert (Hdom : forall a, a ∈ dom (heap s) -> a ∈ dom (heap s1)).
    { intros a [y Hy]%elem_of_dom. apply elem_of_dom. exists y.
      by eapply lookup_weaken. }
    destruct (IH s1) as (s' & new & E & Hsub & Hv & Ho & Hc).
    { intros a Ha. apply Hdom, Hvalid, elem_of_cons. by right. }
    exists s', (new1 ++ new). msimpl. rewrite E1, E.
    split; [done|]. split; [by etransitivity|].
    split; [by rewrite Hv, Hv1, app_assoc|].
    split; [intros k' Hk; by rewrite Ho, Ho1|].
    change (x :: l) with ([x] ++ l). rewrite List.filter_app.
    apply Forall2_app.
    + eapply Forall2_impl; [exact Hc1|]. intros a a'.
      by apply copied_extend.
    + rewrite (filter_ext_in _
        (fun a => copy_selects flags sparse_ids (heap s1 !!! a))).
      2:{ intros a Ha%list_elem_of_In.
          rewrite (lookup_total_subseteq (heap s) (heap s1)); [done|done|].
          apply Hvalid, elem_of_cons. by right. }
      assert (Hall : Forall (fun a => a ∈ dom (heap s))
                (List.filter
                   (fun a => copy_selects flags sparse_ids (heap s1 !!! a)) l)).
      { apply Forall_forall. intros a Ha%list_elem_of_In%filter_In.
        destruct Ha as [Ha _]. apply Hvalid, elem_of_cons. right.
        by apply list_elem_of_In. }
      by eapply Forall2_copied_weaken.
Qed.

Lemma Forall2_copied_elem (shallow_copy : bool) h h' (l new : list loc) a :
  Forall2 (copied shallow_copy h h') l new ->
  a ∈ l -> VarIsSet (h !!! a) OneCopy = true -> a ∈ new.
Proof.
  intros Hc [i Hi]%list_elem_of_lookup Ho.
  destruct (Forall2_lookup_l _ _ _ _ _ Hc Hi) as (a' & Ha' & Hcop).
  unfold copied in Hcop. rewrite Ho, orb_true_r in Hcop. subst a'.
  apply list_elem_of_lookup. by exists i.
Qed.

Lemma add_var_ok (shallow_copy : bool) flags sparse_ids (k : VarKind)
    (var : loc) s :
  exists s', add_var shallow_copy flags sparse_ids k var s = (Ok tt, s').
Proof.
  rewrite add_var_eq. destruct (negb _); [by eexists|].
  destruct (shallow_copy || _).
  - destruct (Add_kind_eq k var s) as (c' & E & _). by eexists.
  - unfold AllocateCopy. msimpl.
    match goal with |- context [Add_kind k ?a ?s1] =>
      destruct (Add_kind_eq k a s1) as (c' & E & _) end.
    by eexists.
Qed.

(** A name bound to a cell variable of the source, and to no face
    variable, is handed to [add_var] and counts as found. *)
Lemma CopyFrom_name_cell src (shallow_copy : bool) flags sparse_ids name
    (var : loc) s :
  varMap_ src !! name = Some var -> faceMap_ src !! name = None ->
  CopyFrom_name src shallow_copy flags sparse_ids name s
  = add_var shallow_copy flags sparse_ids CellKind var s.
Proof.
  intros Hv Hf. unfold CopyFrom_name. rewrite Hv, Hf.
  destruct (add_var_ok shallow_copy flags sparse_ids CellKind var s)
    as (s' & E).
  msimpl. rewrite E. cbn. by destruct (resolved_packages_ (this s')).
Qed.

Lemma CopyFrom_names_cells src (shallow_copy : bool) flags sparse_ids
    names (vs : list loc) :
  Forall2 (fun name var => varMap_ src !! name = Some var
                           /\ faceMap_ src !! name = None) names vs ->
  forall s,
    for_each names (CopyFrom_name src shallow_copy flags sparse_ids) s
    = for_each vs (add_var shallow_copy flags sparse_ids CellKind) s.
Proof.
  induction 1 as [|name var names vs [Hv Hf] _ IH]; intros s;
    cbn [for_each]; [done|].
  msimpl. rewrite (CopyFrom_name_cell _ _ _ _ _ _ _ Hv Hf).
  destruct (add_var _ _ _ _ _ s) as [[[]| | |] s']; [apply IH|done..].
Qed.

(** On the paths of [CopyFrom] that take the variable from the source,
    that is, over all variables of the source and by names bound to cell
    variables of the source, every selected variable is added to the
    destination in source order; a one-copy variable is added as the very
    pointer the source holds, whatever the shallow flag, and any other
    variable is, when the copy is not shallow, added as a new object
    holding a duplicate.  So a one-copy variable of the source is
    afterwards held by both containers, and what is written to its
    storage through one is read through the other, whereas a duplicate is
    untouched by writes to the original.  The same choice is made by
    every call of [add_var], whichever pointer it is handed. *)
Theorem CopyFrom_shares_OneCopy src (shallow_copy : bool) flags sparse_ids s :
  (forall a, a ∈ varVector_ src ++ faceVector_ src -> a ∈ dom (heap s)) ->
  let r := CopyFrom src shallow_copy [] flags sparse_ids s in
  let sel := fun a => copy_selects flags sparse_ids (heap s !!! a) in
  fst r = Ok tt
  /\ heap s ⊆ heap (snd r)
  /\ (exists new_cells new_faces,
        varVector_ (this (snd r)) = varVector_ (this s) ++ new_cells
        /\ faceVector_ (this (snd r)) = faceVector_ (this s) ++ new_faces
        /\ Forall2 (copied shallow_copy (heap s) (heap (snd r)))
             (List.filter sel (varVector_ src)) new_cells
        /\ Forall2 (copied shallow_copy (heap s) (heap (snd r)))
             (List.filter sel (faceVector_ src)) new_faces)
  /\ (forall a,
        a ∈ varVector_ src \/ a ∈ faceVector_ src ->
        sel a = true -> VarIsSet (heap s !!! a) OneCopy = true ->
        (a ∈ varVector_ src -> a ∈ varVector_ (this (snd r)))
        /\ (a ∈ faceVector_ src -> a ∈ faceVector_ (this (snd r)))
        /\ heap (snd r) !!! a = heap s !!! a
        /\ forall d, data (store_write a d (heap (snd r)) !!! a) = d)
  /\ (forall a a' d,
        a ∈ dom (heap s) ->
        copied shallow_copy (heap s) (heap (snd r)) a a' ->
        shallow_copy = false -> VarIsSet (heap s !!! a) OneCopy = false ->
        a' <> a
        /\ store_write a d (heap (snd r)) !!! a' = heap s !!! a)
  /\ (forall names (vs : list loc),
        names <> [] ->
        Forall2 (fun name var => varMap_ src !! name = Some var
                                 /\ faceMap_ src !! name = None) names vs ->
        (forall a, a ∈ vs -> a ∈ dom (heap s)) ->
        let rn := CopyFrom src shallow_copy names flags sparse_ids s in
        fst rn = Ok tt
        /\ heap s ⊆ heap (snd rn)
        /\ exists new,
             varVector_ (this (snd rn)) = varVector_ (this s) ++ new
             /\ Forall2 (copied shallow_copy (heap s) (heap (snd rn)))
                  (List.filter sel vs) new)
  /\ (forall (k : VarKind) (var : loc) s0,
        copy_selects flags sparse_ids (heap s0 !!! var) = true ->
        (VarIsSet (heap s0 !!! var) OneCopy = true ->
         add_var shallow_copy flags sparse_ids k var s0 = Add_kind k var s0)
        /\ (VarIsSet (heap s0 !!! var) OneCopy = false ->
            shallow_copy = false ->
            add_var shallow_copy flags sparse_ids k var s0
            = (c ← AllocateCopy var; Add_kind k c) s0)).
Proof.
  intros Hvalid r sel.
  set (s0 := mkState (with_block (pmy_block src) (resolved_packages_ src)
                        (this s)) (heap s) (nodes s) (trace s)).
  destruct (copy_loop shallow_copy flags sparse_ids CellKind
              (varVector_ src) s0)
    as (s1 & new_cells & E1 & Hsub1 & Hv1 & Ho1 & Hc1).
  { intros a Ha. apply Hvalid, elem_of_app. by left. }
  assert (Hdom1 : forall a, a ∈ dom (heap s) -> a ∈ dom (heap s1)).
  { intros a [y Hy]%elem_of_dom. apply elem_of_dom. exists y.
    by eapply lookup_weaken. }
  destruct (copy_loop shallow_copy flags sparse_ids FaceKind
              (faceVector_ src) s1)
    as (s2 & new_faces & E2 & Hsub2 & Hv2 & Ho2 & Hc2).
  { intros a Ha. apply Hdom1, Hvalid, elem_of_app. by right. }
  assert (Er : r = (Ok tt, s2)).
  { subst r. unfold CopyFrom. rewrite bool_decide_eq_true_2 by done.
    msimpl. fold s0. by rewrite E1, E2. }
  specialize (Ho2 CellKind ltac:(done)).
  specialize (Ho1 FaceKind ltac:(done)).
  cbn [kindVector heap this] in *.
  assert (Hsub : heap s ⊆ heap s2) by (by etransitivity).
  assert (Hcells : Forall2 (copied shallow_copy (heap s) (heap s2))
                     (List.filter sel (varVector_ src)) new_cells).
  { eapply Forall2_impl; [exact Hc1|]. intros a a'. by apply copied_extend. }
  assert (Hfaces : Forall2 (copied shallow_copy (heap s) (heap s2))
                     (List.filter sel (faceVector_ src)) new_faces).
  { rewrite (filter_ext_in sel
       (fun a => copy_selects flags sparse_ids (heap s1 !!! a))).
    2:{ intros a Ha%list_elem_of_In. unfold sel.
        rewrite (lookup_total_subseteq (heap s) (heap s1)); [done|done|].
        apply Hvalid, elem_of_app. by right. }
    eapply Forall2_copied_weaken; [exact Hsub1|exact Hsub2| |exact Hc2].
    apply Forall_forall. intros a Ha%list_elem_of_In%filter_In.
    destruct Ha as [Ha _]. apply Hvalid, elem_of_app. right.
    by apply list_elem_of_In. }
  assert (Hvec : varVector_ (this s2) = varVector_ (this s) ++ new_cells).
  { by rewrite Ho2. }
  assert (Hfvec : faceVector_ (this s2) = faceVector_ (this s) ++ new_faces).
  { by rewrite Hv2, Ho1. }
  rewrite Er. cbn [fst snd].
  split; [done|]. split; [done|]. split.
  { exists new_cells, new_faces. done. }
  split.
  { intros a Ha Hs Ho.
    assert (Hin : a ∈ dom (heap s)).
    { apply Hvalid, elem_of_app. exact Ha. }
    split; [|split; [|split]].
    - intros Hc. rewrite Hvec. apply elem_of_app. right.
      eapply Forall2_copied_elem; [exact Hcells| |done].
      apply list_elem_of_In, filter_In. split; [by apply list_elem_of_In|done].
    - intros Hf. rewrite Hfvec. apply elem_of_app. right.
      eapply Forall2_copied_elem; [exact Hfaces| |done].
      apply list_elem_of_In, filter_In. split; [by apply list_elem_of_In|done].
    - by apply lookup_total_subseteq.
    - intros d. unfold store_write. by rewrite lookup_total_insert_eq. }
  split.
  { intros a a' d Ha Hcop -> Ho. unfold copied in Hcop.
    rewrite Ho in Hcop. cbn in Hcop. destruct Hcop as [Hn Hd].
    assert (Hne : a' <> a) by (intros ->; done).
    split; [done|]. unfold store_write.
    rewrite lookup_total_insert_ne by done.
    by apply lookup_total_correct. }
  split.
  { intros names vs Hne Hbound Hvs.
    destruct (copy_loop shallow_copy flags sparse_ids CellKind vs s0)
      as (sn & new & En & Hsubn & Hvn & _ & Hcn); [exact Hvs|].
    assert (Ern : CopyFrom src shallow_copy names flags sparse_ids s
                  = (Ok tt, sn)).
    { unfold CopyFrom. rewrite bool_decide_eq_false_2 by done.
      msimpl. fold s0.
      by rewrite (CopyFrom_names_cells _ _ _ _ _ _ Hbound), En. }
    rewrite Ern. cbn [fst snd]. split; [done|]. split; [done|].
    by exists new. }
  intros k var s' Hs. rewrite add_var_eq, Hs. cbn [negb]. split.
  - intros ->. by rewrite orb_true_r.
  - by intros -> ->.
Qed.

(** *** Boundary exchange *)

Lemma add_trace_nil s : add_trace [] s = s.
Proof. destruct s. unfold add_trace. cbn. by rewrite app_nil_r. Qed.

Lemma add_trace_app evs1 evs2 s :
  add_trace evs2 (add_trace evs1 s) = add_trace (evs1 ++ evs2) s.
Proof. unfold add_trace. cbn. by rewrite app_assoc. Qed.

(** *** The neighbor sync and its assertions *)

Lemma for_each_trace_in {A} (f : A -> list Event) (l : list A)
    (body : A -> M unit) :
  (forall x, x ∈ l -> forall s, body x s = (Ok tt, add_trace (f x) s)) ->
  forall s, for_each l body s = (Ok tt, add_trace (flat_map f l) s).
Proof.
  induction l as [|x l IH]; intros Hb s; cbn [for_each flat_map].
  - msimpl. by rewrite add_trace_nil.
  - msimpl. rewrite Hb by (apply elem_of_cons; by left).
    rewrite IH by (intros y Hy; apply Hb, elem_of_cons; by right).
    by rewrite add_trace_app.
Qed.

Lemma for_each_abort_in {A} (P : Event -> Prop) (l : list A)
    (body : A -> M unit) :
  (forall x, x ∈ l -> forall s,
      (exists evs, body x s = (Ok tt, add_trace evs s) /\ Forall P evs)
      \/ (exists e evs, body x s = (Abort e, add_trace evs s)
                        /\ Forall P evs)) ->
  (exists x, x ∈ l
             /\ forall s, exists e evs, body x s = (Abort e, add_trace evs s)) ->
  forall s, exists e evs,
    for_each l body s = (Abort e, add_trace evs s) /\ Forall P evs.
Proof.
  induction l as [|x l IH]; intros Hb (bad & Hin & Hbad) s.
  { by apply elem_of_nil in Hin. }
  cbn [for_each]. msimpl.
  destruct (Hb x (proj2 (elem_of_cons _ _ _) (or_introl eq_refl)) s)
    as [(evs & E & HP) | (e & evs & E & HP)]; rewrite E;
    [|by exists e, evs].
  apply elem_of_cons in Hin as [->|Hin].
  { destruct (Hbad s) as (e & evs' & E'). rewrite E' in E. discriminate E. }
  destruct (IH (fun y Hy => Hb y (proj2 (elem_of_cons _ _ _) (or_intror Hy)))
               (ex_intro _ bad (conj Hin Hbad)) (add_trace evs s))
    as (e & evs' & E' & HP').
  exists e, (evs ++ evs'). rewrite E', add_trace_app.
  split; [done|]. by apply Forall_app.
Qed.

Lemma lookup_total_middle {A} `{Inhabited A} (l1 l2 : list A) (x : A) :
  (l1 ++ x :: l2) !!! length l1 = x.
Proof. apply list_lookup_total_correct, list_lookup_middle. done. Qed.

Lemma for_each_seq_zip (g : loc -> loc -> M unit) (vs : list loc) :
  forall (nvars pre npre : list loc) s,
    length pre = length npre -> length vs = length nvars ->
    for_each (seq (length pre) (length vs))
      (fun i => g ((pre ++ vs) !!! i) ((npre ++ nvars) !!! i)) s
    = for_each (zip vs nvars) (fun p => g (fst p) (snd p)) s.
Proof.
  induction vs as [|x vs IH]; intros [|y nvars] pre npre s Hp Hl;
    try discriminate Hl; [done|].
  cbn [length seq for_each zip zip_with fst snd]. msimpl.
  rewrite lookup_total_middle. rewrite Hp at 1. rewrite lookup_total_middle.
  destruct (g x y s) as [[[]| | |] s1]; try done.
  specialize (IH nvars (pre ++ [x]) (npre ++ [y]) s1).
  rewrite !length_app, <- !app_assoc in IH. cbn [length app] in IH.
  rewrite Nat.add_1_r in IH. apply IH; [lia|]. by injection Hl.
Qed.

Lemma Forall2_zip_iff {A B} (R : A -> B -> Prop) (l : list A) (k : list B) :
  Forall2 R l k
  <-> length l = length k /\ Forall (fun p => R (fst p) (snd p)) (zip l k).
Proof.
  split.
  - induction 1 as [|x y l k Hxy _ [IH1 IH2]]; [by split|].
    split; [cbn; by rewrite IH1|]. by constructor.
  - revert k. induction l as [|x l IH]; intros [|y k] [Hl Hz];
      try discriminate Hl; [constructor|].
    cbn in Hz. apply Forall_cons in Hz as [Hxy Hz].
    constructor; [done|]. apply IH. split; [by injection Hl|done].
Qed.

Lemma assert_bind {A} (b : bool) (e : string) (m : M A) s :
  (assert_ b e ;; m) s = if b then m s else (Abort e, s).
Proof. by destruct b. Qed.

(** The body of the sync for a neighbor on this rank. *)
Lemma sync_neighbor h (vs : list loc) (n : nat) (nvars : list loc) s0 :
  let body : M unit :=
    assert_ (bool_decide (length vs = length nvars))
      "varVector_.size() == neighbor_data->varVector_.size()" ;;
    for_each (seq 0 (length vs)) (fun i =>
      assert_ (bool_decide (label (h !!! (vs !!! i))
                            = label (h !!! (nvars !!! i))))
        "varVector_[i]->label() == neighbor_data->varVector_[i]->label()" ;;
      if negb (VarIsSet (h !!! (vs !!! i)) FillGhost) then mret tt
      else emit (VbSetLocalNeighborAllocated (vs !!! i) n
                   (IsAllocated (h !!! (nvars !!! i))))) in
  (neighbor_agrees h vs nvars ->
   body s0 = (Ok tt, add_trace (sync_calls h vs n nvars) s0))
  /\ (~ neighbor_agrees h vs nvars ->
      exists e evs, body s0 = (Abort e, add_trace evs s0)
                    /\ Forall is_sync_event evs).
Proof.
  intros body.
  pose (g := fun vi ni : loc =>
    (assert_ (bool_decide (label (h !!! vi) = label (h !!! ni)))
       "varVector_[i]->label() == neighbor_data->varVector_[i]->label()" ;;
     if negb (VarIsSet (h !!! vi) FillGhost) then mret tt
     else emit (VbSetLocalNeighborAllocated vi n (IsAllocated (h !!! ni))))
    : @M T Coords BoundaryCommSubset unit).
  assert (Ebody : body s0
            = if bool_decide (length vs = length nvars)
              then for_each (seq 0 (length vs))
                     (fun i => g (vs !!! i) (nvars !!! i)) s0
              else (Abort
                      "varVector_.size() == neighbor_data->varVector_.size()",
                    s0)).
  { subst body. rewrite assert_bind. reflexivity. }
  rewrite Ebody. clear Ebody body.
  unfold neighbor_agrees. rewrite Forall2_zip_iff.
  destruct (decide (length vs = length nvars)) as [Hl|Hl].
  2:{ rewrite bool_decide_eq_false_2 by done. split; [by intros [? _]|].
      intros _. eexists _, []. by rewrite add_trace_nil. }
  rewrite bool_decide_eq_true_2 by done.
  assert (Hsync : forall p : loc * loc,
            Forall (@is_sync_event BoundaryCommSubset)
              (if ghost h (fst p)
               then [VbSetLocalNeighborAllocated (fst p) n
                       (IsAllocated (h !!! snd p))]
               else [])).
  { intros p. destruct (ghost h p.1); repeat constructor. }
  assert (Hstep : forall p s,
            (label (h !!! fst p) = label (h !!! snd p) ->
             g (fst p) (snd p) s
             = (Ok tt,
                add_trace (if ghost h (fst p)
                           then [VbSetLocalNeighborAllocated (fst p) n
                                   (IsAllocated (h !!! snd p))]
                           else []) s))
            /\ (label (h !!! fst p) <> label (h !!! snd p) ->
                exists e evs, g (fst p) (snd p) s = (Abort e, add_trace evs s))).
  { intros p s. unfold g. rewrite assert_bind. unfold ghost.
    split; intros Hp.
    - rewrite bool_decide_eq_true_2 by done.
      destruct (VarIsSet _ _); cbn [negb]; [done|].
      msimpl. by rewrite add_trace_nil.
    - rewrite bool_decide_eq_false_2 by done.
      eexists _, []. by rewrite add_trace_nil. }
  assert (Eloop : for_each (seq 0 (length vs))
                    (fun i => g (vs !!! i) (nvars !!! i)) s0
                  = for_each (zip vs nvars) (fun p => g (fst p) (snd p)) s0)
    by apply (for_each_seq_zip g vs nvars [] [] s0 eq_refl Hl).
  rewrite Eloop. clear Eloop. split.
  - intros [_ Hall]. unfold sync_calls. apply for_each_trace_in.
    intros p Hp s. apply Hstep. rewrite Forall_forall in Hall. by apply Hall.
  - intros Hn. apply for_each_abort_in.
    + intros p _ s.
      destruct (decide (label (h !!! p.1) = label (h !!! p.2))) as [E|E].
      * left. eexists. split; [by apply Hstep | apply Hsync].
      * right. destruct (proj2 (Hstep p s) E) as (e & evs & E').
        unfold g in E'. rewrite assert_bind in E'.
        rewrite bool_decide_eq_false_2 in E' by done.
        exists e, []. split; [|constructor].
        unfold g. rewrite assert_bind, bool_decide_eq_false_2 by done.
        rewrite add_trace_nil. by injection E' as -> _.
    + assert (Hex : Exists (fun p : loc * loc =>
                              ~ label (h !!! p.1) = label (h !!! p.2))
                           (zip vs nvars)).
      { apply not_Forall_Exists; [apply _|]. intros Hall. by apply Hn. }
      apply Exists_exists in Hex as (p & Hp & Hne).
      exists p. split; [done|]. intros s. by apply Hstep.
Qed.

Lemma sync_calls_sync_events h (vs : list loc) (n : nat) (nvars : list loc) :
  Forall (@is_sync_event BoundaryCommSubset) (sync_calls h vs n nvars).
Proof.
  unfold sync_calls. apply Forall_flat_map, Forall_forall. intros p _.
  destruct (ghost _ _); repeat constructor.
Qed.

#[local] Instance neighbor_agrees_dec h (vs nvars : list loc) :
  Decision (neighbor_agrees h vs nvars).
Proof. unfold neighbor_agrees. apply _. Defined.

(** The sync returns exactly when the neighbors agree, and then its whole
    effect is the list of calls [all_sync_calls]; otherwise the first
    failing assertion ends it, after the calls made so far. *)
Lemma SetLocalNeighborAllocated_eq G s :
  (neighbors_agree G s ->
   SetLocalNeighborAllocated G s = (Ok tt, add_trace (all_sync_calls G s) s))
  /\ (~ neighbors_agree G s ->
      exists e evs,
        SetLocalNeighborAllocated G s = (Abort e, add_trace evs s)
        /\ Forall is_sync_event evs).
Proof.
  unfold neighbors_agree, SetLocalNeighborAllocated, all_sync_calls.
  destruct (ENABLE_SPARSE G).
  2:{ split; [|intros Hn; exfalso; apply Hn; discriminate].
      intros _. msimpl. by rewrite add_trace_nil. }
  msimpl. set (nbs := neighbor (pmy_block (this s))).
  assert (Hzip : forall (nb : nat * (Z * list loc)),
            nb ∈ zip (seq 0 (length nbs)) nbs -> snd nb ∈ nbs).
  { intros [n nb] Hin. apply (elem_of_zip_r _ _ _ _ Hin). }
  split.
  - intros Hall. specialize (Hall eq_refl). rewrite Forall_forall in Hall.
    apply for_each_trace_in. intros nb Hnb s0.
    destruct (decide (nb.2.1 = my_rank G)) as [Hr|Hr].
    + rewrite (bool_decide_eq_false_2 (_ <> my_rank G))
          by (intros H; by apply H).
      rewrite (bool_decide_eq_true_2 (_ = my_rank G)) by done.
      apply (sync_neighbor (heap s) (varVector_ (this s)) nb.1 nb.2.2 s0).
      by apply (Hall nb.2 (Hzip nb Hnb)).
    + rewrite (bool_decide_eq_true_2 (_ <> my_rank G)) by done.
      rewrite (bool_decide_eq_false_2 (_ = my_rank G)) by done.
      msimpl. by rewrite add_trace_nil.
  - intros Hn.
    assert (Hex : Exists (fun nb : Z * list loc =>
                            ~ (nb.1 = my_rank G ->
                               neighbor_agrees (heap s) (varVector_ (this s))
                                               nb.2)) nbs).
    { apply not_Forall_Exists; [apply _|]. intros Hall. by apply Hn. }
    apply Exists_exists in Hex as (bad & Hbad & Hnot).
    assert (Hr : bad.1 = my_rank G).
    { destruct (decide (bad.1 = my_rank G)); [done|]. by destruct Hnot. }
    assert (Hna : ~ neighbor_agrees (heap s) (varVector_ (this s)) bad.2)
      by (intros H; by apply Hnot).
    apply for_each_abort_in.
    + intros nb _ s0.
      destruct (decide (nb.2.1 = my_rank G)) as [Hr'|Hr'].
      * rewrite (bool_decide_eq_false_2 (_ <> my_rank G))
          by (intros H; by apply H).
        destruct (decide (neighbor_agrees (heap s) (varVector_ (this s))
                                          nb.2.2)) as [Ha|Ha].
        -- left. eexists. split.
           ++ by apply (sync_neighbor (heap s) (varVector_ (this s)) nb.1
                          nb.2.2 s0).
           ++ apply sync_calls_sync_events.
        -- right.
           by apply (sync_neighbor (heap s) (varVector_ (this s)) nb.1
                       nb.2.2 s0).
      * rewrite (bool_decide_eq_true_2 (_ <> my_rank G)) by done.
        left. exists []. msimpl. by rewrite add_trace_nil.
    + apply list_elem_of_lookup in Hbad as [i Hi].
      exists (i, bad). split.
      * apply list_elem_of_lookup. exists i.
        rewrite lookup_zip_with, lookup_seq_lt, Hi; [done|].
        by apply lookup_lt_Some in Hi.
      * intros s0. cbn [fst snd].
        rewrite (bool_decide_eq_false_2 (_ <> my_rank G))
          by (intros H; by apply H).
        destruct (proj2 (sync_neighbor (heap s) (varVector_ (this s)) i
                           bad.2 s0) Hna) as (e & evs & E & _).
        by exists e, evs.
Qed.

Lemma all_sync_calls_sync_events G s :
  Forall is_sync_event (all_sync_calls G s).
Proof.
  unfold all_sync_calls. destruct (ENABLE_SPARSE G); [|constructor].
  apply Forall_flat_map, Forall_forall. intros nb _.
  case_bool_decide; [|constructor]. apply sync_calls_sync_events.
Qed.

(** *** Posting and polling *)

Lemma bool_decide_cons_ne (a x : loc) (l : list loc) :
  a <> x -> bool_decide (a ∈ x :: l) = bool_decide (a ∈ l).
Proof.
  intros Hne. apply bool_decide_ext. rewrite elem_of_cons.
  split; [intros [?|?]; [congruence|done] | auto].
Qed.

Lemma bool_decide_cons_eq (x : loc) (l : list loc) :
  bool_decide (x ∈ x :: l) = true.
Proof. apply bool_decide_eq_true_2, elem_of_cons. by left. Qed.

Lemma set_mpiStatus_ghost h v b a :
  ghost (<[v := set_mpiStatus b (h !!! v)]> h) a = ghost h a.
Proof.
  unfold ghost. destruct (decide (v = a)) as [->|Hne].
  - by rewrite lookup_total_insert_eq.
  - by rewrite lookup_total_insert_ne.
Qed.

Lemma StartReceiving_body_eq phase v s :
  StartReceiving_body phase v s =
    if ghost (heap s) v then
      (Ok tt,
       mkState (this s) (<[v := set_mpiStatus false (heap s !!! v)]> (heap s))
               (nodes s)
               (trace s ++ [ResetBoundary v; VbStartReceiving v phase]))
    else (Ok tt, s).
Proof.
  unfold StartReceiving_body, ghost. msimpl.
  destruct (VarIsSet _ _); [|reflexivity].
  by rewrite <- app_assoc.
Qed.

Lemma StartReceiving_loop phase l : forall s,
  exists s',
    for_each l (StartReceiving_body phase) s = (Ok tt, s')
    /\ this s' = this s /\ nodes s' = nodes s
    /\ trace s' = trace s
         ++ flat_map (fun v => [ResetBoundary v; VbStartReceiving v phase])
                     (List.filter (ghost (heap s)) l)
    /\ forall a, heap s' !!! a =
         if bool_decide (a ∈ l) && ghost (heap s) a
         then set_mpiStatus false (heap s !!! a) else heap s !!! a.
Proof.
  induction l as [|x l IH]; intros s; cbn [for_each].
  - exists s. msimpl. do 3 (split; [reflexivity|]).
    split; [cbn; by rewrite app_nil_r|].
    intros a. by rewrite bool_decide_eq_false_2 by apply not_elem_of_nil.
  - msimpl. rewrite StartReceiving_body_eq.
    destruct (ghost (heap s) x) eqn:Hx.
    + match goal with |- context [for_each l _ ?s1] =>
        destruct (IH s1) as (s' & E & Ht & Hn & Htr & Hh) end.
      exists s'. rewrite E. cbn [this heap nodes trace] in *.
      split; [reflexivity|]. split; [done|]. split; [done|]. split.
      * rewrite Htr. cbn [List.filter]. rewrite Hx. cbn [flat_map].
        rewrite <- app_assoc. f_equal. cbn [app]. do 3 f_equal.
        apply filter_ext. intros a. apply set_mpiStatus_ghost.
      * intros a. rewrite Hh, set_mpiStatus_ghost.
        destruct (decide (a = x)) as [->|Hne].
        -- rewrite lookup_total_insert_eq, Hx.
           rewrite bool_decide_cons_eq.
           by destruct (bool_decide (x ∈ l)).
        -- rewrite lookup_total_insert_ne by done.
           by rewrite bool_decide_cons_ne.
    + destruct (IH s) as (s' & E & Ht & Hn & Htr & Hh).
      exists s'. rewrite E. repeat split; try done.
      * rewrite Htr. cbn [List.filter]. by rewrite Hx.
      * intros a. rewrite Hh.
        destruct (decide (a = x)) as [->|Hne].
        -- rewrite Hx. by rewrite !andb_false_r.
        -- by rewrite bool_decide_cons_ne.
Qed.

Lemma ReceiveBoundaryBuffers_body_eq poll ret v s :
  ReceiveBoundaryBuffers_body poll ret v s =
    if pending (heap s) v then
      (Ok (ret && polled poll (heap s) v),
       mkState (this s)
         (<[v := set_mpiStatus (polled poll (heap s) v) (heap s !!! v)]>
            (heap s))
         (nodes s)
         (trace s ++ [ResetBoundary v;
                      VbReceiveBoundaryBuffers v (IsAllocated (heap s !!! v))]))
    else (Ok ret, s).
Proof.
  unfold ReceiveBoundaryBuffers_body, pending, polled, ghost. msimpl.
  destruct (mpiStatus _); cbn [negb andb]; [reflexivity|].
  destruct (VarIsSet _ _); [|reflexivity].
  rewrite lookup_total_insert_eq, <- app_assoc. reflexivity.
Qed.

Lemma IsAllocated_after poll h x a :
  IsAllocated (after_poll poll h x !!! a) = IsAllocated (h !!! a).
Proof.
  unfold after_poll. destruct (decide (x = a)) as [->|Hne].
  - by rewrite lookup_total_insert_eq.
  - by rewrite lookup_total_insert_ne.
Qed.

Lemma polled_after poll h x a :
  polled poll (after_poll poll h x) a = polled poll h a.
Proof. unfold polled. by rewrite IsAllocated_after. Qed.

Lemma pending_after_ne poll h x a :
  a <> x -> pending (after_poll poll h x) a = pending h a.
Proof.
  intros Hne. unfold pending, ghost, after_poll.
  by rewrite lookup_total_insert_ne.
Qed.

Lemma pending_after_eq poll h x :
  pending h x = true ->
  pending (after_poll poll h x) x = negb (polled poll h x).
Proof.
  intros Hx. unfold pending, ghost, after_poll in *.
  rewrite lookup_total_insert_eq.
  apply andb_true_iff in Hx as [_ Hg]. unfold VarIsSet in *. cbn.
  rewrite Hg. apply andb_true_r.
Qed.

Lemma pending_after_le poll h x a :
  pending h x = true ->
  pending (after_poll poll h x) a = true -> pending h a = true.
Proof.
  intros Hx. destruct (decide (a = x)) as [->|Hne]; [done|].
  by rewrite pending_after_ne.
Qed.

Lemma all_polled_after poll h x l :
  pending h x = true ->
  polled poll h x
  && forallb (fun v => negb (pending (after_poll poll h x) v)
                       || polled poll (after_poll poll h x) v) l
  = polled poll h x
    && forallb (fun v => negb (pending h v) || polled poll h v) l.
Proof.
  intros Hx. destruct (polled poll h x) eqn:Hp; [|reflexivity]. cbn [andb].
  induction l as [|y l IH]; [reflexivity|]. cbn [forallb].
  rewrite IH, polled_after. f_equal.
  destruct (decide (y = x)) as [->|Hne].
  - rewrite pending_after_eq, Hx, Hp by done. reflexivity.
  - by rewrite pending_after_ne.
Qed.

Lemma received_after poll h x l a :
  pending h x = true ->
  received poll l (after_poll poll h x) a = received poll (x :: l) h a.
Proof.
  intros Hx. unfold received. rewrite polled_after.
  destruct (decide (a = x)) as [->|Hne].
  - rewrite bool_decide_cons_eq, Hx, pending_after_eq by done. cbn [andb].
    unfold after_poll. rewrite lookup_total_insert_eq.
    destruct (bool_decide (x ∈ l)), (polled poll h x); reflexivity.
  - rewrite bool_decide_cons_ne, pending_after_ne by done.
    unfold after_poll. by rewrite lookup_total_insert_ne.
Qed.

Lemma poll_event_after poll h x a ev :
  poll_event (after_poll poll h x) a ev <-> poll_event h a ev.
Proof. unfold poll_event. by rewrite IsAllocated_after. Qed.

Lemma received_skip poll h x l a :
  pending h x = false -> received poll l h a = received poll (x :: l) h a.
Proof.
  intros Hx. unfold received. destruct (decide (a = x)) as [->|Hne].
  - by rewrite Hx, !andb_false_r.
  - by rewrite bool_decide_cons_ne.
Qed.

Lemma ReceiveBoundaryBuffers_loop poll l : forall s ret,
  exists s' evs,
    for_each_acc l ret (ReceiveBoundaryBuffers_body poll) s
      = (Ok (ret && forallb (fun v => negb (pending (heap s) v)
                                      || polled poll (heap s) v) l), s')
    /\ this s' = this s /\ nodes s' = nodes s
    /\ (forall a, heap s' !!! a = received poll l (heap s) a)
    /\ trace s' = trace s ++ evs
    /\ (forall e, e ∈ evs <->
          exists v, v ∈ l /\ pending (heap s) v = true
                    /\ poll_event (heap s) v e).
Proof.
  induction l as [|x l IH]; intros s ret; cbn [for_each_acc forallb].
  - exists s, []. msimpl. rewrite andb_true_r, app_nil_r.
    do 3 (split; [reflexivity|]). split.
    { intros a. unfold received.
      by rewrite bool_decide_eq_false_2 by apply not_elem_of_nil. }
    split; [reflexivity|]. intros e. split.
    + intros He. by apply elem_of_nil in He.
    + intros (v & Hv & _). by apply elem_of_nil in Hv.
  - msimpl. rewrite ReceiveBoundaryBuffers_body_eq.
    destruct (pending (heap s) x) eqn:Hx; cbn [negb orb].
    + match goal with |- context [for_each_acc l ?r _ ?s1] =>
        destruct (IH s1 r) as (s' & evs & E & Ht & Hn & Hh & Htr & Hev) end.
      cbn [this heap nodes trace] in *.
      fold (after_poll poll (heap s) x) in E, Hh, Hev.
      fold (after_poll poll (heap s) x).
      exists s', ([ResetBoundary x;
                   VbReceiveBoundaryBuffers x (IsAllocated (heap s !!! x))]
                  ++ evs).
      rewrite E. split.
      { do 2 f_equal.
        rewrite <- !andb_assoc. f_equal. by apply all_polled_after. }
      do 2 (split; [done|]). split.
      { intros a. rewrite Hh. by apply received_after. }
      split; [by rewrite Htr, <- app_assoc|].
      intros e. rewrite elem_of_app, Hev. split.
      * intros [He | (v & Hv & Hp & Hpe)].
        -- exists x. split; [apply elem_of_cons; by left|]. split; [done|].
           unfold poll_event. apply elem_of_cons in He as [->|He]; [by left|].
           apply list_elem_of_singleton in He as ->. by right.
        -- exists v. split; [apply elem_of_cons; by right|].
           split; [by eapply pending_after_le|].
           by eapply poll_event_after.
      * intros (v & Hv & Hp & Hpe).
        destruct (decide (v = x)) as [->|Hne].
        -- left. destruct Hpe as [-> | ->]; rewrite !elem_of_cons; auto.
        -- right. exists v. apply elem_of_cons in Hv as [?|Hv]; [done|].
           split; [done|]. split; [by rewrite pending_after_ne|].
           by apply poll_event_after.
    + destruct (IH s ret) as (s' & evs & E & Ht & Hn & Hh & Htr & Hev).
      exists s', evs. rewrite E. do 3 (split; [done|]). split.
      { intros a. rewrite Hh. by apply received_skip. }
      split; [done|]. intros e. rewrite Hev. split.
      * intros (v & Hv & Hp & Hpe). exists v.
        split; [apply elem_of_cons; by right|]. done.
      * intros (v & Hv & Hp & Hpe). exists v.
        apply elem_of_cons in Hv as [->|Hv]; [congruence|]. done.
Qed.

Lemma ReceiveBoundaryBuffers_eq poll s :
  exists s' evs,
    ReceiveBoundaryBuffers poll s
      = (Ok (if forallb (fun v => negb (pending (heap s) v)
                                  || polled poll (heap s) v)
                        (varVector_ (this s))
             then complete else incomplete), s')
    /\ this s' = this s /\ nodes s' = nodes s
    /\ (forall a, heap s' !!! a
                  = received poll (varVector_ (this s)) (heap s) a)
    /\ trace s' = trace s ++ evs
    /\ (forall e, e ∈ evs <->
          exists v, v ∈ varVector_ (this s) /\ pending (heap s) v = true
                    /\ poll_event (heap s) v e).
Proof.
  destruct (ReceiveBoundaryBuffers_loop poll (varVector_ (this s)) s true)
    as (s' & evs & E & H).
  exists s', evs. split; [|exact H].
  unfold ReceiveBoundaryBuffers. msimpl. rewrite E. cbn [andb].
  by destruct (forallb _ _).
Qed.



#[local] Instance neighbors_agree_dec G s : Decision (neighbors_agree G s).
Proof. unfold neighbors_agree. apply _. Defined.


(** C9: [ReceiveBoundaryBuffers] polls exactly the ghost-filled variables
    of [varVector_] whose completion flag is false, each with its current
    allocation flag, and stores the answer in the completion flag; every
    other variable is left alone.  It returns [complete] exactly when
    every such poll succeeded, and [incomplete] otherwise; it never throws
    or exits. *)
Theorem ReceiveBoundaryBuffers_polls_pending (poll : loc -> bool -> bool) s :
  let r := ReceiveBoundaryBuffers poll s in
  let vs := varVector_ (this s) in
  (fst r = Ok complete \/ fst r = Ok incomplete)
  /\ (fst r = Ok complete <->
      forall v, v ∈ vs -> pending (heap s) v = true ->
                polled poll (heap s) v = true)
  /\ (forall v, v ∈ vs -> pending (heap s) v = true ->
        heap (snd r) !!! v
        = set_mpiStatus (polled poll (heap s) v) (heap s !!! v))
  /\ (forall v, v ∉ vs \/ pending (heap s) v = false ->
        heap (snd r) !!! v = heap s !!! v)
  /\ this (snd r) = this s
  /\ (exists evs,
        trace (snd r) = trace s ++ evs
        /\ forall e, e ∈ evs <->
             exists v, v ∈ vs /\ pending (heap s) v = true
                       /\ (e = ResetBoundary v
                           \/ e = VbReceiveBoundaryBuffers v
                                    (IsAllocated (heap s !!! v)))).
Proof.
  intros r vs.
  destruct (ReceiveBoundaryBuffers_eq poll s)
    as (s' & evs & E & Ht & Hn & Hh & Htr & Hev).
  subst r. rewrite E. cbn [fst snd]. fold vs in Hh, Hev |- *.
  split; [destruct (forallb _ vs); auto|]. split.
  { destruct (forallb _ vs) eqn:Hall.
    - split; [|done]. intros _ v Hv Hp.
      rewrite forallb_forall in Hall.
      apply list_elem_of_In, Hall in Hv. by rewrite Hp in Hv.
    - split; [discriminate|]. intros Hall'. exfalso.
      apply not_true_iff_false in Hall. apply Hall.
      apply forallb_forall. intros v Hv%list_elem_of_In.
      destruct (pending (heap s) v) eqn:Hp; [|done]. by apply Hall'. }
  split.
  { intros v Hv Hp. rewrite Hh. unfold received.
    by rewrite bool_decide_eq_true_2, Hp. }
  split.
  { intros v Hv. rewrite Hh. unfold received.
    destruct Hv as [Hv | ->]; [|by rewrite andb_false_r].
    by rewrite bool_decide_eq_false_2. }
  split; [done|]. exists evs. split; [done|]. exact Hev.
Qed.

(** ** Further properties of the container *)

(** *** Triples *)

Lemma hoare_ret {A} (P : State -> Prop) (a : A) (Q : A -> State -> Prop) E :
  (forall s, P s -> Q a s) ->
  hoare P (mret a : @M T Coords BoundaryCommSubset A) Q E.
Proof. intros H s Hs. by apply H. Qed.

Lemma hoare_bind {A B} (P : State -> Prop) (m : M A) (f : A -> M B)
    (R : A -> State -> Prop) (Q : B -> State -> Prop) (E : State -> Prop) :
  hoare P m R E -> (forall a, hoare (R a) (f a) Q E) ->
  hoare (P : @State T Coords BoundaryCommSubset -> Prop) (m ≫= f) Q E.
Proof.
  intros Hm Hf s Hs. specialize (Hm s Hs). unfold mbind, M_bind.
  destruct (m s) as [[a| | |] s']; [|done..]. by apply Hf.
Qed.

Lemma hoare_weaken {A} (P P' : State -> Prop) (m : M A)
    (Q Q' : A -> State -> Prop) (E E' : State -> Prop) :
  hoare P' m Q' E' ->
  (forall s, P s -> P' s) -> (forall a s, Q' a s -> Q a s) ->
  (forall s, E' s -> E s) ->
  hoare (P : @State T Coords BoundaryCommSubset -> Prop) m Q E.
Proof.
  intros Hm HP HQ HE s Hs. specialize (Hm s (HP s Hs)).
  destruct (m s) as [[a| | |] s']; auto.
Qed.

Lemma hoare_get (P : State -> Prop) (E : State -> Prop) :
  hoare (P : @State T Coords BoundaryCommSubset -> Prop) get
        (fun s0 s => s = s0 /\ P s) E.
Proof. intros s Hs. by split. Qed.

Lemma hoare_for_each {A} (I : State -> Prop) (l : list A)
    (body : A -> M unit) (R : A -> Prop) :
  Forall R l ->
  (forall x, R x -> hoare I (body x) (fun _ => I) I) ->
  hoare (I : @State T Coords BoundaryCommSubset -> Prop) (for_each l body)
        (fun _ => I) I.
Proof.
  intros Hl Hb. induction Hl as [|x l' Hx Hl' IH]; cbn [for_each].
  - by apply hoare_ret.
  - eapply hoare_bind; [by apply Hb|]. intros ?. exact IH.
Qed.

Lemma for_each_app {A} (l1 l2 : list A) (body : A -> M unit) s :
  for_each (l1 ++ l2) body s
  = match for_each l1 body s with
    | (Ok _, s1) => for_each l2 body s1
    | r => r
    end.
Proof.
  revert s. induction l1 as [|x l1 IH]; intros s; cbn [for_each app].
  - msimpl. reflexivity.
  - msimpl. destruct (body x s) as [[[]| | |] s1]; [apply IH|done..].
Qed.

(** *** The registry invariant *)

Lemma registry_wf_frame s s' :
  this s' = this s -> heap s' = heap s -> registry_wf s -> registry_wf s'.
Proof. unfold registry_wf. by intros -> ->. Qed.

Lemma live_alloc h c (a : loc) (x : @CellVariable T) :
  live h c -> live (<[a := x]> h) c.
Proof.
  intros (Hv & Hm & Hf). unfold live. setoid_rewrite dom_insert.
  repeat split; intros; apply elem_of_union; right; eauto.
Qed.

Lemma registry_wf_alloc s (a : loc) (x : @CellVariable T) (n : nat)
    (tr : list (@Event BoundaryCommSubset)) :
  (a ∉ dom (heap s) \/ label x = label (heap s !!! a)) ->
  registry_wf s ->
  registry_wf (mkState (this s) (<[a := x]> (heap s)) n tr).
Proof.
  intros Ha (Hl & Hv & Hf). split; [by apply live_alloc|].
  assert (Hlab : forall a', a' ∈ dom (heap s) ->
            label (<[a := x]> (heap s) !!! a') = label (heap s !!! a')).
  { intros a' Ha'. destruct (decide (a = a')) as [<-|Hne].
    - rewrite lookup_total_insert_eq. by destruct Ha as [Ha | Ha].
    - by rewrite lookup_total_insert_ne. }
  destruct Hl as (_ & Hm & Hfm). split; cbn [this heap].
  - intros k a' Hk. rewrite Hlab; [by apply Hv | by eapply Hm].
  - intros k a' Hk. rewrite Hlab; [by apply Hf | by eapply Hfm].
Qed.

Lemma registry_wf_Add (k : VarKind) (var : loc) s :
  var ∈ dom (heap s) -> registry_wf s ->
  fst (Add_kind k var s) = Ok tt
  /\ heap (snd (Add_kind k var s)) = heap s
  /\ registry_wf (snd (Add_kind k var s)).
Proof.
  intros Hvar ((Hv & Hm & Hfm) & Hw & Hfw).
  destruct k; cbn [Add_kind]; unfold Add, AddFace; msimpl;
    (split; [done|]); (split; [done|]); unfold registry_wf, live, varMap_wf;
    cbn [this heap with_vars with_faces varVector_ faceVector_ varMap_
         faceMap_].
  - split; [split; [|split]|split]; try done.
    + intros a. rewrite !elem_of_app, list_elem_of_singleton.
      intros [[Ha | ->] | Ha]; [|done|]; apply Hv, elem_of_app; auto.
    + intros k a. rewrite lookup_insert. case_decide; [by intros [= <-]|].
      apply Hm.
    + intros k a. rewrite lookup_insert.
      case_decide as Hk; [by intros [= <-]|]. apply Hw.
  - split; [split; [|split]|split]; try done.
    + intros a. rewrite !elem_of_app, list_elem_of_singleton.
      intros [Ha | [Ha | ->]]; [| |done]; apply Hv, elem_of_app; auto.
    + intros k a. rewrite lookup_insert. case_decide; [by intros [= <-]|].
      apply Hfm.
    + intros k a. rewrite lookup_insert.
      case_decide as Hk; [by intros [= <-]|]. apply Hfw.
Qed.

(** [AddField] keeps the registry well formed, whatever its outcome. *)
Lemma AddField_keeps_registry_wf G name m sid s :
  registry_wf s -> registry_wf (snd (AddField G name m sid s)).
Proof.
  intros Hwf.
  destruct (decide (Where m = Face)) as [Hf|Hf].
  { rewrite (AddField_face_eq G name m sid s Hf).
    destruct (negb _); [done|]. destruct (IsSet m FillGhost); [done|].
    cbn [snd].
    set (a := fresh (dom (heap s))).
    pose proof (registry_wf_alloc s a (new_FaceVariable name m) (nodes s)
                  (trace s) (or_introl (is_fresh _)) Hwf) as H1.
    destruct (registry_wf_Add FaceKind a _ (proj2 (elem_of_dom _ _)
               (ex_intro _ _ (lookup_insert_eq _ _ _)) ) H1) as (_ & _ & H2).
    revert H2. cbn [Add_kind]. unfold AddFace. msimpl.
    by rewrite lookup_total_insert_eq. }
  destruct (decide (Where m = Node)) as [Hn|Hn].
  { unfold AddField. by rewrite decide_True. }
  destruct (decide (Where m = Edge)) as [He|He].
  { unfold AddField. rewrite decide_False, decide_True by done. done. }
  rewrite (AddField_cell_eq G name m sid s Hn He Hf). cbn [snd].
  set (a := fresh (dom (heap s))). set (v0 := new_CellVariable name m sid).
  pose proof (registry_wf_alloc s a v0 (nodes s) (trace s)
                (or_introl (is_fresh _)) Hwf) as H1.
  assert (Ha : a ∈ dom (<[a := v0]> (heap s))).
  { apply elem_of_dom. exists v0. apply lookup_insert_eq. }
  destruct (registry_wf_Add CellKind a
              (mkState (this s) (<[a := v0]> (heap s)) (nodes s) (trace s))
              Ha H1) as (_ & _ & H2).
  revert H2. cbn [Add_kind]. unfold Add. msimpl.
  rewrite lookup_total_insert_eq. intros H2.
  destruct (negb (sparse_config_enabled G) || negb (IsSparse v0)); [|done].
  match type of H2 with registry_wf ?s2 =>
    apply (registry_wf_alloc s2 a (Allocate v0) (nodes s) (trace s));
      [|exact H2] end.
  right. cbn [heap]. by rewrite lookup_total_insert_eq.
Qed.

(** *** Initialize *)

(** [AddField] touches the two vectors, the two maps and the store; the
    block, the schema, the caches and the node counter stay. *)
Lemma AddField_frame G name m sid s :
  let s' := snd (AddField G name m sid s) in
  pmy_block (this s') = pmy_block (this s)
  /\ resolved_packages_ (this s') = resolved_packages_ (this s)
  /\ varPackMap_ (this s') = varPackMap_ (this s)
  /\ coarseVarPackMap_ (this s') = coarseVarPackMap_ (this s)
  /\ varFluxPackMap_ (this s') = varFluxPackMap_ (this s)
  /\ nodes s' = nodes s
  /\ heap s ⊆ heap s'.
Proof.
  destruct (decide (Where m = Face)) as [Hf|Hf].
  { rewrite (AddField_face_eq G name m sid s Hf).
    destruct (negb _); [done|]. destruct (IsSet m FillGhost); [done|].
    cbn. split_and!; try done.
    apply insert_subseteq, not_elem_of_dom, is_fresh. }
  destruct (decide (Where m = Node)) as [Hn|Hn].
  { unfold AddField. by rewrite decide_True. }
  destruct (decide (Where m = Edge)) as [He|He].
  { unfold AddField. rewrite decide_False, decide_True by done. done. }
  rewrite (AddField_cell_eq G name m sid s Hn He Hf). cbn.
  split_and!; try done.
  destruct (negb (sparse_config_enabled G) || negb _).
  - rewrite insert_insert_eq.
    apply insert_subseteq, not_elem_of_dom, is_fresh.
  - apply insert_subseteq, not_elem_of_dom, is_fresh.
Qed.

Lemma cache_wf_frame s s' :
  varPackMap_ (this s') = varPackMap_ (this s) ->
  coarseVarPackMap_ (this s') = coarseVarPackMap_ (this s) ->
  nodes s' = nodes s -> cache_wf s -> cache_wf s'.
Proof.
  intros H1 H2 H3.
  assert (H : forall b : bool,
            packmap_of b (this s') = packmap_of b (this s)).
  { intros []; cbn; done. }
  unfold cache_wf. setoid_rewrite H. by rewrite H3.
Qed.

(** X1: [Initialize] leaves, in every outcome, a well-formed registry on
    the given block and schema with all three pack caches empty; objects
    that were in the store stay as they were. *)
Theorem Initialize_resets G (resolved_packages : StateDescriptor)
    (pmb : @MeshBlock Coords) s :
  let s' := snd (Initialize G resolved_packages pmb s) in
  registry_wf s' /\ cache_wf s'
  /\ varPackMap_ (this s') = ∅ /\ coarseVarPackMap_ (this s') = ∅
  /\ varFluxPackMap_ (this s') = ∅
  /\ pmy_block (this s') = pmb
  /\ resolved_packages_ (this s') = Some resolved_packages
  /\ heap s ⊆ heap s'.
Proof.
  set (I := fun s1 : @State T Coords BoundaryCommSubset =>
    registry_wf s1
    /\ varPackMap_ (this s1) = ∅ /\ coarseVarPackMap_ (this s1) = ∅
    /\ varFluxPackMap_ (this s1) = ∅
    /\ pmy_block (this s1) = pmb
    /\ resolved_packages_ (this s1) = Some resolved_packages
    /\ heap s ⊆ heap s1).
  set (s0 := mkState (mkMeshBlockData pmb (Some resolved_packages)
                        [] [] ∅ ∅ ∅ ∅ ∅) (heap s) (nodes s) (trace s)).
  assert (H0 : I s0).
  { unfold I, s0. cbn. split; [|done].
    split; [|split]; [split; [|split]| |]; cbn; intros *;
      try rewrite lookup_empty; try done.
    by intros []%elem_of_nil. }
  assert (HI : hoare I
             (for_each (AllFields resolved_packages)
                (fun q => AddField G (fst (fst q)) (snd q) (snd (fst q))))
             (fun _ => I) I).
  { apply (hoare_for_each I _ _ (fun _ => True)).
    - by apply Forall_forall.
    - intros q _ s1 (Hwf & H1 & H2 & H3 & H4 & H5 & H6).
      pose proof (AddField_keeps_registry_wf G q.1.1 q.2 q.1.2 s1 Hwf)
        as Hwf'.
      pose proof (AddField_frame G q.1.1 q.2 q.1.2 s1) as Hfr.
      cbv zeta in Hfr. destruct Hfr as (F1 & F2 & F3 & F4 & F5 & F6 & F7).
      assert (I (snd (AddField G q.1.1 q.2 q.1.2 s1))).
      { unfold I. rewrite F1, F2, F3, F4, F5. split_and!; try done.
        by etransitivity. }
      by destruct (AddField G q.1.1 q.2 q.1.2 s1) as [[[]| | |] s2]. }
  intros s'. specialize (HI s0 H0).
  assert (H : I s').
  { subst s'. unfold Initialize. msimpl. fold s0.
    by destruct (for_each _ _ s0) as [[[]| | |] s2]. }
  destruct H as (Hwf & H1 & H2 & H3 & H4 & H5 & H6).
  split_and!; try done. by apply cache_wf_empty.
Qed.

Lemma AddField_cells_loop G (l : list ((string * Z) * Metadata)) :
  Forall (fun q => cell_placed (snd q)) l ->
  forall s, exists s' new,
    for_each l (fun q => AddField G (fst (fst q)) (snd q) (snd (fst q))) s
    = (Ok tt, s')
    /\ heap s ⊆ heap s'
    /\ varVector_ (this s') = varVector_ (this s) ++ new
    /\ faceVector_ (this s') = faceVector_ (this s)
    /\ trace s' = trace s
    /\ Forall2 (fun q a => (a ∉ dom (heap s))
                           /\ heap s' !! a = Some (field_variable G q)) l new
    /\ NoDup new.
Proof.
  induction 1 as [|q l (Hn & He & Hf) Hl IH]; intros s; cbn [for_each].
  - exists s, []. split_and!; try done; try (by rewrite app_nil_r);
      try apply NoDup_nil_2; by constructor.
  - msimpl. rewrite (AddField_cell_eq G q.1.1 q.2 q.1.2 s Hn He Hf).
    set (a := fresh (dom (heap s))).
    match goal with |- context [for_each l _ ?st] => set (s1 := st) end.
    destruct (IH s1) as (s' & new & E & Hsub & Hv & Hfv & Htr & Hall & Hnd).
    assert (Ha1 : heap s1 !! a = Some (field_variable G q)).
    { unfold s1, field_variable. cbn [heap].
      destruct (negb (sparse_config_enabled G) || negb _);
        apply lookup_insert_eq. }
    assert (Hsub1 : heap s ⊆ heap s1).
    { unfold s1. cbn [heap].
      destruct (negb (sparse_config_enabled G) || negb _);
        rewrite ?insert_insert_eq;
        apply insert_subseteq, not_elem_of_dom, is_fresh. }
    assert (Hdom : forall a', a' ∉ dom (heap s1) -> a' ∉ dom (heap s)).
    { intros a' Hn' Hin. apply Hn'. apply elem_of_dom in Hin as [x Hx].
      apply elem_of_dom. exists x. by eapply lookup_weaken. }
    exists s', (a :: new). rewrite E. split_and!; try done.
    + by etransitivity.
    + rewrite Hv. unfold s1. cbn. by rewrite <- app_assoc.
    + constructor.
      * split; [apply is_fresh|]. by eapply lookup_weaken.
      * eapply Forall2_impl; [exact Hall|]. intros q' a' [Hn' Hl'].
        split; [by apply Hdom|done].
    + apply NoDup_cons. split; [|done]. intros Hin.
      apply list_elem_of_lookup in Hin as [i Hi].
      destruct (Forall2_lookup_r _ _ _ _ _ Hall Hi) as (q' & _ & Hn' & _).
      apply Hn'. apply elem_of_dom. by eexists.
Qed.

(** X2: on a schema whose fields are all cell-placed, [Initialize] returns
    and leaves exactly one new variable per field, in schema order, each
    built from its field and allocated unless sparse support is on and the
    field is sparse; the pointers are pairwise distinct and none of them
    was in the store before; no face variable and no trace entry is added. *)
Theorem Initialize_cell_schema G (resolved_packages : StateDescriptor)
    (pmb : @MeshBlock Coords) s :
  Forall (fun q => cell_placed (snd q)) (AllFields resolved_packages) ->
  let r := Initialize G resolved_packages pmb s in
  fst r = Ok tt
  /\ Forall2 (fun q a => (a ∉ dom (heap s))
                         /\ heap (snd r) !! a = Some (field_variable G q))
       (AllFields resolved_packages) (varVector_ (this (snd r)))
  /\ NoDup (varVector_ (this (snd r)))
  /\ faceVector_ (this (snd r)) = []
  /\ trace (snd r) = trace s.
Proof.
  intros Hall r. subst r. unfold Initialize. msimpl.
  match goal with |- context [for_each _ _ ?s0] =>
    destruct (AddField_cells_loop G _ Hall s0)
      as (s' & new & E & Hsub & Hv & Hfv & Htr & Hf2 & Hnd) end.
  rewrite E. cbn in *. rewrite Hv. by split_and!.
Qed.

Lemma AddField_cells_lookup G (l : list ((string * Z) * Metadata)) :
  Forall (fun q => cell_placed (snd q)) l ->
  NoDup ((fun q => MakeVarLabel (fst (fst q)) (snd (fst q))) <$> l) ->
  forall s,
    let s' :=
      snd (for_each l
             (fun q => AddField G (fst (fst q)) (snd q) (snd (fst q))) s) in
    (forall (i : nat) q, l !! i = Some q ->
       varMap_ (this s') !! MakeVarLabel (fst (fst q)) (snd (fst q))
       = varVector_ (this s') !! (length (varVector_ (this s)) + i)%nat)
    /\ (forall k,
          k ∉ (fun q => MakeVarLabel (fst (fst q)) (snd (fst q))) <$> l ->
          varMap_ (this s') !! k = varMap_ (this s) !! k)
    /\ (forall i : nat, (i < length (varVector_ (this s)))%nat ->
          varVector_ (this s') !! i = varVector_ (this s) !! i)
    /\ length (varVector_ (this s'))
       = (length (varVector_ (this s)) + length l)%nat.
Proof.
  induction 1 as [|q l (Hn & He & Hf) Hl IH]; intros Hnd s; cbn [for_each].
  - cbn. split_and!; try done; lia.
  - cbn [fmap list_fmap] in Hnd. apply NoDup_cons in Hnd as [Hq Hnd].
    msimpl. rewrite (AddField_cell_eq G q.1.1 q.2 q.1.2 s Hn He Hf).
    match goal with |- context [for_each l _ ?st] => set (s1 := st) end.
    destruct (IH Hnd s1) as (H1 & H2 & H3 & H4).
    assert (Hlen : length (varVector_ (this s1))
                   = S (length (varVector_ (this s)))).
    { unfold s1. cbn. rewrite length_app. cbn. lia. }
    cbv zeta in H1, H2, H3, H4. split_and!.
    + intros [|i] q' Hq'.
      * injection Hq' as <-. rewrite (H2 _ Hq), Nat.add_0_r.
        rewrite H3 by lia. unfold s1. cbn.
        rewrite lookup_insert_eq.
        by rewrite lookup_app_r, Nat.sub_diag by lia.
      * cbn in Hq'. rewrite (H1 i q' Hq'), Hlen. f_equal. lia.
    + intros k Hk. cbn [fmap list_fmap] in Hk.
      apply not_elem_of_cons in Hk as [Hk1 Hk2].
      rewrite (H2 k Hk2). unfold s1. cbn. by rewrite lookup_insert_ne.
    + intros i Hi. rewrite H3 by lia. unfold s1. cbn.
      by rewrite lookup_app_l.
    + rewrite H4, Hlen. cbn. lia.
Qed.

(** X3: after [Initialize] on a schema of cell-placed fields with pairwise
    distinct labels, looking up the label of the i-th field in the
    registry gives the i-th variable of [varVector_], and the registry
    binds no other label. *)
Theorem Initialize_lookup G (resolved_packages : StateDescriptor)
    (pmb : @MeshBlock Coords) s :
  Forall (fun q => cell_placed (snd q)) (AllFields resolved_packages) ->
  NoDup ((fun q => MakeVarLabel (fst (fst q)) (snd (fst q)))
           <$> AllFields resolved_packages) ->
  let c := this (snd (Initialize G resolved_packages pmb s)) in
  (forall (i : nat) q,
     AllFields resolved_packages !! i = Some q ->
     is_Some (varVector_ c !! i)
     /\ varMap_ c !! MakeVarLabel (fst (fst q)) (snd (fst q))
        = varVector_ c !! i)
  /\ (forall k,
        k ∉ (fun q => MakeVarLabel (fst (fst q)) (snd (fst q)))
              <$> AllFields resolved_packages ->
        varMap_ c !! k = None)
  /\ length (varVector_ c) = length (AllFields resolved_packages).
Proof.
  intros Hcells Hnd c. subst c. unfold Initialize. msimpl.
  match goal with |- context [for_each _ _ ?s0] =>
    destruct (AddField_cells_lookup G _ Hcells Hnd s0)
      as (H1 & H2 & _ & H4) end.
  cbn [this varVector_ varMap_ length] in *. split_and!.
  - intros i q Hq. split; [|by apply H1].
    apply lookup_lt_is_Some. rewrite H4. cbn.
    by apply lookup_lt_Some in Hq.
  - intros k Hk. by rewrite (H2 k Hk).
  - exact H4.
Qed.

(** X4: [Initialize] stops at the first field it cannot place and keeps
    what it did before.  With the fields before it cell-placed: a
    node-placed field ends the initialization in the exception "Node
    variables are not implemented yet", an edge-placed field ends it with
    an error message and exit code 1; in both cases the variables of the
    earlier fields are in the registry, in schema order, and the later
    fields are never added. *)
Theorem Initialize_unsupported_field G (resolved_packages : StateDescriptor)
    (pmb : @MeshBlock Coords) before q after s :
  AllFields resolved_packages = before ++ q :: after ->
  Forall (fun q => cell_placed (snd q)) before ->
  let r := Initialize G resolved_packages pmb s in
  let added :=
    Forall2 (fun q a => (a ∉ dom (heap s))
                        /\ heap (snd r) !! a = Some (field_variable G q))
            before (varVector_ (this (snd r))) in
  (Where (snd q) = Node ->
   fst r = Throw "Node variables are not implemented yet"
   /\ added /\ trace (snd r) = trace s)
  /\ (Where (snd q) = Edge ->
      fst r = Exit 1
      /\ added
      /\ trace (snd r)
         = trace s ++ [Cerr "Accessing unliving edge array in stage"]).
Proof.
  intros Hfields Hcells r added. subst added r.
  unfold Initialize. msimpl. rewrite Hfields, for_each_app.
  match goal with |- context [for_each before _ ?s0] =>
    destruct (AddField_cells_loop G _ Hcells s0)
      as (s' & new & E & Hsub & Hv & Hfv & Htr & Hf2 & Hnd) end.
  rewrite E. cbn [for_each]. msimpl. cbn [this heap trace varVector_] in *.
  cbn [app] in Hv. split.
  - intros Hn. unfold AddField. rewrite decide_True by done.
    cbn. by rewrite Hv.
  - intros He. unfold AddField.
    rewrite decide_False, decide_True by (done || congruence).
    msimpl. cbn. by rewrite Hv, Htr.
Qed.

(** *** CopyFrom keeps the registry well formed *)

Ltac hret := intros ? ?; unfold mret, M_ret; cbn; auto.

Lemma add_var_keeps src h0 (shallow_copy : bool) flags sparse_ids
    (k : VarKind) (var : loc) :
  hoare (fun s => (registry_wf s /\ live (heap s) src /\ h0 ⊆ heap s)
                  /\ var ∈ dom (heap s))
        (add_var shallow_copy flags sparse_ids k var)
        (fun _ s => registry_wf s /\ live (heap s) src /\ h0 ⊆ heap s)
        (fun s => registry_wf s /\ live (heap s) src /\ h0 ⊆ heap s).
Proof.
  intros s ((Hwf & Hsrc & Hsub) & Hvar). rewrite add_var_eq.
  destruct (negb _); [done|]. destruct (shallow_copy || _).
  - destruct (registry_wf_Add k var s Hvar Hwf) as (E & Hh & Hwf').
    destruct (Add_kind k var s) as [[[]| | |] s']; try done.
    cbn in Hh. by rewrite Hh.
  - unfold AllocateCopy. msimpl.
    set (a := fresh (dom (heap s))).
    set (s1 := mkState (this s) (<[a := heap s !!! var]> (heap s))
                 (nodes s) (trace s)).
    assert (Hwf1 : registry_wf s1).
    { apply registry_wf_alloc; [left; apply is_fresh | done]. }
    assert (Ha : a ∈ dom (heap s1)).
    { apply elem_of_dom. eexists. apply lookup_insert_eq. }
    destruct (registry_wf_Add k a s1 Ha Hwf1) as (E & Hh & Hwf').
    destruct (Add_kind k a s1) as [[[]| | |] s']; try done.
    cbn in Hh. rewrite Hh. split; [done|]. split; [by apply live_alloc|].
    etransitivity; [exact Hsub|].
    apply insert_subseteq, not_elem_of_dom, is_fresh.
Qed.

Lemma CopyFrom_name_keeps src h0 (shallow_copy : bool) flags sparse_ids name :
  hoare (fun s => registry_wf s /\ live (heap s) src /\ h0 ⊆ heap s)
        (CopyFrom_name src shallow_copy flags sparse_ids name)
        (fun _ s => registry_wf s /\ live (heap s) src /\ h0 ⊆ heap s)
        (fun s => registry_wf s /\ live (heap s) src /\ h0 ⊆ heap s).
Proof.
  set (J := fun s : @State T Coords BoundaryCommSubset =>
              registry_wf s /\ live (heap s) src /\ h0 ⊆ heap s).
  assert (Hadd_src : forall (k : VarKind) (var : loc),
            (forall s, J s -> var ∈ dom (heap s)) ->
            hoare J (add_var shallow_copy flags sparse_ids k var)
                  (fun _ => J) J).
  { intros k var Hvar.
    eapply hoare_weaken; [apply (add_var_keeps src h0)| | |]; try done.
    intros s Hs. split; [done|]. by apply Hvar. }
  unfold CopyFrom_name.
  apply (hoare_bind J _ _ (fun _ => J)).
  { destruct (varMap_ src !! name) as [var|] eqn:Hv; [|hret].
    apply (hoare_bind J _ _ (fun _ => J)); [|intros ?; hret].
    apply Hadd_src. intros s (_ & (_ & Hm & _) & _). by eapply Hm. }
  intros found1. apply (hoare_bind J _ _ (fun _ => J)).
  { destruct (faceMap_ src !! name) as [fv|] eqn:Hf; [|hret].
    apply (hoare_bind J _ _ (fun _ => J)).
    { intros s Hs. unfold PARTHENON_REQUIRE_THROWS.
      by destruct (negb found1). }
    intros ?. apply (hoare_bind J _ _ (fun _ => J)); [|intros ?; hret].
    apply Hadd_src. intros s (_ & (_ & _ & Hm) & _). by eapply Hm. }
  intros found2.
  apply (hoare_bind J _ _ (fun s1 s => s = s1 /\ J s)); [by intros s Hs|].
  intros s0. apply (hoare_bind _ _ _ (fun _ => J)).
  { apply (hoare_weaken _ J _ _ (fun _ => J) _ J); try done;
      [|by intros s [_ Hs]].
    destruct (resolved_packages_ (this s0)) as [pkgs|]; [|hret].
    destruct (negb found2); [|hret].
    apply (hoare_bind J _ _ (fun _ => J)); [|intros ?; hret].
    apply (hoare_for_each J _ _ (fun _ => True)); [by apply Forall_forall|].
    intros iter _.
    apply (hoare_bind J _ _ (fun s1 s => s = s1 /\ J s)); [by intros s Hs|].
    intros s1.
    apply (hoare_bind _ _ _
             (fun var s => s = s1 /\ J s
                           /\ varMap_ (this s1) !! MakeVarLabel name iter.1
                              = Some var)).
    { intros s [-> Hs]. unfold lift, at_.
      by destruct (varMap_ (this s1) !! _). }
    intros var.
    eapply hoare_weaken; [apply (add_var_keeps src h0)| | |]; try done.
    intros s (-> & HJ & Hv). split; [done|].
    destruct HJ as (((_ & Hm & _) & _) & _). by eapply Hm. }
  intros found3 s Hs. unfold PARTHENON_REQUIRE_THROWS. by destruct found3.
Qed.

(** X5: [CopyFrom] keeps the registry of the destination well formed in
    every outcome, provided the pointers held by the source are live, and
    it leaves every object that was in the store as it was. *)
Theorem CopyFrom_keeps_registry_wf src (shallow_copy : bool) names flags
    sparse_ids s :
  registry_wf s -> live (heap s) src ->
  let s' := snd (CopyFrom src shallow_copy names flags sparse_ids s) in
  registry_wf s' /\ live (heap s') src /\ heap s ⊆ heap s'.
Proof.
  intros Hwf Hsrc.
  set (J := fun s1 : @State T Coords BoundaryCommSubset =>
              registry_wf s1 /\ live (heap s1) src /\ heap s ⊆ heap s1).
  assert (Hadd : forall (k : VarKind) (l : list loc),
            (forall a, a ∈ l -> a ∈ varVector_ src ++ faceVector_ src) ->
            hoare J (for_each l (add_var shallow_copy flags sparse_ids k))
                  (fun _ => J) J).
  { intros k l Hl.
    apply (hoare_for_each J _ _
             (fun a => a ∈ varVector_ src ++ faceVector_ src)).
    - by apply Forall_forall.
    - intros a Ha.
      eapply hoare_weaken; [apply (add_var_keeps src (heap s))| | |];
        try done.
      intros s1 Hs. split; [done|].
      destruct Hs as (_ & (Hv & _) & _). by apply Hv. }
  set (body := (if bool_decide (names = []) then
               for_each (varVector_ src)
                 (add_var shallow_copy flags sparse_ids CellKind) ;;
               for_each (faceVector_ src)
                 (add_var shallow_copy flags sparse_ids FaceKind)
             else
               for_each names
                 (CopyFrom_name src shallow_copy flags sparse_ids))
              : @M T Coords BoundaryCommSubset unit).
  assert (H : hoare J body (fun _ => J) J).
  { unfold body. case_bool_decide.
    - apply (hoare_bind J _ _ (fun _ => J)).
      + apply Hadd. intros a Ha. apply elem_of_app. by left.
      + intros []. apply Hadd. intros a Ha. apply elem_of_app. by right.
    - apply (hoare_for_each J _ _ (fun _ => True)); [by apply Forall_forall|].
      intros name _. apply CopyFrom_name_keeps. }
  set (st := mkState (with_block (pmy_block src) (resolved_packages_ src)
                        (this s)) (heap s) (nodes s) (trace s)).
  assert (Heq : CopyFrom src shallow_copy names flags sparse_ids s = body st)
    by reflexivity.
  assert (HP : J st).
  { unfold J, st. cbn. split; [|done].
    unfold registry_wf, live, varMap_wf in *. cbn. exact Hwf. }
  intros s'. subst s'. rewrite Heq. specialize (H st HP).
  by destruct (body st) as [[[]| | |] s2].
Qed.

(** *** Outcomes of AddField *)

(** X6: [AddField] returns exactly when the placement is neither node nor
    edge and, for a face placement, the one-copy flag is set and the
    ghost-fill flag is not; in every other case it ends in an error and
    neither the registry nor the store has changed.  A node placement
    throws and leaves the whole state as it was; an edge placement writes
    to [std::cerr] and exits with code 1. *)
Theorem AddField_outcome G name m sid s :
  let r := AddField G name m sid s in
  (fst r = Ok tt <->
     Where m <> Node /\ Where m <> Edge
     /\ (Where m = Face ->
         IsSet m OneCopy = true /\ IsSet m FillGhost = false))
  /\ (fst r <> Ok tt -> this (snd r) = this s /\ heap (snd r) = heap s)
  /\ (Where m = Node ->
      r = (Throw "Node variables are not implemented yet", s))
  /\ (Where m = Edge ->
      r = (Exit 1,
           add_trace [Cerr "Accessing unliving edge array in stage"] s)).
Proof.
  intros r. subst r.
  destruct (decide (Where m = Node)) as [Hn|Hn].
  { unfold AddField. rewrite decide_True by done. cbn.
    split_and!; try done; [|congruence].
    split; [discriminate | by intros [? _]]. }
  destruct (decide (Where m = Edge)) as [He|He].
  { unfold AddField. rewrite decide_False, decide_True by done. cbn.
    split_and!; try done.
    split; [discriminate | by intros (_ & ? & _)]. }
  destruct (decide (Where m = Face)) as [Hf|Hf].
  { rewrite (AddField_face_eq G name m sid s Hf).
    destruct (IsSet m OneCopy), (IsSet m FillGhost); cbn;
      split_and!; try done;
      try (split; [discriminate | intros (_ & _ & H);
                                   by destruct (H Hf)]). }
  rewrite (AddField_cell_eq G name m sid s Hn He Hf). cbn.
  by split_and!.
Qed.

(** *** Selection by name: composition and expansion *)

Lemma fold_each_cons_Ok {A B : Type} (x : A) (l : list A) (acc acc' : B)
    (body : B -> A -> Result B) :
  body acc x = Ok acc' ->
  fold_each (x :: l) acc body = fold_each l acc' body.
Proof. intros H. cbn [fold_each]. by rewrite H. Qed.

Lemma fold_each_cons_Throw {A B : Type} (x : A) (l : list A) (acc : B)
    (body : B -> A -> Result B) (what : string) :
  body acc x = Throw what ->
  fold_each (x :: l) acc body = Throw what.
Proof. intros H. cbn [fold_each]. by rewrite H. Qed.

(** Adding the first occurrences of the passing variables of [l] is
    adding [l]. *)
Lemma VarLabelList_add_all_first h (ids : gset Z) acc (l : list loc) :
  VarLabelList_add_all h ids acc
    (first_labels h
       (List.filter (fun a => passes_sparse_filter (h !!! a) ids) l))
  = VarLabelList_add_all h ids acc l.
Proof.
  rewrite !VarLabelList_add_all_eq. do 3 f_equal.
  rewrite (filter_all_true _ (first_labels h _)).
  - apply first_labels_idemp.
  - intros a Ha%elem_of_first_labels.
    by apply elem_of_filter_list in Ha as [_ Ha].
Qed.

(** The members of a sparse pool are looked up first and added after:
    the lookups do not depend on the list collected so far. *)
Lemma pool_fold_candidates c h (ids : gset Z) name
    (pool : list (Z * Metadata)) :
  exists r : Result (list loc),
    (forall acc : VarLabelList,
       fold_each pool acc
         (fun var_list iter =>
            v ← at_ (varMap_ c) (MakeVarLabel name (fst iter));
            mret (VarLabelList_Add h v ids var_list))
       = cs ← r; mret (VarLabelList_add_all h ids acc cs))
    /\ (forall vs : list loc,
          Forall2 (fun iter a =>
                     varMap_ c !! MakeVarLabel name (fst iter) = Some a)
                  pool vs -> r = Ok vs)
    /\ ((exists iter, iter ∈ pool
                      /\ varMap_ c !! MakeVarLabel name (fst iter) = None) ->
        r = Throw "map::at").
Proof.
  induction pool as [|iter pool (r & Hr & Hok & Hbad)].
  - exists (Ok []). split; [done|]. split.
    + intros vs Hvs. by inversion Hvs.
    + intros (iter & Hin & _). by apply elem_of_nil in Hin.
  - destruct (varMap_ c !! MakeVarLabel name iter.1) as [a|] eqn:Ha.
    + exists (cs ← r; mret (a :: cs)). split; [|split].
      * intros acc.
        rewrite (fold_each_cons_Ok _ _ _ (VarLabelList_Add h a ids acc))
          by (unfold at_; by rewrite Ha).
        rewrite Hr. by destruct r.
      * intros vs Hvs.
        apply Forall2_cons_inv_l in Hvs as (b & vs' & Hb & Hvs' & ->).
        rewrite (Hok vs' Hvs'). cbn. rewrite Ha in Hb. by injection Hb as ->.
      * intros (bad & [->|Hin]%elem_of_cons & Hn); [congruence|].
        rewrite Hbad; [done|]. by exists bad.
    + exists (Throw "map::at"). split; [|split].
      * intros acc. apply fold_each_cons_Throw. unfold at_. by rewrite Ha.
      * intros vs Hvs.
        apply Forall2_cons_inv_l in Hvs as (b & vs' & Hb & _).
        rewrite Ha in Hb. discriminate Hb.
      * done.
Qed.

(** The same for the whole loop of [GetVariablesByName]. *)
Lemma GetVariablesByName_candidates c h (ids : gset Z) (names : list string) :
  exists r : Result (list loc),
    (forall acc : VarLabelList,
       fold_each names acc (fun var_list name =>
         match varMap_ c !! name with
         | Some v => mret (VarLabelList_Add h v ids var_list)
         | None =>
             match resolved_packages_ c with
             | Some pkgs =>
                 if SparseBaseNamePresent pkgs name then
                   fold_each (GetSparsePool pkgs name) var_list
                     (fun var_list iter =>
                        v ← at_ (varMap_ c) (MakeVarLabel name (fst iter));
                        mret (VarLabelList_Add h v ids var_list))
                 else mret var_list
             | None => mret var_list
             end
         end)
       = cs ← r; mret (VarLabelList_add_all h ids acc cs))
    /\ (forall vs : list loc,
          Forall2 (fun name a => varMap_ c !! name = Some a) names vs ->
          r = Ok vs).
Proof.
  induction names as [|name names (r & Hr & Hok)].
  - exists (Ok []). split; [done|]. intros vs Hvs. by inversion Hvs.
  - assert (Hone : exists r1 : Result (list loc),
              (forall acc : VarLabelList,
                 match varMap_ c !! name with
                 | Some v => mret (VarLabelList_Add h v ids acc)
                 | None =>
                     match resolved_packages_ c with
                     | Some pkgs =>
                         if SparseBaseNamePresent pkgs name then
                           fold_each (GetSparsePool pkgs name) acc
                             (fun var_list iter =>
                                v ← at_ (varMap_ c)
                                        (MakeVarLabel name (fst iter));
                                mret (VarLabelList_Add h v ids var_list))
                         else mret acc
                     | None => mret acc
                     end
                 end = cs ← r1; mret (VarLabelList_add_all h ids acc cs))
              /\ (forall a, varMap_ c !! name = Some a -> r1 = Ok [a])).
    { destruct (varMap_ c !! name) as [a|].
      - exists (Ok [a]). split; [done|]. by intros ? [= ->].
      - destruct (resolved_packages_ c) as [pkgs|];
          [|exists (Ok []); by split].
        destruct (SparseBaseNamePresent pkgs name);
          [|exists (Ok []); by split].
        destruct (pool_fold_candidates c h ids name (GetSparsePool pkgs name))
          as (r1 & H1 & _).
        exists r1. by split. }
    destruct Hone as (r1 & H1 & Hok1).
    exists (c1 ← r1; c2 ← r; mret (c1 ++ c2)). split.
    + intros acc. cbn [fold_each]. rewrite H1.
      destruct r1 as [c1| | |]; try done. cbn. rewrite Hr.
      destruct r as [c2| | |]; try done. cbn.
      by rewrite VarLabelList_add_all_app.
    + intros vs Hvs.
      apply Forall2_cons_inv_l in Hvs as (a & vs' & Ha & Hvs' & ->).
      by rewrite (Hok1 a Ha), (Hok vs' Hvs').
Qed.

Lemma VarLabelList_of_first_labels_again h (ids : gset Z) (l : list loc) :
  let F := first_labels h
             (List.filter (fun a => passes_sparse_filter (h !!! a) ids) l) in
  first_labels h (List.filter (fun a => passes_sparse_filter (h !!! a) ids) F)
  = F.
Proof.
  intros F. rewrite (filter_all_true _ F).
  - apply first_labels_idemp.
  - intros a Ha%elem_of_first_labels.
    by apply elem_of_filter_list in Ha as [_ Ha].
Qed.

(** X7: selecting by the concatenation of two name lists gives the
    selection for the first list, extended by [Add]ing to it, one by one,
    the variables selected for the second list, so that a variable
    selected by both is listed once, where the first list puts it; the
    call fails as soon as one of the two selections fails.  When no label
    is selected by both lists, the result is the concatenation of the two
    selections. *)
Theorem GetVariablesByName_app c h (names1 names2 : list string) sparse_ids :
  GetVariablesByName c h (names1 ++ names2) sparse_ids
  = (l1 ← GetVariablesByName c h names1 sparse_ids;
     l2 ← GetVariablesByName c h names2 sparse_ids;
     mret (VarLabelList_add_all h (list_to_set sparse_ids) l1 (vars l2)))
  /\ (forall l1 l2,
        GetVariablesByName c h names1 sparse_ids = Ok l1 ->
        GetVariablesByName c h names2 sparse_ids = Ok l2 ->
        (forall k, k ∈ labels l1 -> k ∉ labels l2) ->
        GetVariablesByName c h (names1 ++ names2) sparse_ids
        = Ok (VarLabelList_app l1 l2)).
Proof.
  set (ids := list_to_set sparse_ids : gset Z).
  destruct (GetVariablesByName_candidates c h ids names1) as (r1 & H1 & _).
  destruct (GetVariablesByName_candidates c h ids names2) as (r2 & H2 & _).
  assert (E1 : GetVariablesByName c h names1 sparse_ids
               = cs ← r1; mret (VarLabelList_add_all h ids
                                  VarLabelList_empty cs))
    by apply H1.
  assert (E2 : GetVariablesByName c h names2 sparse_ids
               = cs ← r2; mret (VarLabelList_add_all h ids
                                  VarLabelList_empty cs))
    by apply H2.
  assert (E : GetVariablesByName c h (names1 ++ names2) sparse_ids
              = l1 ← GetVariablesByName c h names1 sparse_ids;
                l2 ← GetVariablesByName c h names2 sparse_ids;
                mret (VarLabelList_add_all h ids l1 (vars l2))).
  { rewrite E1, E2. unfold GetVariablesByName. fold ids.
    rewrite fold_each_app, H1.
    destruct r1 as [c1| | |]; try done. cbn. rewrite H2.
    destruct r2 as [c2| | |]; try done. cbn.
    rewrite (VarLabelList_add_all_empty h ids c2). cbn [vars VarLabelList_of].
    by rewrite VarLabelList_add_all_first. }
  split; [exact E|].
  intros l1 l2 Hl1 Hl2 Hdis. rewrite E, Hl1, Hl2. cbn. f_equal.
  rewrite E2 in Hl2. destruct r2 as [c2| | |]; try discriminate Hl2.
  cbn in Hl2. injection Hl2 as <-.
  rewrite VarLabelList_add_all_eq. f_equal.
  rewrite (VarLabelList_add_all_empty h ids c2) in Hdis |- *.
  cbn [vars labels VarLabelList_of] in Hdis |- *.
  rewrite VarLabelList_of_first_labels_again. f_equal.
  apply filter_all_true. intros b Hb.
  rewrite negb_true_iff, bool_decide_eq_false. intros Hin.
  apply (Hdis _ Hin).
  by apply (list_elem_of_fmap_2 (fun a => label (h !!! a))).
Qed.

(** The loop of [GetVariablesByName] over bound names, from any list
    collected so far. *)
Lemma GetVariablesByName_bound_eq c h (names : list string) (vs : list loc)
    sparse_ids :
  Forall2 (fun name a => varMap_ c !! name = Some a) names vs ->
  GetVariablesByName c h names sparse_ids
  = Ok (VarLabelList_of h
          (first_labels h
             (List.filter
                (fun a => passes_sparse_filter (h !!! a)
                            (list_to_set sparse_ids)) vs))).
Proof.
  intros Hb.
  destruct (GetVariablesByName_candidates c h (list_to_set sparse_ids) names)
    as (r & Hr & Hok).
  unfold GetVariablesByName. rewrite Hr, (Hok vs Hb). cbn.
  by rewrite VarLabelList_add_all_empty.
Qed.

Lemma first_labels_filter_NoDup h (f : loc -> bool) (vs : list loc) :
  NoDup ((fun a => label (h !!! a)) <$> vs) ->
  first_labels h (List.filter f vs) = List.filter f vs.
Proof. intros Hnd. by apply first_labels_NoDup, NoDup_filter_fmap. Qed.

(** X8: when every requested name is bound in the registry, the selection
    lists the bound variables that pass the sparse-id filter in the order
    of the request, each identity once, at its first occurrence: a name
    requested twice is listed once.  When the bound variables have
    pairwise distinct labels, nothing but the filter drops a variable. *)
Theorem GetVariablesByName_bound c h (names : list string) (vs : list loc)
    sparse_ids :
  Forall2 (fun name a => varMap_ c !! name = Some a) names vs ->
  let passing :=
    List.filter
      (fun a => passes_sparse_filter (h !!! a) (list_to_set sparse_ids)) vs in
  GetVariablesByName c h names sparse_ids
  = Ok (VarLabelList_of h (first_labels h passing))
  /\ NoDup (labels (VarLabelList_of h (first_labels h passing)))
  /\ (NoDup ((fun a => label (h !!! a)) <$> vs) ->
      GetVariablesByName c h names sparse_ids
      = Ok (VarLabelList_of h passing)).
Proof.
  intros Hb passing.
  rewrite (GetVariablesByName_bound_eq c h names vs sparse_ids Hb).
  fold passing. split; [done|]. split.
  - cbn [labels VarLabelList_of]. apply NoDup_first_labels.
  - intros Hnd. unfold passing. by rewrite first_labels_filter_NoDup.
Qed.

Lemma string_app_empty_r (x : string) : x +:+ "" = x.
Proof.
  induction x as [|a x IH]; [done|].
  change (String a (x +:+ "") = String a x). by rewrite IH.
Qed.

(** Distinct sparse ids of one base name give distinct labels. *)
Lemma MakeVarLabel_inj (name : string) (id1 id2 : Z) :
  MakeVarLabel name id1 = MakeVarLabel name id2 -> id1 = id2.
Proof.
  unfold MakeVarLabel.
  case_bool_decide as H1; case_bool_decide as H2; intros E.
  - congruence.
  - assert (E' : name +:+ "" = name +:+ "_" +:+ pretty id2)
      by (by rewrite string_app_empty_r).
    apply (inj (String.append name)) in E'. discriminate E'.
  - assert (E' : name +:+ "_" +:+ pretty id1 = name +:+ "")
      by (by rewrite string_app_empty_r).
    apply (inj (String.append name)) in E'. discriminate E'.
  - apply (inj (String.append name)), (inj (String.append "_")) in E.
    by apply (inj pretty) in E.
Qed.

Lemma pool_labels_NoDup c h name (pool : list (Z * Metadata))
    (vs : list loc) :
  varMap_wf c h ->
  Forall2 (fun iter a => varMap_ c !! MakeVarLabel name (fst iter) = Some a)
          pool vs ->
  NoDup (fst <$> pool) ->
  NoDup ((fun a => label (h !!! a)) <$> vs).
Proof.
  intros Hwf Hb Hnd.
  assert (E : (fun a => label (h !!! a)) <$> vs
              = MakeVarLabel name <$> (fst <$> pool)).
  { clear Hnd. induction Hb as [|iter a pool vs Ha _ IH]; [done|].
    cbn [fmap list_fmap]. rewrite (Hwf _ _ Ha). f_equal. exact IH. }
  rewrite E. apply NoDup_fmap_2_strong; [|done].
  intros x y _ _. apply MakeVarLabel_inj.
Qed.

(** X9: a requested name that is not bound itself but is a sparse base
    name of the schema expands to the variables of its pool, in the order
    of the pool, filtered by the requested sparse ids, each identity
    once.  Nothing but the filter drops a variable when the variables of
    the pool have pairwise distinct labels, as they have in a registry
    whose labels are those of its variables when the pool lists every
    sparse id once.  If the registry lacks the variable of one pool
    member the selection ends in the exception of [std::map::at]. *)
Theorem GetVariablesByName_sparse_pool c h name pkgs sparse_ids :
  varMap_ c !! name = None ->
  resolved_packages_ c = Some pkgs ->
  SparseBaseNamePresent pkgs name = true ->
  (forall vs : list loc,
     Forall2 (fun iter a =>
                varMap_ c !! MakeVarLabel name (fst iter) = Some a)
             (GetSparsePool pkgs name) vs ->
     let passing :=
       List.filter
         (fun a => passes_sparse_filter (h !!! a) (list_to_set sparse_ids))
         vs in
     GetVariablesByName c h [name] sparse_ids
     = Ok (VarLabelList_of h (first_labels h passing))
     /\ (NoDup ((fun a => label (h !!! a)) <$> vs) ->
         GetVariablesByName c h [name] sparse_ids
         = Ok (VarLabelList_of h passing))
     /\ (varMap_wf c h -> NoDup (fst <$> GetSparsePool pkgs name) ->
         GetVariablesByName c h [name] sparse_ids
         = Ok (VarLabelList_of h passing)))
  /\ ((exists iter, iter ∈ GetSparsePool pkgs name
                   /\ varMap_ c !! MakeVarLabel name (fst iter) = None) ->
      GetVariablesByName c h [name] sparse_ids = Throw "map::at").
Proof.
  intros Hn Hp Hs.
  destruct (pool_fold_candidates c h (list_to_set sparse_ids) name
              (GetSparsePool pkgs name)) as (r & Hr & Hok & Hbad).
  assert (E : GetVariablesByName c h [name] sparse_ids
              = cs ← r; mret (VarLabelList_add_all h (list_to_set sparse_ids)
                                VarLabelList_empty cs)).
  { unfold GetVariablesByName. cbn [fold_each]. rewrite Hn, Hp, Hs, Hr.
    by destruct r. }
  split.
  - intros vs Hvs passing. rewrite E, (Hok vs Hvs). cbn.
    rewrite VarLabelList_add_all_empty. fold passing. split; [done|].
    assert (Hd : NoDup ((fun a => label (h !!! a)) <$> vs) ->
                 Ok (VarLabelList_of h (first_labels h passing))
                 = (Ok (VarLabelList_of h passing) : Result VarLabelList)).
    { intros Hnd. unfold passing. by rewrite first_labels_filter_NoDup. }
    split; [exact Hd|]. intros Hwf Hids. apply Hd.
    by apply (pool_labels_NoDup c h name (GetSparsePool pkgs name) vs).
  - intros Hex. by rewrite E, (Hbad Hex).
Qed.

(** *** Pack retrieval: what it leaves alone *)

(** X10: a pack retrieval touches one entry of one cache: the entries under
    other keys, the cache of the other resolution, the combined cache, the
    registry, the block, the schema, the variables and the trace are as
    before, and at most one node is allocated. *)
Theorem PackListedVariables_frame var_list (coarse : bool) s :
  let s' := snd (PackListedVariables var_list coarse s) in
  (forall k, k <> labels var_list ->
     packmap_of coarse (this s') !! k = packmap_of coarse (this s) !! k)
  /\ packmap_of (negb coarse) (this s') = packmap_of (negb coarse) (this s)
  /\ varFluxPackMap_ (this s') = varFluxPackMap_ (this s)
  /\ varVector_ (this s') = varVector_ (this s)
  /\ faceVector_ (this s') = faceVector_ (this s)
  /\ varMap_ (this s') = varMap_ (this s)
  /\ faceMap_ (this s') = faceMap_ (this s)
  /\ pmy_block (this s') = pmy_block (this s)
  /\ resolved_packages_ (this s') = resolved_packages_ (this s)
  /\ heap s' = heap s /\ trace s' = trace s
  /\ (nodes s <= nodes s' <= S (nodes s))%nat.
Proof.
  intros s'. subst s'.
  destruct (PackListedVariables_cases var_list coarse s)
    as [(e & He & Hfp) | H].
  - rewrite (PackListedVariables_hit _ _ _ _ He Hfp). cbn [snd].
    split_and!; try done; lia.
  - rewrite (PackListedVariables_build _ _ _ H). cbn [snd].
    unfold built. cbn [this heap trace nodes].
    split_and!; try (by destruct coarse); try lia.
    intros k Hk. rewrite packmap_of_with, bool_decide_eq_true_2 by done.
    by rewrite lookup_insert_ne.
Qed.

Lemma PackListedVariablesAndFluxes_cases var_list flux_list s :
  (exists e,
     varFluxPackMap_ (this s) !! (labels var_list, labels flux_list) = Some e
     /\ fpip_alloc_status e = alloc_status var_list
     /\ fpip_flux_alloc_status e = alloc_status flux_list)
  \/ (varFluxPackMap_ (this s) !! (labels var_list, labels flux_list) = None
      \/ exists e,
        varFluxPackMap_ (this s) !! (labels var_list, labels flux_list)
        = Some e
        /\ (fpip_alloc_status e <> alloc_status var_list
            \/ fpip_flux_alloc_status e <> alloc_status flux_list)).
Proof.
  destruct (varFluxPackMap_ (this s) !! _) as [e|] eqn:He; [|by right; left].
  destruct (decide (fpip_alloc_status e = alloc_status var_list));
    [destruct (decide (fpip_flux_alloc_status e = alloc_status flux_list))|].
  - left. by exists e.
  - right. right. exists e. auto.
  - right. right. exists e. auto.
Qed.

(** X11: a retrieval of a variables-and-fluxes pack touches one entry of the
    combined cache: the entries under other key pairs, the two plain pack
    caches, the registry, the block, the schema, the variables and the
    trace are as before, and at most one node is allocated.  The returned
    key pair is the pair of label lists of the two selections. *)
Theorem PackListedVariablesAndFluxes_frame var_list flux_list s :
  let r := PackListedVariablesAndFluxes var_list flux_list s in
  let s' := snd r in
  (exists p im, fst r = Ok (p, im, (labels var_list, labels flux_list)))
  /\ (forall k, k <> (labels var_list, labels flux_list) ->
     varFluxPackMap_ (this s') !! k = varFluxPackMap_ (this s) !! k)
  /\ varPackMap_ (this s') = varPackMap_ (this s)
  /\ coarseVarPackMap_ (this s') = coarseVarPackMap_ (this s)
  /\ varVector_ (this s') = varVector_ (this s)
  /\ faceVector_ (this s') = faceVector_ (this s)
  /\ varMap_ (this s') = varMap_ (this s)
  /\ faceMap_ (this s') = faceMap_ (this s)
  /\ pmy_block (this s') = pmy_block (this s)
  /\ resolved_packages_ (this s') = resolved_packages_ (this s)
  /\ heap s' = heap s /\ trace s' = trace s
  /\ (nodes s <= nodes s' <= S (nodes s))%nat.
Proof.
  intros r s'. subst r s'.
  destruct (PackListedVariablesAndFluxes_cases var_list flux_list s)
    as [(e & He & Hv & Hf) | H].
  - rewrite (PackListedVariablesAndFluxes_hit _ _ _ _ He Hv Hf). cbn [fst snd].
    split_and!; try done; try lia. by eexists _, _.
  - rewrite (PackListedVariablesAndFluxes_build _ _ _ H). cbn [fst snd].
    unfold flux_built. cbn [this heap trace nodes].
    split_and!; try done; try lia; [by eexists _, _|].
    intros k Hk. cbn. by rewrite lookup_insert_ne.
Qed.

Lemma fmap_filter_passes c h (ids : gset Z) (names : list string)
    (vs : list loc) :
  varMap_wf c h ->
  Forall2 (fun name a => varMap_ c !! name = Some a) names vs ->
  (fun a => label (h !!! a))
    <$> List.filter (fun a => passes_sparse_filter (h !!! a) ids) vs
  = List.filter
      (fun name => passes_sparse_filter (h !!! (varMap_ c !!! name)) ids)
      names.
Proof.
  intros Hwf. induction 1 as [|name a names vs Ha _ IH]; [done|].
  cbn [List.filter]. rewrite (lookup_total_correct _ _ _ Ha).
  destruct (passes_sparse_filter (h !!! a) ids); [|exact IH].
  cbn [fmap list_fmap]. rewrite (Hwf _ _ Ha). f_equal. exact IH.
Qed.

Lemma labels_of_bound c h (names : list string) (vs : list loc) :
  varMap_wf c h ->
  Forall2 (fun name a => varMap_ c !! name = Some a) names vs ->
  (fun a => label (h !!! a)) <$> vs = names.
Proof.
  intros Hwf. induction 1 as [|name a names vs Ha _ IH]; [done|].
  cbn [fmap list_fmap]. by rewrite (Hwf _ _ Ha), IH.
Qed.

(** X12: a pack retrieval by pairwise distinct names, all of them bound
    in a registry whose labels are those of its variables, returns a pack
    under the key made of the requested names that pass the sparse-id
    filter, in the order of the request, and afterwards the cache of the
    requested resolution holds an entry under that key with the live
    fingerprint. *)
Theorem PackVariablesImpl_names_key (names : list string) (vs : list loc)
    sparse_ids (coarse : bool) s :
  varMap_wf (this s) (heap s) ->
  Forall2 (fun name a => varMap_ (this s) !! name = Some a) names vs ->
  NoDup names ->
  let r := PackVariablesImpl_names names sparse_ids coarse s in
  let passes := fun a =>
    passes_sparse_filter (heap s !!! a) (list_to_set sparse_ids) in
  let key :=
    List.filter (fun name => passes (varMap_ (this s) !!! name)) names in
  exists e,
    fst r = Ok (pip_pack e, pip_map e, key)
    /\ packmap_of coarse (this (snd r)) !! key = Some e
    /\ pip_alloc_status e
       = (fun a => IsAllocated (heap s !!! a)) <$> List.filter passes vs.
Proof.
  intros Hwf Hb Hnd r passes key.
  set (vl := VarLabelList_of (heap s) (List.filter passes vs)).
  assert (Hk : labels vl = key).
  { unfold vl, VarLabelList_of. cbn [labels].
    apply (fmap_filter_passes (this s) (heap s) _ names vs Hwf Hb). }
  assert (Er : r = PackListedVariables vl coarse s).
  { subst r. unfold PackVariablesImpl_names. msimpl.
    rewrite (GetVariablesByName_bound_eq _ _ names vs _ Hb).
    rewrite first_labels_filter_NoDup; [done|].
    by rewrite (labels_of_bound _ _ names vs Hwf Hb). }
  rewrite Er, <- Hk.
  destruct (PackListedVariables_cases vl coarse s) as [(e & He & Hfp) | H].
  - rewrite (PackListedVariables_hit _ _ _ _ He Hfp). cbn [fst snd].
    exists e. by rewrite Hfp.
  - rewrite (PackListedVariables_build _ _ _ H). cbn [fst snd].
    exists (fresh_item vl coarse s). split; [done|]. split; [|done].
    unfold built. cbn [this].
    rewrite packmap_of_with, bool_decide_eq_true_2 by done.
    apply lookup_insert_eq.
Qed.

Lemma GetVariablesByName_ext c c' h names sparse_ids :
  varMap_ c' = varMap_ c -> resolved_packages_ c' = resolved_packages_ c ->
  GetVariablesByName c' h names sparse_ids
  = GetVariablesByName c h names sparse_ids.
Proof. intros Hv Hr. unfold GetVariablesByName. by rewrite Hv, Hr. Qed.

Lemma GetVariablesByFlag_ext c c' h flags match_all sparse_ids :
  varMap_ c' = varMap_ c ->
  GetVariablesByFlag c' h flags match_all sparse_ids
  = GetVariablesByFlag c h flags match_all sparse_ids.
Proof. intros Hv. unfold GetVariablesByFlag. by rewrite Hv. Qed.

Lemma PackListedVariablesAndFluxes_again var_list flux_list s :
  let r := PackListedVariablesAndFluxes var_list flux_list s in
  PackListedVariablesAndFluxes var_list flux_list (snd r) = r
  /\ varMap_ (this (snd r)) = varMap_ (this s)
  /\ resolved_packages_ (this (snd r)) = resolved_packages_ (this s)
  /\ heap (snd r) = heap s.
Proof.
  intros r. subst r.
  destruct (PackListedVariablesAndFluxes_cases var_list flux_list s)
    as [(e & He & Hv & Hf) | H].
  - rewrite (PackListedVariablesAndFluxes_hit _ _ _ _ He Hv Hf). cbn [snd].
    by rewrite (PackListedVariablesAndFluxes_hit _ _ _ _ He Hv Hf).
  - rewrite (PackListedVariablesAndFluxes_build _ _ _ H). cbn [snd].
    split; [|done].
    rewrite (PackListedVariablesAndFluxes_hit _ _ _
               (fresh_flux_item var_list flux_list s)); [done| |done|done].
    unfold flux_built. cbn. apply lookup_insert_eq.
Qed.

(** X13: retrieving a variables-and-fluxes pack twice in a row, by names or
    by flags, gives the same result both times, and the second retrieval
    leaves the state as the first one left it: the pack built by the first
    call is found in the cache by the second, and a first call that threw
    throws again. *)
Theorem PackVariablesAndFluxesImpl_twice (var_names flx_names : list string)
    flags sparse_ids s :
  (let r := PackVariablesAndFluxesImpl_names var_names flx_names
              sparse_ids s in
   PackVariablesAndFluxesImpl_names var_names flx_names sparse_ids (snd r)
   = r)
  /\ (let r := PackVariablesAndFluxesImpl_flags flags sparse_ids s in
      PackVariablesAndFluxesImpl_flags flags sparse_ids (snd r) = r).
Proof.
  split.
  - intros r. subst r. unfold PackVariablesAndFluxesImpl_names. msimpl.
    destruct (GetVariablesByName (this s) (heap s) var_names sparse_ids)
      as [vl|w|n|e] eqn:Ev; cbn [snd this heap]; rewrite ?Ev; try done.
    destruct (GetVariablesByName (this s) (heap s) flx_names sparse_ids)
      as [fl|w|n|e] eqn:Ef; cbn [snd this heap]; rewrite ?Ev, ?Ef; try done.
    destruct (PackListedVariablesAndFluxes_again vl fl s)
      as (E & Hv & Hr & Hh).
    rewrite Hh, !(GetVariablesByName_ext _ _ _ _ _ Hv Hr), Ev, Ef.
    exact E.
  - intros r. subst r. unfold PackVariablesAndFluxesImpl_flags. msimpl.
    set (vl := GetVariablesByFlag (this s) (heap s) flags true sparse_ids).
    destruct (PackListedVariablesAndFluxes_again vl vl s)
      as (E & Hv & Hr & Hh).
    rewrite Hh, (GetVariablesByFlag_ext _ _ _ _ _ _ Hv). exact E.
Qed.

(** *** Boundary exchange: calls, progress and composition *)






Lemma complete_iff_forallb (b : bool) :
  (Ok (if b then complete else incomplete) : Result TaskStatus) = Ok complete
  <-> b = true.
Proof. destruct b; split; intros H; done. Qed.


Lemma filter_pending_after poll h (x : loc) (l : list loc) :
  x ∉ l ->
  List.filter (pending (after_poll poll h x)) l = List.filter (pending h) l.
Proof.
  intros Hx. induction l as [|y l IH]; [done|].
  assert (Hy : y <> x).
  { intros ->. apply Hx, elem_of_cons. by left. }
  assert (Hl : x ∉ l).
  { intros H. apply Hx, elem_of_cons. by right. }
  cbn [List.filter]. rewrite (IH Hl).
  assert (E : pending (after_poll poll h x) y = pending h y).
  { unfold pending, ghost, after_poll.
    by rewrite lookup_total_insert_ne. }
  by rewrite E.
Qed.

Lemma flat_map_ext_elem {A B} (f g : A -> list B) (l : list A) :
  (forall x, x ∈ l -> f x = g x) -> flat_map f l = flat_map g l.
Proof.
  induction l as [|x l IH]; intros H; cbn [flat_map]; [done|].
  rewrite (H x) by (apply elem_of_cons; by left).
  f_equal. apply IH. intros y Hy. apply H, elem_of_cons. by right.
Qed.

Lemma ReceiveBoundaryBuffers_ordered poll l : forall s ret,
  NoDup l ->
  trace (snd (for_each_acc l ret (ReceiveBoundaryBuffers_body poll) s))
  = trace s
    ++ flat_map (fun v => [ResetBoundary v;
                           VbReceiveBoundaryBuffers v
                             (IsAllocated (heap s !!! v))])
                (List.filter (pending (heap s)) l).
Proof.
  induction l as [|x l IH]; intros s ret Hnd; cbn [for_each_acc].
  - cbn. by rewrite app_nil_r.
  - apply NoDup_cons in Hnd as [Hx Hnd].
    msimpl. rewrite ReceiveBoundaryBuffers_body_eq. cbn [List.filter].
    destruct (pending (heap s) x) eqn:Hp.
    + rewrite IH by done. cbn [trace heap flat_map].
      fold (after_poll poll (heap s) x).
      rewrite filter_pending_after by done.
      rewrite <- app_assoc. f_equal. cbn [app]. do 2 f_equal.
      apply flat_map_ext_elem. intros v Hv.
      apply list_elem_of_In, filter_In in Hv as [Hv _].
      assert (Hne : v <> x).
      { intros ->. by apply Hx, list_elem_of_In. }
      unfold after_poll. by rewrite lookup_total_insert_ne.
    + by rewrite IH.
Qed.

(** X16: when [varVector_] holds no variable twice, the calls that one
    [ReceiveBoundaryBuffers] makes into the boundary layer are, for each
    pending variable in the order of [varVector_], the reset of the
    channel followed by the poll with the variable's allocation flag, and
    nothing else. *)
Theorem ReceiveBoundaryBuffers_trace (poll : loc -> bool -> bool) s :
  NoDup (varVector_ (this s)) ->
  trace (snd (ReceiveBoundaryBuffers poll s))
  = trace s
    ++ flat_map (fun v => [ResetBoundary v;
                           VbReceiveBoundaryBuffers v
                             (IsAllocated (heap s !!! v))])
                (List.filter (pending (heap s)) (varVector_ (this s))).
Proof.
  intros Hnd.
  rewrite <- (ReceiveBoundaryBuffers_ordered poll _ s true Hnd).
  unfold ReceiveBoundaryBuffers. msimpl.
  destruct (for_each_acc _ _ _ s) as [[[]| | |] s']; reflexivity.
Qed.

(** X17: when [StartReceiving] returns, that is, when the neighbors on
    this rank pass the assertions of the sync, a receive that follows it
    polls every ghost-filled variable of [varVector_], whatever the
    completion flags were before the exchange was started: it returns
    [complete] exactly when the transport has the data of all of them,
    afterwards the completion flag of each is the answer of its poll, and
    the variables that are not ghost-filled are as they were before
    [StartReceiving]. *)
Theorem StartReceiving_then_receive G phase (poll : loc -> bool -> bool) s :
  neighbors_agree G s ->
  let s1 := snd (StartReceiving G phase s) in
  let r := ReceiveBoundaryBuffers poll s1 in
  let vs := varVector_ (this s) in
  (fst r = Ok complete
   <-> forall v, v ∈ vs -> ghost (heap s) v = true ->
                 polled poll (heap s) v = true)
  /\ (forall v, v ∈ vs -> ghost (heap s) v = true ->
        heap (snd r) !!! v
        = set_mpiStatus (polled poll (heap s) v) (heap s !!! v))
  /\ (forall v, v ∉ vs \/ ghost (heap s) v = false ->
        heap (snd r) !!! v = heap s !!! v)
  /\ this (snd r) = this s.
Proof.
  intros Hag s1 r vs.
  assert (E0 := proj1 (SetLocalNeighborAllocated_eq G s) Hag).
  set (sync := all_sync_calls G s) in E0.
  destruct (StartReceiving_loop phase (varVector_ (this s)) (add_trace sync s))
    as (s' & E & Ht & _ & _ & Hh).
  assert (Es1 : s1 = s').
  { subst s1. unfold StartReceiving. msimpl. rewrite E0.
    cbn [add_trace this]. cbn [add_trace this] in E. by rewrite E. }
  cbn [add_trace this heap trace] in *. fold vs in Hh.
  destruct (ReceiveBoundaryBuffers_eq poll s')
    as (s2 & evs & E2 & Ht2 & _ & Hh2 & _).
  rewrite Ht in E2, Hh2. fold vs in E2, Hh2.
  assert (Hpend : forall v, v ∈ vs -> pending (heap s') v = ghost (heap s) v).
  { intros v Hv. unfold pending, ghost. rewrite Hh.
    rewrite bool_decide_eq_true_2 by done. cbn [andb]. unfold ghost.
    destruct (VarIsSet (heap s !!! v) FillGhost) eqn:Hg; [|by rewrite Hg, andb_false_r].
    unfold VarIsSet in *. cbn [set_mpiStatus mpiStatus metadata]. by rewrite Hg. }
  assert (Hpoll : forall v, polled poll (heap s') v = polled poll (heap s) v).
  { intros v. unfold polled. rewrite Hh. by destruct (_ && _). }
  subst r. rewrite Es1, E2. cbn [fst snd].
  split.
  { rewrite complete_iff_forallb, forallb_forall. split.
    - intros Hall v Hv Hg. assert (Hb := Hall v (proj1 (list_elem_of_In _ _) Hv)).
      rewrite (Hpend v Hv), Hg, Hpoll in Hb. exact Hb.
    - intros Hall v Hv%list_elem_of_In. rewrite (Hpend v Hv), Hpoll.
      destruct (ghost (heap s) v) eqn:Hg; [|done]. cbn. by apply Hall. }
  split.
  { intros v Hv Hg. rewrite Hh2. unfold received.
    rewrite bool_decide_eq_true_2, (Hpend v Hv), Hg, Hpoll by done.
    cbn [andb]. rewrite Hh, bool_decide_eq_true_2, Hg by done. cbn [andb].
    by destruct (heap s !!! v). }
  split; [|by rewrite Ht2, Ht].
  intros v Hv. rewrite Hh2. unfold received.
  destruct Hv as [Hv | Hg].
  - rewrite bool_decide_eq_false_2 by done. cbn [andb].
    rewrite Hh. by rewrite bool_decide_eq_false_2.
  - assert (Hp : bool_decide (v ∈ vs) && pending (heap s') v = false).
    { destruct (decide (v ∈ vs)) as [Hv|Hv].
      - by rewrite (Hpend v Hv), Hg, andb_false_r.
      - by rewrite bool_decide_eq_false_2. }
    rewrite Hp, Hh, Hg. by rewrite andb_false_r.
Qed.

Lemma ReceiveFluxCorrection_fold poll h (l : list loc) :
  forall (calls : list FluxCall) (success total : Z),
    foldl (ReceiveFluxCorrection_body poll h) (calls, success, total) l
    = (calls ++ ((fun v => VbReceiveFluxCorrection v (IsAllocated (h !!! v)))
                  <$> List.filter (flux_ghost h) l),
       success + Z.of_nat (length (List.filter
                    (fun v => flux_ghost h v && polled poll h v) l)),
       total + Z.of_nat (length (List.filter (flux_ghost h) l))).
Proof.
  induction l as [|x l IH]; intros calls success total; cbn [foldl List.filter].
  - cbn. by rewrite app_nil_r, !Z.add_0_r.
  - assert (Hstep :
      ReceiveFluxCorrection_body poll h (calls, success, total) x
      = if flux_ghost h x
        then (calls ++ [VbReceiveFluxCorrection x (IsAllocated (h !!! x))],
              (if polled poll h x then success + 1 else success), total + 1)
        else (calls, success, total)) by reflexivity.
    rewrite Hstep.
    destruct (flux_ghost h x); cbn [andb]; [|apply IH].
    rewrite IH. destruct (polled poll h x); cbn [length fmap list_fmap];
      rewrite <- ?app_assoc; cbn [app]; rewrite ?Nat2Z.inj_succ;
      f_equal; [f_equal|..]; lia.
Qed.

Lemma SendFluxCorrection_fold h (l : list loc) :
  forall calls : list FluxCall,
    foldl (fun calls v =>
             if VarIsSet (h !!! v) WithFluxes && VarIsSet (h !!! v) FillGhost
             then calls ++ [VbSendFluxCorrection v (IsAllocated (h !!! v))]
             else calls) calls l
    = calls ++ ((fun v => VbSendFluxCorrection v (IsAllocated (h !!! v)))
                <$> List.filter (flux_ghost h) l).
Proof.
  induction l as [|x l IH]; intros calls; cbn [foldl List.filter].
  - cbn. by rewrite app_nil_r.
  - change (VarIsSet (h !!! x) WithFluxes && VarIsSet (h !!! x) FillGhost)
      with (flux_ghost h x).
    destruct (flux_ghost h x); [|apply IH].
    rewrite IH. cbn [fmap list_fmap]. by rewrite <- app_assoc.
Qed.

Lemma filter_length_both {A} (P Q : A -> bool) (l : list A) :
  (length (List.filter (fun x => P x && Q x) l)
   <= length (List.filter P l))%nat
  /\ (length (List.filter (fun x => P x && Q x) l)
      = length (List.filter P l)
      <-> forall x, x ∈ List.filter P l -> Q x = true).
Proof.
  induction l as [|x l [IH1 IH2]]; cbn [List.filter].
  - split; [done|]. split; [|done]. intros _ x Hx. by apply elem_of_nil in Hx.
  - destruct (P x) eqn:HP; cbn [andb]; [|by split].
    destruct (Q x) eqn:HQ; cbn [length].
    + split; [lia|]. split.
      * intros H x' [->|Hx']%elem_of_cons; [done|]. apply IH2; [lia|done].
      * intros H. f_equal. apply IH2. intros x' Hx'. apply H, elem_of_cons.
        by right.
    + split; [lia|]. split; [lia|].
      intros H. specialize (H x). rewrite HQ in H.
      discriminate H. apply elem_of_cons. by left.
Qed.

(** X18: the two flux-correction tasks address the same variables, those of
    [varVector_] with both the with-fluxes and the ghost-fill flag, in the
    order of [varVector_], each with its allocation flag.  Sending always
    returns [complete].  Receiving polls every one of them in every call,
    also after a poll has failed, and returns [complete] exactly when all
    polls succeeded, [incomplete] otherwise. *)
Theorem FluxCorrection_calls (poll : loc -> bool -> bool) c h :
  let fg := List.filter (flux_ghost h) (varVector_ c) in
  SendFluxCorrection c h
  = ((fun v => VbSendFluxCorrection v (IsAllocated (h !!! v))) <$> fg,
     complete)
  /\ fst (ReceiveFluxCorrection poll c h)
     = (fun v => VbReceiveFluxCorrection v (IsAllocated (h !!! v))) <$> fg
  /\ (snd (ReceiveFluxCorrection poll c h) = complete
      <-> forall v, v ∈ fg -> polled poll h v = true)
  /\ (snd (ReceiveFluxCorrection poll c h) = incomplete
      <-> exists v, v ∈ fg /\ polled poll h v = false).
Proof.
  intros fg. split.
  { unfold SendFluxCorrection. by rewrite SendFluxCorrection_fold. }
  unfold ReceiveFluxCorrection. rewrite ReceiveFluxCorrection_fold.
  cbn [fst snd app]. fold fg. rewrite !Z.add_0_l.
  destruct (filter_length_both (flux_ghost h) (polled poll h) (varVector_ c))
    as [Hle Hiff]. fold fg in Hle, Hiff.
  split; [done|].
  assert (Hc : (if bool_decide
                     (Z.of_nat (length (List.filter
                        (fun v => flux_ghost h v && polled poll h v)
                        (varVector_ c)))
                      = Z.of_nat (length fg))
                then complete else incomplete) = complete
               <-> forall v, v ∈ fg -> polled poll h v = true).
  { rewrite <- Hiff. case_bool_decide as Hb; split; intros H; try done.
    - lia.
    - exfalso. apply Hb. by rewrite H. }
  split; [exact Hc|].
  split.
  - intros Hi.
    destruct (forallb (polled poll h) fg) eqn:Hall.
    + rewrite forallb_forall in Hall.
      assert (Hco : forall v, v ∈ fg -> polled poll h v = true).
      { intros v Hv. by apply Hall, list_elem_of_In. }
      apply Hc in Hco. rewrite Hco in Hi. discriminate Hi.
    + apply not_true_iff_false in Hall.
      destruct (decide (Exists (fun v => polled poll h v = false) fg))
        as [Hex|Hnex].
      * apply Exists_exists in Hex as (v & Hv & Hp). by exists v.
      * exfalso. apply Hall, forallb_forall. intros v Hv%list_elem_of_In.
        destruct (polled poll h v) eqn:Hp; [done|].
        exfalso. apply Hnex, Exists_exists. by exists v.
  - intros (v & Hv & Hp).
    destruct (bool_decide _) eqn:Hb; [|done].
    rewrite (proj1 Hc eq_refl v Hv) in Hp. discriminate Hp.
Qed.

(** *** Sub-containers and copies by name *)

Lemma add_var_shallow flags sparse_ids (k : VarKind) (var : loc) s :
  add_var true flags sparse_ids k var s
  = if copy_selects flags sparse_ids (heap s !!! var)
    then Add_kind k var s else (Ok tt, s).
Proof. rewrite add_var_eq. by destruct (copy_selects _ _ _). Qed.

Lemma shallow_cells flags sparse_ids (l : list loc) : forall s,
  exists vm,
    for_each l (add_var true flags sparse_ids CellKind) s
    = (Ok tt,
       mkState
         (with_vars
            (varVector_ (this s)
             ++ List.filter
                  (fun a => copy_selects flags sparse_ids (heap s !!! a)) l)
            vm (this s))
         (heap s) (nodes s) (trace s))
    /\ (forall k a, vm !! k = Some a ->
          varMap_ (this s) !! k = Some a
          \/ (a ∈ List.filter
                    (fun a => copy_selects flags sparse_ids (heap s !!! a)) l
              /\ label (heap s !!! a) = k))
    /\ (forall a, a ∈ List.filter
                    (fun a => copy_selects flags sparse_ids (heap s !!! a)) l ->
          is_Some (vm !! label (heap s !!! a)))
    /\ (forall k, is_Some (varMap_ (this s) !! k) -> is_Some (vm !! k)).
Proof.
  induction l as [|x l IH]; intros s; cbn [for_each List.filter].
  - exists (varMap_ (this s)). rewrite app_nil_r. split.
    { destruct s as [[] ? ? ?]. reflexivity. }
    split; [auto|]. split; [|auto]. intros a Ha. by apply elem_of_nil in Ha.
  - msimpl. rewrite add_var_shallow.
    destruct (copy_selects flags sparse_ids (heap s !!! x)) eqn:Hx.
    + unfold Add_kind, Add. msimpl.
      match goal with |- context [for_each l _ ?st] =>
        destruct (IH st) as (vm & E & H1 & H2 & H3) end.
      cbn [this heap nodes trace with_vars varVector_ varMap_] in *.
      exists vm. rewrite E. split.
      { unfold with_vars. cbn. by rewrite <- app_assoc. }
      split.
      { intros k a Hk. destruct (H1 k a Hk) as [Hins | [Hin Hl]].
        - apply lookup_insert_Some in Hins as [[<- <-] | [_ Hold]].
          + right. split; [apply elem_of_cons; by left | done].
          + by left.
        - right. split; [apply elem_of_cons; by right | done]. }
      split.
      { intros a [->|Ha]%elem_of_cons; [|by apply H2].
        apply H3. rewrite lookup_insert_eq. by eexists. }
      intros k [a Hk]. apply H3.
      destruct (decide (label (heap s !!! x) = k)) as [<-|Hne].
      * rewrite lookup_insert_eq. by eexists.
      * rewrite lookup_insert_ne by done. by eexists.
    + destruct (IH s) as (vm & E & H). exists vm. by rewrite E.
Qed.

Lemma shallow_faces flags sparse_ids (l : list loc) : forall s,
  exists fm,
    for_each l (add_var true flags sparse_ids FaceKind) s
    = (Ok tt,
       mkState
         (with_faces
            (faceVector_ (this s)
             ++ List.filter
                  (fun a => copy_selects flags sparse_ids (heap s !!! a)) l)
            fm (this s))
         (heap s) (nodes s) (trace s))
    /\ (forall k a, fm !! k = Some a ->
          faceMap_ (this s) !! k = Some a
          \/ (a ∈ List.filter
                    (fun a => copy_selects flags sparse_ids (heap s !!! a)) l
              /\ label (heap s !!! a) = k))
    /\ (forall a, a ∈ List.filter
                    (fun a => copy_selects flags sparse_ids (heap s !!! a)) l ->
          is_Some (fm !! label (heap s !!! a)))
    /\ (forall k, is_Some (faceMap_ (this s) !! k) -> is_Some (fm !! k)).
Proof.
  induction l as [|x l IH]; intros s; cbn [for_each List.filter].
  - exists (faceMap_ (this s)). rewrite app_nil_r. split.
    { destruct s as [[] ? ? ?]. reflexivity. }
    split; [auto|]. split; [|auto]. intros a Ha. by apply elem_of_nil in Ha.
  - msimpl. rewrite add_var_shallow.
    destruct (copy_selects flags sparse_ids (heap s !!! x)) eqn:Hx.
    + unfold Add_kind, AddFace. msimpl.
      match goal with |- context [for_each l _ ?st] =>
        destruct (IH st) as (fm & E & H1 & H2 & H3) end.
      cbn [this heap nodes trace with_faces faceVector_ faceMap_] in *.
      exists fm. rewrite E. split.
      { unfold with_faces. cbn. by rewrite <- app_assoc. }
      split.
      { intros k a Hk. destruct (H1 k a Hk) as [Hins | [Hin Hl]].
        - apply lookup_insert_Some in Hins as [[<- <-] | [_ Hold]].
          + right. split; [apply elem_of_cons; by left | done].
          + by left.
        - right. split; [apply elem_of_cons; by right | done]. }
      split.
      { intros a [->|Ha]%elem_of_cons; [|by apply H2].
        apply H3. rewrite lookup_insert_eq. by eexists. }
      intros k [a Hk]. apply H3.
      destruct (decide (label (heap s !!! x) = k)) as [<-|Hne].
      * rewrite lookup_insert_eq. by eexists.
      * rewrite lookup_insert_ne by done. by eexists.
    + destruct (IH s) as (fm & E & H). exists fm. by rewrite E.
Qed.

(** X19: a sub-container built by flags shares every selected variable with
    its source and allocates nothing: the call returns a new container and
    leaves the state as it is; the new container has the block and the
    schema of the source, holds in its two vectors the selected cell and
    face variables of the source, as the same pointers and in source
    order, binds in its registry exactly the labels of these variables,
    and starts with empty pack caches.  [SparseSlice] is the sub-container
    of the container itself with no flag given. *)
Theorem MeshBlockData_by_flags_shallow src flags sparse_ids s :
  let sel := fun a => copy_selects flags sparse_ids (heap s !!! a) in
  (exists c',
     MeshBlockData_by_flags src flags sparse_ids s = (Ok c', s)
     /\ varVector_ c' = List.filter sel (varVector_ src)
     /\ faceVector_ c' = List.filter sel (faceVector_ src)
     /\ (forall k a, varMap_ c' !! k = Some a ->
           a ∈ varVector_ c' /\ label (heap s !!! a) = k)
     /\ (forall a, a ∈ varVector_ c' ->
           is_Some (varMap_ c' !! label (heap s !!! a)))
     /\ (forall k a, faceMap_ c' !! k = Some a ->
           a ∈ faceVector_ c' /\ label (heap s !!! a) = k)
     /\ (forall a, a ∈ faceVector_ c' ->
           is_Some (faceMap_ c' !! label (heap s !!! a)))
     /\ pmy_block c' = pmy_block src
     /\ resolved_packages_ c' = resolved_packages_ src
     /\ varPackMap_ c' = ∅ /\ coarseVarPackMap_ c' = ∅
     /\ varFluxPackMap_ c' = ∅)
  /\ SparseSlice sparse_ids s
     = MeshBlockData_by_flags (this s) [] sparse_ids s.
Proof.
  intros sel. split; [|reflexivity].
  unfold MeshBlockData_by_flags, on_new_container, CopyFrom.
  rewrite bool_decide_eq_true_2 by done. msimpl.
  match goal with |- context [for_each (varVector_ src) _ ?st] =>
    destruct (shallow_cells flags sparse_ids (varVector_ src) st)
      as (vm & E1 & Hv1 & Hv2 & _) end.
  rewrite E1. cbn [this heap nodes trace] in *.
  match goal with |- context [for_each (faceVector_ src) _ ?st] =>
    destruct (shallow_faces flags sparse_ids (faceVector_ src) st)
      as (fm & E2 & Hf1 & Hf2 & _) end.
  rewrite E2. cbn [this heap nodes trace] in *.
  eexists. split; [by destruct s|].
  cbn. fold sel in Hv1, Hv2, Hf1, Hf2 |- *.
  split_and!; try done.
  - intros k a Hk. destruct (Hv1 k a Hk) as [Hemp|H]; [|done].
    cbn in Hemp. by rewrite lookup_empty in Hemp.
  - intros k a Hk. destruct (Hf1 k a Hk) as [Hemp|H]; [|done].
    cbn in Hemp. by rewrite lookup_empty in Hemp.
Qed.

Lemma CopyFrom_name_not_found src (shallow_copy : bool) flags sparse_ids
    name s :
  varMap_ src !! name = None -> faceMap_ src !! name = None ->
  (forall pkgs, resolved_packages_ (this s) = Some pkgs ->
                GetSparsePool pkgs name = []) ->
  CopyFrom_name src shallow_copy flags sparse_ids name s
  = (Throw ("MeshBlockData::CopyFrom: Variable '" +:+ name +:+ "' not found"),
     s).
Proof.
  intros Hv Hf Hp. unfold CopyFrom_name. rewrite Hv, Hf. msimpl.
  destruct (resolved_packages_ (this s)) as [pkgs|] eqn:Hr; [|done].
  cbn. rewrite (Hp pkgs) by done. done.
Qed.

Lemma CopyFrom_name_twice src (shallow_copy : bool) flags sparse_ids
    name (var fv : loc) s :
  varMap_ src !! name = Some var -> faceMap_ src !! name = Some fv ->
  CopyFrom_name src shallow_copy flags sparse_ids name s
  = (Throw ("MeshBlockData::CopyFrom: Variable '" +:+ name
            +:+ "' found more than once"),
     snd (add_var shallow_copy flags sparse_ids CellKind var s)).
Proof.
  intros Hv Hf. unfold CopyFrom_name. rewrite Hv, Hf.
  destruct (add_var_ok shallow_copy flags sparse_ids CellKind var s)
    as (s' & E).
  msimpl. rewrite E. reflexivity.
Qed.

Lemma add_var_loop_ok (shallow_copy : bool) flags sparse_ids (k : VarKind)
    (l : list loc) : forall s,
  exists s',
    for_each l (add_var shallow_copy flags sparse_ids k) s = (Ok tt, s')
    /\ resolved_packages_ (this s') = resolved_packages_ (this s).
Proof.
  induction l as [|x l IH]; intros s; cbn [for_each].
  - by exists s.
  - msimpl. rewrite add_var_eq.
    destruct (negb _); [apply IH|].
    destruct (shallow_copy || _).
    + destruct (Add_kind_eq k x s) as (c' & E & _).
      rewrite E. destruct (IH (mkState c' (heap s) (nodes s) (trace s)))
        as (s' & E' & Hr).
      exists s'. split; [done|]. rewrite Hr. cbn.
      revert E. destruct k; cbn [Add_kind]; unfold Add, AddFace; msimpl;
        intros [= <-]; reflexivity.
    + unfold AllocateCopy. msimpl.
      match goal with |- context [Add_kind k ?a ?s1] =>
        destruct (Add_kind_eq k a s1) as (c' & E & _);
        rewrite E;
        destruct (IH (mkState c' (heap s1) (nodes s1) (trace s1)))
          as (s' & E' & Hr)
      end.
      exists s'. cbn [heap nodes trace] in *. split; [done|]. rewrite Hr. cbn.
      revert E. destruct k; cbn [Add_kind]; unfold Add, AddFace; msimpl;
        intros [= <-]; reflexivity.
Qed.

(** X20: a copy by names stops at the first name it cannot serve and does
    not undo what it did before.  With the names before it bound to cell
    variables of the source: a name that is bound in neither map of the
    source and has no sparse pool in its schema ends the copy in the
    exception "... not found", and a name bound in both maps ends it in
    the exception "... found more than once" after its cell variable was
    added; in both cases the variables of the earlier names stay added to
    the destination and the later names are never looked at. *)
Theorem CopyFrom_by_name_errors src (shallow_copy : bool) flags sparse_ids
    (before after : list string) (vs : list loc) name s :
  Forall2 (fun name var => varMap_ src !! name = Some var
                           /\ faceMap_ src !! name = None) before vs ->
  let s0 := mkState (with_block (pmy_block src) (resolved_packages_ src)
                       (this s)) (heap s) (nodes s) (trace s) in
  let add := add_var shallow_copy flags sparse_ids CellKind in
  let r := CopyFrom src shallow_copy (before ++ name :: after) flags
             sparse_ids s in
  (varMap_ src !! name = None -> faceMap_ src !! name = None ->
   (forall pkgs, resolved_packages_ src = Some pkgs ->
                 GetSparsePool pkgs name = []) ->
   r = (Throw ("MeshBlockData::CopyFrom: Variable '" +:+ name
               +:+ "' not found"),
        snd (for_each vs add s0)))
  /\ (forall var fv : loc,
        varMap_ src !! name = Some var -> faceMap_ src !! name = Some fv ->
        r = (Throw ("MeshBlockData::CopyFrom: Variable '" +:+ name
                    +:+ "' found more than once"),
             snd (for_each (vs ++ [var]) add s0))).
Proof.
  intros Hb s0 add r.
  assert (Er : r = for_each (before ++ name :: after)
                     (CopyFrom_name src shallow_copy flags sparse_ids) s0).
  { subst r. unfold CopyFrom. msimpl.
    rewrite bool_decide_eq_false_2; [done|]. by destruct before. }
  destruct (add_var_loop_ok shallow_copy flags sparse_ids CellKind vs s0)
    as (s1 & E1 & Hr1).
  rewrite for_each_app, (CopyFrom_names_cells _ _ _ _ _ _ Hb), E1 in Er.
  cbn [for_each] in Er. fold add in E1. split.
  - intros Hv Hf Hp. rewrite Er, E1. cbn [snd]. msimpl.
    rewrite CopyFrom_name_not_found; [done..|].
    intros pkgs. rewrite Hr1. apply Hp.
  - intros var fv Hv Hf. rewrite Er. msimpl.
    rewrite (CopyFrom_name_twice _ _ _ _ _ _ _ _ Hv Hf).
    rewrite for_each_app. fold add. rewrite E1. cbn [for_each]. msimpl.
    fold add. by destruct (add var s1) as [[[]| | |] s2].
Qed.

(** X21: a sub-container by names cannot be built from a sparse base name:
    the members of the pool are looked up in the registry of the
    container under construction, which is still empty, so the
    constructor ends in the exception of [std::map::at]; nothing was
    allocated and the state is as before. *)
Theorem MeshBlockData_by_names_sparse_base src name
    (rest : list string) sparse_ids pkgs s :
  varMap_ src !! name = None -> faceMap_ src !! name = None ->
  resolved_packages_ src = Some pkgs ->
  GetSparsePool pkgs name <> [] ->
  MeshBlockData_by_names src (name :: rest) sparse_ids s
  = (Throw "map::at", s).
Proof.
  intros Hv Hf Hr Hp.
  unfold MeshBlockData_by_names, on_new_container, CopyFrom.
  rewrite bool_decide_eq_false_2 by done. msimpl. cbn [for_each]. msimpl.
  unfold CopyFrom_name. rewrite Hv, Hf. msimpl. cbn [with_block resolved_packages_].
  rewrite Hr. cbn [negb].
  destruct (GetSparsePool pkgs name) as [|iter pool]; [done|].
  cbn [for_each]. msimpl. cbn. by destruct s.
Qed.

End Properties.

(** ** The theorems at the concrete block *)

Lemma AddField_face_requirements_witness :
  Where (mkMetadata Face [OneCopy]) = Face
  /\ (fst (AddField ex_globals "F" (mkMetadata Face [OneCopy])
            InvalidSparseID ex_empty) = Ok tt ->
      IsSet (mkMetadata Face [OneCopy]) OneCopy = true
      /\ IsSet (mkMetadata Face [OneCopy]) FillGhost = false).
Proof.
  split; [reflexivity|].
  apply (AddField_face_requirements ex_globals "F"
           (mkMetadata Face [OneCopy]) InvalidSparseID ex_empty eq_refl).
Defined.

Lemma AddField_cell_allocation_witness :
  Where (mkMetadata Cell [FillGhost]) <> Node
  /\ fst (AddField ex_globals "B" (mkMetadata Cell [FillGhost]) 0 ex_empty)
     = Ok tt.
Proof.
  split; [discriminate|].
  apply (AddField_cell_allocation ex_globals "B"
           (mkMetadata Cell [FillGhost]) 0 ex_empty);
    discriminate.
Defined.

Lemma GetVariablesByFlag_selects_witness :
  varMap_wf (this ex_state) (heap ex_state)
  /\ StronglySorted string_lt
       (labels (GetVariablesByFlag (this ex_state) (heap ex_state)
                                   [FillGhost] true [])).
Proof.
  assert (Hwf : varMap_wf (this ex_state) (heap ex_state)).
  { apply (bool_decide_eq_true_1
             (map_Forall (fun k a => label (heap ex_state !!! a) = k)
                         (varMap_ (this ex_state)))).
    vm_compute. reflexivity. }
  split; [exact Hwf|].
  apply (GetVariablesByFlag_selects (this ex_state) (heap ex_state)
           [FillGhost] true [] Hwf).
Defined.

(** The claim C4 as stated, without the sparse-id filter, fails: with
    sparse id 5 requested and no flag, the sparse variable [B_0] is bound
    in the registry and the flag list is empty, yet [B_0] is not listed. *)
Lemma GetVariablesByFlag_flags_only_counterexample :
  ~ (forall (c : @MeshBlockData unit) (h : gmap loc (@CellVariable Z))
            flags match_all sparse_ids a,
       a ∈ vars (GetVariablesByFlag c h flags match_all sparse_ids) <->
       exists k, varMap_ c !! k = Some a
                 /\ flags_selected flags match_all (metadata (h !!! a))).
Proof.
  intros H.
  destruct (H (this ex_state) (heap ex_state) [] true [5] 1%nat) as [_ H1].
  assert (Hin : 1%nat ∈ vars (GetVariablesByFlag (this ex_state)
                                (heap ex_state) [] true [5])).
  { apply H1. exists "B_0". split; [vm_compute; reflexivity|]. by left. }
  revert Hin. vm_compute (vars _).
  rewrite !elem_of_cons, elem_of_nil. intros [? | [? | []]]; discriminate.
Qed.

Lemma ex_state_cache_wf : cache_wf ex_state.
Proof. apply cache_wf_empty; vm_compute; reflexivity. Qed.

Lemma PackListedVariables_cache_witness :
  cache_wf ex_state
  /\ cache_wf (snd (PackListedVariables ex_list false ex_state)).
Proof.
  split; [exact ex_state_cache_wf|].
  apply (PackListedVariables_cache ex_list false ex_state ex_state_cache_wf).
Defined.

(** The end-to-end scenario of the specification: selecting [A] and the
    sparse base name [B] lists [A] and [B_0] with [A] allocated and [B_0]
    not; two retrievals in a row return the same pack; after [B_0] is
    allocated the next retrieval returns a pack in a new node and the
    cache holds the fingerprint with both bits set. *)
Example scenario_select_by_name :
  GetVariablesByName (this ex_state) (heap ex_state) ["A"; "B"] []
  = Ok (mkVarLabelList [0%nat; 1%nat] ["A"; "B_0"] [true; false]).
Proof. vm_compute. reflexivity. Qed.

Example scenario_two_retrievals :
  let r1 := PackVariablesImpl_names ["A"; "B"] [] false ex_state in
  let r2 := PackVariablesImpl_names ["A"; "B"] [] false (snd r1) in
  let r3 := PackVariablesImpl_names ["A"; "B"] [] false
              (ex_allocate_B (snd r2)) in
  fst r2 = fst r1 /\ snd r2 = snd r1
  /\ fst r1 = Ok (mkVariablePack [0%nat; 1%nat] false (Some tt) (Some 0%nat),
                  [("A", 0%nat); ("B_0", 1%nat)], ["A"; "B_0"])
  /\ fst r3 = Ok (mkVariablePack [0%nat; 1%nat] false (Some tt) (Some 1%nat),
                  [("A", 0%nat); ("B_0", 1%nat)], ["A"; "B_0"])
  /\ pip_alloc_status <$> varPackMap_ (this (snd r3)) !! ["A"; "B_0"]
     = Some [true; true].
Proof. vm_compute. repeat split; reflexivity. Qed.

Lemma CopyFrom_shares_OneCopy_witness :
  (forall a, a ∈ varVector_ (this ex_state) ++ faceVector_ (this ex_state) ->
             a ∈ dom (heap ex_dst))
  /\ fst (CopyFrom (this ex_state) false [] [] [] ex_dst) = Ok tt.
Proof.
  assert (Hvalid : forall a,
            a ∈ varVector_ (this ex_state) ++ faceVector_ (this ex_state) ->
            a ∈ dom (heap ex_dst)).
  { apply Forall_forall.
    apply (bool_decide_eq_true_1
             (Forall (fun a => a ∈ dom (heap ex_dst))
                (varVector_ (this ex_state) ++ faceVector_ (this ex_state)))).
    vm_compute. reflexivity. }
  split; [exact Hvalid|].
  exact (proj1 (CopyFrom_shares_OneCopy (this ex_state) false [] []
                  ex_dst Hvalid)).
Defined.

(** The deep copy of the block shares the one-copy variable [C] (address
    2) and duplicates [A] and [B_0] into new objects. *)
Example CopyFrom_deep_copy :
  varVector_ (this (snd (CopyFrom (this ex_state) false [] [] [] ex_dst)))
  = [3%nat; 4%nat; 2%nat].
Proof. vm_compute. reflexivity. Qed.

(** C2 fails on the code: [nope] is neither bound in the registry nor a
    sparse base name, and [GetVariablesByName] returns the list for [A]
    alone without any report, whereas [CopyFrom] asked for the same names
    throws "not found". *)
Theorem GetVariablesByName_omits_unresolved_name :
  varMap_ (this ex_state) !! "nope" = None
  /\ SparseBaseNamePresent ex_pkgs "nope" = false
  /\ GetVariablesByName (this ex_state) (heap ex_state) ["A"; "nope"] []
     = Ok (mkVarLabelList [0%nat] ["A"] [true])
  /\ fst (CopyFrom (this ex_state) true ["A"; "nope"] [] [] ex_dst)
     = Throw "MeshBlockData::CopyFrom: Variable 'nope' not found".
Proof. vm_compute. repeat split; reflexivity. Qed.

(** On the by-name path a sparse base name is expanded through the
    registry of the destination ([varMap_.at] in the loop over the pool),
    so on an empty destination the expansion of [B] ends in the exception
    of [std::map::at]. *)
Example CopyFrom_sparse_base_name :
  fst (CopyFrom (this ex_state) true ["B"] [] [] ex_dst) = Throw "map::at".
Proof. vm_compute. reflexivity. Qed.

(** A receive cycle on the block: after [StartReceiving] the first poll
    sees the data of [A] only and the call is incomplete; the second poll
    asks for [B_0] alone, with its allocation flag [false], and the call
    is complete. *)
Example scenario_receive_cycle :
  let r0 := StartReceiving ex_globals tt ex_state in
  let r1 := ReceiveBoundaryBuffers (fun v _ => bool_decide (v = 0%nat))
              (snd r0) in
  let r2 := ReceiveBoundaryBuffers (fun _ _ => true) (snd r1) in
  fst r0 = Ok complete /\ fst r1 = Ok incomplete /\ fst r2 = Ok complete
  /\ trace (snd r0)
     = [ResetBoundary 0%nat; VbStartReceiving 0%nat tt;
        ResetBoundary 1%nat; VbStartReceiving 1%nat tt]
  /\ trace (snd r2)
     = trace (snd r0)
       ++ [ResetBoundary 0%nat; VbReceiveBoundaryBuffers 0%nat true;
           ResetBoundary 1%nat; VbReceiveBoundaryBuffers 1%nat false;
           ResetBoundary 1%nat; VbReceiveBoundaryBuffers 1%nat false].
Proof. vm_compute. repeat split; reflexivity. Qed.

(** The combined cache on the block: the second retrieval hits, and after
    [B_0] is allocated the flux fingerprint differs and the entry is
    rebuilt in a new node. *)
Example scenario_flux_cache :
  let vl := GetVariablesByFlag (this ex_state) (heap ex_state) [] true [] in
  let r1 := PackListedVariablesAndFluxes vl ex_list ex_state in
  let r2 := PackListedVariablesAndFluxes vl ex_list (snd r1) in
  let s3 := ex_allocate_B (snd r2) in
  let r3 := PackListedVariablesAndFluxes
              (GetVariablesByFlag (this s3) (heap s3) [] true [])
              (GetVariablesByFlag (this s3) (heap s3) [FillGhost] true [])
              s3 in
  r2 = (fst r1, snd r1)
  /\ nodes (snd r1) = 1%nat /\ nodes (snd r3) = 2%nat
  /\ fpip_flux_alloc_status
       <$> varFluxPackMap_ (this (snd r3))
             !! (["A"; "B_0"; "C"], ["A"; "B_0"])
     = Some [true; true].
Proof. vm_compute. repeat split; reflexivity. Qed.

(** ** The further properties at the concrete block *)

Lemma ex_pkgs_cell_placed :
  Forall (fun q : string * Z * Metadata => cell_placed (snd q))
         (AllFields ex_pkgs).
Proof. repeat constructor; discriminate. Qed.

Lemma ex_state_varMap_wf : varMap_wf (this ex_state) (heap ex_state).
Proof.
  apply (bool_decide_eq_true_1
           (map_Forall (fun k a => label (heap ex_state !!! a) = k)
                       (varMap_ (this ex_state)))).
  vm_compute. reflexivity.
Qed.

Lemma ex_state_bound_A_C :
  Forall2 (fun name a => varMap_ (this ex_state) !! name = Some a)
          ["A"; "C"] [0%nat; 2%nat].
Proof. repeat constructor; vm_compute; reflexivity. Qed.

Lemma Initialize_cell_schema_witness :
  Forall (fun q : string * Z * Metadata => cell_placed (snd q))
         (AllFields ex_pkgs)
  /\ fst (Initialize ex_globals ex_pkgs ex_block ex_empty) = Ok tt.
Proof.
  split; [exact ex_pkgs_cell_placed|].
  exact (proj1 (Initialize_cell_schema ex_globals ex_pkgs ex_block ex_empty
                  ex_pkgs_cell_placed)).
Defined.

Lemma Initialize_lookup_witness :
  Forall (fun q : string * Z * Metadata => cell_placed (snd q))
         (AllFields ex_pkgs)
  /\ NoDup ((fun q : string * Z * Metadata =>
               MakeVarLabel (fst (fst q)) (snd (fst q)))
              <$> AllFields ex_pkgs)
  /\ length (varVector_
               (this (snd (Initialize ex_globals ex_pkgs ex_block ex_empty))))
     = length (AllFields ex_pkgs).
Proof.
  assert (Hnd : NoDup ((fun q : string * Z * Metadata =>
                          MakeVarLabel (fst (fst q)) (snd (fst q)))
                         <$> AllFields ex_pkgs)).
  { apply (bool_decide_eq_true_1 (NoDup _)). vm_compute. reflexivity. }
  split; [exact ex_pkgs_cell_placed|]. split; [exact Hnd|].
  exact (proj2 (proj2 (Initialize_lookup ex_globals ex_pkgs ex_block ex_empty
                         ex_pkgs_cell_placed Hnd))).
Defined.

Lemma Initialize_unsupported_field_witness :
  AllFields ex_node_pkgs
  = [("A", InvalidSparseID, mkMetadata Cell [FillGhost])]
    ++ ("N", InvalidSparseID, mkMetadata Node [])
    :: [("C", InvalidSparseID, mkMetadata Cell [OneCopy])]
  /\ Forall (fun q : string * Z * Metadata => cell_placed (snd q))
            [("A", InvalidSparseID, mkMetadata Cell [FillGhost])]
  /\ fst (Initialize ex_globals ex_node_pkgs ex_block ex_empty)
     = Throw "Node variables are not implemented yet".
Proof.
  assert (Hc : Forall (fun q : string * Z * Metadata => cell_placed (snd q))
                 [("A", InvalidSparseID, mkMetadata Cell [FillGhost])]).
  { repeat constructor; discriminate. }
  split; [reflexivity|]. split; [exact Hc|].
  exact (proj1 (proj1 (Initialize_unsupported_field ex_globals ex_node_pkgs
                         ex_block
                         [("A", InvalidSparseID, mkMetadata Cell [FillGhost])]
                         ("N", InvalidSparseID, mkMetadata Node [])
                         [("C", InvalidSparseID, mkMetadata Cell [OneCopy])]
                         ex_empty eq_refl Hc) eq_refl)).
Defined.

Lemma ex_dst_registry_wf : registry_wf ex_dst.
Proof.
  unfold registry_wf, live, varMap_wf. cbn.
  split_and!; intros *; rewrite ?lookup_empty, ?elem_of_nil; done.
Qed.

Lemma ex_state_live : live (heap ex_dst) (this ex_state).
Proof.
  unfold live. split_and!.
  - apply Forall_forall.
    apply (bool_decide_eq_true_1
             (Forall (fun a => a ∈ dom (heap ex_dst))
                (varVector_ (this ex_state) ++ faceVector_ (this ex_state)))).
    vm_compute. reflexivity.
  - apply (bool_decide_eq_true_1
             (map_Forall (fun (k : string) a => a ∈ dom (heap ex_dst))
                         (varMap_ (this ex_state)))).
    vm_compute. reflexivity.
  - apply (bool_decide_eq_true_1
             (map_Forall (fun (k : string) a => a ∈ dom (heap ex_dst))
                         (faceMap_ (this ex_state)))).
    vm_compute. reflexivity.
Qed.

Lemma CopyFrom_keeps_registry_wf_witness :
  registry_wf ex_dst /\ live (heap ex_dst) (this ex_state)
  /\ registry_wf (snd (CopyFrom (this ex_state) false ["A"; "C"] [] [] ex_dst)).
Proof.
  split; [exact ex_dst_registry_wf|]. split; [exact ex_state_live|].
  exact (proj1 (CopyFrom_keeps_registry_wf (this ex_state) false ["A"; "C"]
                  [] [] ex_dst ex_dst_registry_wf ex_state_live)).
Defined.

Lemma GetVariablesByName_bound_witness :
  Forall2 (fun name a => varMap_ (this ex_state) !! name = Some a)
          ["A"; "C"; "A"] [0%nat; 2%nat; 0%nat]
  /\ GetVariablesByName (this ex_state) (heap ex_state) ["A"; "C"; "A"] []
     = Ok (VarLabelList_of (heap ex_state)
             (first_labels (heap ex_state)
                (List.filter
                   (fun a => passes_sparse_filter (heap ex_state !!! a)
                               (list_to_set []))
                   [0%nat; 2%nat; 0%nat]))).
Proof.
  assert (Hb : Forall2 (fun name a =>
                          varMap_ (this ex_state) !! name = Some a)
                       ["A"; "C"; "A"] [0%nat; 2%nat; 0%nat]).
  { repeat constructor; vm_compute; reflexivity. }
  split; [exact Hb|].
  exact (proj1 (GetVariablesByName_bound (this ex_state) (heap ex_state)
                  ["A"; "C"; "A"] [0%nat; 2%nat; 0%nat] [] Hb)).
Defined.

(** A name requested twice is listed once, where it came first. *)
Example GetVariablesByName_repeated_name :
  GetVariablesByName (this ex_state) (heap ex_state) ["A"; "C"; "A"] []
  = Ok (mkVarLabelList [0%nat; 2%nat] ["A"; "C"] [true; true])
  /\ GetVariablesByName (this ex_state) (heap ex_state) ["B_0"; "B"] []
     = Ok (mkVarLabelList [1%nat] ["B_0"] [false]).
Proof. vm_compute. split; reflexivity. Qed.

Lemma GetVariablesByName_sparse_pool_witness :
  varMap_ (this ex_state) !! "B" = None
  /\ resolved_packages_ (this ex_state) = Some ex_pkgs
  /\ SparseBaseNamePresent ex_pkgs "B" = true
  /\ GetVariablesByName (this ex_state) (heap ex_state) ["B"] [5]
     = Ok (VarLabelList_of (heap ex_state)
             (first_labels (heap ex_state)
                (List.filter
                   (fun a => passes_sparse_filter (heap ex_state !!! a)
                               (list_to_set [5]))
                   [1%nat]))).
Proof.
  assert (H1 : varMap_ (this ex_state) !! "B" = None)
    by (vm_compute; reflexivity).
  assert (H2 : resolved_packages_ (this ex_state) = Some ex_pkgs)
    by reflexivity.
  assert (H3 : SparseBaseNamePresent ex_pkgs "B" = true) by reflexivity.
  assert (H4 : Forall2 (fun (iter : Z * Metadata) a =>
                          varMap_ (this ex_state)
                            !! MakeVarLabel "B" (fst iter) = Some a)
                       (GetSparsePool ex_pkgs "B") [1%nat]).
  { repeat constructor; vm_compute; reflexivity. }
  split; [exact H1|]. split; [exact H2|]. split; [exact H3|].
  exact (proj1 (proj1 (GetVariablesByName_sparse_pool (this ex_state)
                         (heap ex_state) "B" ex_pkgs [5] H1 H2 H3)
                  [1%nat] H4)).
Defined.

Lemma PackVariablesImpl_names_key_witness :
  varMap_wf (this ex_state) (heap ex_state)
  /\ Forall2 (fun name a => varMap_ (this ex_state) !! name = Some a)
             ["A"; "C"] [0%nat; 2%nat]
  /\ NoDup ["A"; "C"]
  /\ exists e,
       fst (PackVariablesImpl_names ["A"; "C"] [] false ex_state)
       = Ok (pip_pack e, pip_map e,
             List.filter
               (fun name =>
                  passes_sparse_filter
                    (heap ex_state !!! (varMap_ (this ex_state) !!! name))
                    (list_to_set []))
               ["A"; "C"])
       /\ packmap_of false
            (this (snd (PackVariablesImpl_names ["A"; "C"] [] false ex_state)))
          !! List.filter
               (fun name =>
                  passes_sparse_filter
                    (heap ex_state !!! (varMap_ (this ex_state) !!! name))
                    (list_to_set []))
               ["A"; "C"]
          = Some e
       /\ pip_alloc_status e
          = (fun a => IsAllocated (heap ex_state !!! a))
              <$> List.filter
                    (fun a => passes_sparse_filter (heap ex_state !!! a)
                                (list_to_set []))
                    [0%nat; 2%nat].
Proof.
  assert (Hnd : NoDup ["A"; "C"]).
  { apply (bool_decide_eq_true_1 (NoDup _)). vm_compute. reflexivity. }
  split; [exact ex_state_varMap_wf|]. split; [exact ex_state_bound_A_C|].
  split; [exact Hnd|].
  exact (PackVariablesImpl_names_key ["A"; "C"] [0%nat; 2%nat] [] false
           ex_state ex_state_varMap_wf ex_state_bound_A_C Hnd).
Defined.

Lemma ReceiveBoundaryBuffers_trace_witness :
  NoDup (varVector_ (this ex_state))
  /\ trace (snd (ReceiveBoundaryBuffers (fun _ _ => true) ex_state))
     = trace ex_state
       ++ flat_map (fun v => [ResetBoundary v;
                              VbReceiveBoundaryBuffers v
                                (IsAllocated (heap ex_state !!! v))])
            (List.filter (pending (heap ex_state))
                         (varVector_ (this ex_state))).
Proof.
  assert (Hnd : NoDup (varVector_ (this ex_state))).
  { apply (bool_decide_eq_true_1 (NoDup _)). vm_compute. reflexivity. }
  split; [exact Hnd|].
  exact (ReceiveBoundaryBuffers_trace (fun _ _ => true) ex_state Hnd).
Defined.

Lemma CopyFrom_by_name_errors_witness :
  Forall2 (fun name var => varMap_ (this ex_state) !! name = Some var
                           /\ faceMap_ (this ex_state) !! name = None)
          ["A"] [0%nat]
  /\ CopyFrom (this ex_state) true (["A"] ++ "nope" :: ["C"]) [] [] ex_dst
     = (Throw ("MeshBlockData::CopyFrom: Variable '" +:+ "nope"
               +:+ "' not found"),
        snd (for_each [0%nat] (add_var true [] [] CellKind)
               (mkState (with_block (pmy_block (this ex_state))
                           (resolved_packages_ (this ex_state))
                           (this ex_dst))
                        (heap ex_dst) (nodes ex_dst) (trace ex_dst)))).
Proof.
  assert (Hb : Forall2 (fun name var =>
                          varMap_ (this ex_state) !! name = Some var
                          /\ faceMap_ (this ex_state) !! name = None)
                       ["A"] [0%nat]).
  { repeat constructor; vm_compute; reflexivity. }
  assert (Hv : varMap_ (this ex_state) !! "nope" = None)
    by (vm_compute; reflexivity).
  assert (Hf : faceMap_ (this ex_state) !! "nope" = None)
    by (vm_compute; reflexivity).
  assert (Hp : forall pkgs, resolved_packages_ (this ex_state) = Some pkgs ->
                            GetSparsePool pkgs "nope" = []).
  { intros pkgs [= <-]. reflexivity. }
  split; [exact Hb|].
  exact (proj1 (CopyFrom_by_name_errors (this ex_state) true [] []
                  ["A"] ["C"] [0%nat] "nope" ex_dst Hb) Hv Hf Hp).
Defined.

Lemma MeshBlockData_by_names_sparse_base_witness :
  varMap_ (this ex_state) !! "B" = None
  /\ faceMap_ (this ex_state) !! "B" = None
  /\ resolved_packages_ (this ex_state) = Some ex_pkgs
  /\ GetSparsePool ex_pkgs "B" <> []
  /\ MeshBlockData_by_names (this ex_state) ["B"] [] ex_state
     = (Throw "map::at", ex_state).
Proof.
  assert (H1 : varMap_ (this ex_state) !! "B" = None)
    by (vm_compute; reflexivity).
  assert (H2 : faceMap_ (this ex_state) !! "B" = None)
    by (vm_compute; reflexivity).
  assert (H3 : resolved_packages_ (this ex_state) = Some ex_pkgs)
    by reflexivity.
  assert (H4 : GetSparsePool ex_pkgs "B" <> []) by discriminate.
  split; [exact H1|]. split; [exact H2|]. split; [exact H3|].
  split; [exact H4|].
  exact (MeshBlockData_by_names_sparse_base (this ex_state) "B" [] []
           ex_pkgs ex_state H1 H2 H3 H4).
Defined.

(** ** One-copy sharing and the neighbor sync at concrete blocks *)

(** C5 fails on the code: in a [CopyFrom] by the sparse base name [B] the
    selected variable is the one-copy variable [B_0] of the source (object
    0), yet the loop over the pool looks [B_0] up in the registry of the
    destination ([varMap_.at]), not in that of the source.  A destination
    that holds a [B_0] of its own (object 1) gets its own object a second
    time and never holds the object of the source, so that a write to the
    storage of the source's variable is not seen through the destination;
    an empty destination gets nothing, the call ends in the exception of
    [std::map::at].  The sibling paths take the variable from the source:
    by the full label [B_0], and over all variables, the destination is
    handed object 0. *)
Theorem CopyFrom_sparse_base_name_not_shared :
  let src := this ex_onecopy_src in
  let r := CopyFrom src false ["B"] [] [] ex_onecopy_dst in
  varMap_ src !! "B" = None
  /\ faceMap_ src !! "B" = None
  /\ GetSparsePool ex_onecopy_pkgs "B" = [(0, mkMetadata Cell [OneCopy])]
  /\ varMap_ src !! MakeVarLabel "B" 0 = Some 0%nat
  /\ VarIsSet (heap ex_onecopy_dst !!! 0%nat) OneCopy = true
  /\ varVector_ src = [0%nat]
  /\ varVector_ (this ex_onecopy_dst) = [1%nat]
  /\ fst r = Ok tt
  /\ varVector_ (this (snd r)) = [1%nat; 1%nat]
  /\ data (store_write 0%nat [7] (heap (snd r)) !!! 1%nat) = []
  /\ fst (CopyFrom src false ["B"] [] [] ex_onecopy_empty) = Throw "map::at"
  /\ varVector_ (this (snd (CopyFrom src false ["B_0"] [] []
                              ex_onecopy_dst)))
     = [1%nat; 0%nat]
  /\ varVector_ (this (snd (CopyFrom src false [] [] [] ex_onecopy_dst)))
     = [1%nat; 0%nat].
Proof. vm_compute. repeat split; reflexivity. Qed.

Lemma ex_state_nb_agree : neighbors_agree ex_globals ex_state_nb.
Proof.
  intros _. apply Forall_cons_2; [|apply Forall_cons_2; [|apply Forall_nil_2]].
  - intros _.
    apply (bool_decide_eq_true_1
             (Forall2 (fun vi ni => label (heap ex_state_nb !!! vi)
                                    = label (heap ex_state_nb !!! ni))
                      (varVector_ (this ex_state_nb))
                      [0%nat; 1%nat; 2%nat])).
    vm_compute. reflexivity.
  - intros H. vm_compute in H. discriminate H.
Qed.



(** The sync on the second container: the neighbor on this rank has its
    [B_0] allocated, the container has not, and the boundary layer is
    told the state of the neighbor for both ghost-filled variables before
    any channel is reset.  A neighbor that lists fewer variables fails
    the first assertion; one that lists them in another order fails the
    second, after the call for the first variable. *)
Example scenario_neighbor_sync :
  trace (snd (StartReceiving ex_globals tt ex_state_nb))
  = [VbSetLocalNeighborAllocated 3%nat 0%nat true;
     VbSetLocalNeighborAllocated 4%nat 0%nat true;
     ResetBoundary 3%nat; VbStartReceiving 3%nat tt;
     ResetBoundary 4%nat; VbStartReceiving 4%nat tt]
  /\ IsAllocated (heap ex_state_nb !!! 4%nat) = false
  /\ StartReceiving ex_globals tt ex_state_short
     = (Abort "varVector_.size() == neighbor_data->varVector_.size()",
        ex_state_short)
  /\ fst (StartReceiving ex_globals tt ex_state_swapped)
     = Abort "varVector_[i]->label() == neighbor_data->varVector_[i]->label()"
  /\ trace (snd (StartReceiving ex_globals tt ex_state_swapped))
     = [VbSetLocalNeighborAllocated 3%nat 0%nat true].
Proof. vm_compute. repeat split; reflexivity. Qed.

Lemma StartReceiving_then_receive_witness :
  neighbors_agree ex_globals ex_state_nb
  /\ this (snd (ReceiveBoundaryBuffers (fun _ _ => true)
                  (snd (StartReceiving ex_globals tt ex_state_nb))))
     = this ex_state_nb.
Proof.
  split; [exact ex_state_nb_agree|].
  exact (proj2 (proj2 (proj2 (StartReceiving_then_receive ex_globals tt
                                (fun _ _ => true) ex_state_nb
                                ex_state_nb_agree)))).
Defined.
